(** * Farmhand: the simulation core of [src/utils.js], [forRange.js] and the
    purchase handler, embedded in Rocq.

    Conventions of the embedding.
    - A JavaScript number is a rational ([Q]); [Infinity] is the extra point
      of [number].  [Math.floor] and [Math.round] are written out
      ([Math_floor], [Math_round]).  The engine computes in binary64: where a
      property depends on how a sum, product or quotient is rounded, the
      operation is followed by [binary64], the rounding to the nearest
      double; elsewhere the arithmetic is the exact one.
    - A JavaScript object used as a dictionary is a [gmap] with [string] keys;
      an object whose keys are enumerated in order ([Object.keys]) is kept as
      its ordered list of own properties.
    - [Math.random] draws from a stream of samples; a computation that draws
      takes the stream and gives back what is left of it.
    - A [throw] is the [Throw] branch of [result]. *)

From Stdlib Require Import ZArith QArith Qround Qpower Qabs Lia Lqa.
From Stdlib Require Import PrimFloat FloatOps SpecFloat.
From stdpp Require Import base option list sorting gmap sets strings pretty.

Local Open Scope Z_scope.

(** ** JavaScript numbers *)

Module JS.

(** [Math.floor] and [Math.round] (halves go up) on a rational. *)
Definition Math_floor (x : Q) : Z := Qfloor x.
Definition Math_round (x : Q) : Z := Qfloor (x + (1 # 2))%Q.

(** A number that may be [Infinity]. *)
Inductive number : Type :=
| Finite (q : Q)
| Infinity.

(** [n > 0] on numbers. *)
Definition gt_zero (n : number) : bool :=
  match n with
  | Finite q => negb (Qle_bool q 0)
  | Infinity => true
  end.

(** [arr[i]] for an integer-valued index: [None] is [undefined]. *)
Definition array_get {A} (arr : list A) (i : Z) : option A :=
  if decide (0 ≤ i) then arr !! Z.to_nat i else None.

(** An object kept with the order of its own properties. *)
Definition object (V : Type) : Type := list (string * V).

Definition Object_keys {V} (o : object V) : list string := o.*1.

Fixpoint get {V} (o : object V) (key : string) : option V :=
  match o with
  | [] => None
  | (k, v) :: rest => if decide (k = key) then Some v else get rest key
  end.

(** What a call produces: a value or a thrown error. *)
Inductive result (E A : Type) : Type :=
| Ok (a : A)
| Throw (e : E).
Arguments Ok {E A} a.
Arguments Throw {E A} e.

End JS.
Import JS.

(** ** Binary64 rounding *)

Module Binary64.

(** [2 ^ e], also for a negative [e]. *)
Definition pow2 (e : Z) : Q := (2 ^ e)%Q.

(** The binary exponent of a positive number: the [e] with
    [2 ^ e <= x < 2 ^ (e + 1)].  The difference of the bit lengths of
    numerator and denominator is [e] or [e + 1]. *)
Definition exponent (x : Q) : Z :=
  let guess := Z.log2 (Qnum x) - Z.log2 (Zpos (Qden x)) in
  if Qle_bool (pow2 guess) x then guess else guess - 1.

(** The nearest integer, a tie going to the even one. *)
Definition round_half_even (x : Q) : Z :=
  let f := Qfloor x in
  match (x - inject_Z f ?= 1 # 2)%Q with
  | Lt => f
  | Gt => f + 1
  | Eq => if Z.even f then f else f + 1
  end.

(** A positive number rounded to 53 significant bits: the nearest multiple
    of the unit in the last place of its binade. *)
Definition round_magnitude (x : Q) : Q :=
  let ulp := pow2 (exponent x - 52) in
  (inject_Z (round_half_even (x / ulp)) * ulp)%Q.

(** The double nearest to [x] (round to nearest, ties to even), which is what
    every arithmetic operation of the engine returns for the exact result
    [x].  The sign is kept and the magnitude rounded, as in the format.  The
    exponent is not bounded: the function is the rounding of binary64 for
    magnitudes from [2 ^ -1022] up to the largest double, and the amounts of
    the game stay far inside that range. *)
Definition binary64 (x : Q) : Q :=
  match (x ?= 0)%Q with
  | Eq => 0%Q
  | Gt => round_magnitude x
  | Lt => (- round_magnitude (- x))%Q
  end.

(** A number that is a double. *)
Definition representable (x : Q) : Prop := (binary64 x == x)%Q.

(** The value of a finite primitive float, to compare [binary64] with the
    arithmetic of the machine. *)
Definition of_float (f : float) : option Q :=
  match Prim2SF f with
  | S754_zero _ => Some 0%Q
  | S754_finite s m e =>
      Some ((if s then -1 else 1) * inject_Z (Zpos m) * pow2 e)%Q
  | _ => None
  end.

Definition agrees (f : float) (q : Q) : bool :=
  match of_float f with
  | Some r => Qeq_bool r q
  | None => false
  end.

Local Open Scope Q_scope.

Lemma pow2_pos e : 0 < pow2 e.
Proof. apply Qpower_0_lt. reflexivity. Qed.

Lemma pow2_succ e : pow2 (e + 1) == 2 * pow2 e.
Proof.
  unfold pow2. rewrite Qpower_plus by discriminate.
  rewrite Qpower_1_r. ring.
Qed.

Lemma pow2_plus a b : pow2 (a + b) == pow2 a * pow2 b.
Proof. unfold pow2. apply Qpower_plus. discriminate. Qed.

Lemma pow2_le a b : (a ≤ b)%Z → pow2 a <= pow2 b.
Proof. intros H. apply Qpower_le_compat_l; [exact H | discriminate]. Qed.

Lemma pow2_lt_inv a b : pow2 a < pow2 b → (a < b)%Z.
Proof. intros H. apply (Qpower_lt_compat_l_inv 2); [exact H | reflexivity]. Qed.

Lemma pow2_Z n : (0 ≤ n)%Z → pow2 n == inject_Z (2 ^ n).
Proof. intros H. unfold pow2. by rewrite Zpower_Qpower. Qed.

Lemma exponent_spec x : 0 < x → pow2 (exponent x) <= x < pow2 (exponent x + 1).
Proof.
  intros Hx. unfold exponent.
  set (a := Z.log2 (Qnum x)). set (b := Z.log2 (Z.pos (Qden x))).
  assert (0 < Qnum x)%Z as Hn by (destruct x as [n d]; unfold Qlt in Hx; simpl in *; lia).
  destruct (Z.log2_spec (Qnum x) Hn) as [Ha1 Ha2]. fold a in Ha1, Ha2.
  destruct (Z.log2_spec (Z.pos (Qden x)) eq_refl) as [Hb1 Hb2].
  fold b in Hb1, Hb2.
  assert (0 ≤ a)%Z as Ha0 by apply Z.log2_nonneg.
  assert (0 ≤ b)%Z as Hb0 by apply Z.log2_nonneg.
  assert (x == inject_Z (Qnum x) / inject_Z (Z.pos (Qden x))) as Hxq.
  { destruct x as [n d]. simpl. apply Qmake_Qdiv. }
  set (N := inject_Z (Qnum x)) in *. set (D := inject_Z (Z.pos (Qden x))) in *.
  assert (pow2 a <= N) as HA1 by (rewrite pow2_Z by done; unfold N; by rewrite <- Zle_Qle).
  assert (N < 2 * pow2 a) as HA2.
  { rewrite <- pow2_succ, pow2_Z by lia. unfold N. rewrite <- Zlt_Qlt.
    by rewrite <- Z.add_1_r in Ha2. }
  assert (pow2 b <= D) as HB1 by (rewrite pow2_Z by done; unfold D; by rewrite <- Zle_Qle).
  assert (D < 2 * pow2 b) as HB2.
  { rewrite <- pow2_succ, pow2_Z by lia. unfold D. rewrite <- Zlt_Qlt.
    by rewrite <- Z.add_1_r in Hb2. }
  pose proof (pow2_pos a) as HpA. pose proof (pow2_pos b) as HpB.
  assert (0 < D) by lra.
  assert (pow2 (a - b) * pow2 b == pow2 a) as Hab.
  { rewrite <- pow2_plus. by replace (a - b + b)%Z with a by lia. }
  pose proof (pow2_pos (a - b)) as HpAB.
  assert (x * D == N) as HxD by (rewrite Hxq; field; lra).
  assert (x < 2 * pow2 (a - b)) as Hup.
  { apply Qnot_le_lt. intros Hle.
    assert (2 * pow2 (a - b) * D <= x * D) by (apply Qmult_le_compat_r; lra).
    assert (2 * pow2 (a - b) * pow2 b <= 2 * pow2 (a - b) * D)
      by (apply Qmult_le_l; lra).
    nra. }
  assert (pow2 (a - b) < 2 * x) as Hlo.
  { apply Qnot_le_lt. intros Hle.
    assert (2 * x * D <= pow2 (a - b) * D) by (apply Qmult_le_compat_r; lra).
    assert (pow2 (a - b) * D < pow2 (a - b) * (2 * pow2 b))
      by (apply Qmult_lt_l; lra).
    nra. }
  destruct (Qle_bool (pow2 (a - b)) x) eqn:Hcmp.
  - apply Qle_bool_iff in Hcmp. rewrite pow2_succ. lra.
  - assert (¬ pow2 (a - b) <= x) as Hnle by (rewrite <- Qle_bool_iff; congruence).
    replace (a - b - 1 + 1)%Z with (a - b)%Z by lia.
    assert (pow2 (a - b) == 2 * pow2 (a - b - 1)) as Hhalf.
    { rewrite <- pow2_succ. by replace (a - b - 1 + 1)%Z with (a - b)%Z by lia. }
    lra.
Qed.

Lemma exponent_unique x e :
  pow2 e <= x < pow2 (e + 1) → exponent x = e.
Proof.
  intros [H1 H2].
  assert (0 < x) as Hx by (pose proof (pow2_pos e); lra).
  destruct (exponent_spec x Hx) as [H3 H4].
  assert (exponent x < e + 1)%Z by (apply pow2_lt_inv; lra).
  assert (e < exponent x + 1)%Z by (apply pow2_lt_inv; lra).
  lia.
Qed.

Lemma exponent_comp x y : 0 < x → x == y → exponent x = exponent y.
Proof.
  intros Hx Hxy. symmetry. apply exponent_unique. rewrite <- Hxy.
  by apply exponent_spec.
Qed.

Lemma exponent_mono x y : 0 < x → x <= y → (exponent x ≤ exponent y)%Z.
Proof.
  intros Hx Hxy.
  destruct (exponent_spec x Hx) as [H1 _].
  destruct (exponent_spec y ltac:(lra)) as [_ H2].
  assert (exponent x < exponent y + 1)%Z by (apply pow2_lt_inv; lra). lia.
Qed.

(** round_half_even *)

Lemma round_half_even_comp x y : x == y → round_half_even x = round_half_even y.
Proof.
  intros H. unfold round_half_even.
  rewrite (Qfloor_comp _ _ H).
  assert (x - inject_Z (Qfloor y) == y - inject_Z (Qfloor y)) as -> by (rewrite H; reflexivity).
  reflexivity.
Qed.

Lemma round_half_even_cases x :
  let f := Qfloor x in
  inject_Z f <= x < inject_Z f + 1
  ∧ ((x - inject_Z f < 1 # 2 ∧ round_half_even x = f)
     ∨ (1 # 2 < x - inject_Z f ∧ round_half_even x = (f + 1)%Z)
     ∨ (x - inject_Z f == 1 # 2
        ∧ round_half_even x = if Z.even f then f else (f + 1)%Z)).
Proof.
  intros f. split.
  - split; [apply Qfloor_le|].
    pose proof (Qlt_floor x) as H. rewrite inject_Z_plus in H. exact H.
  - unfold round_half_even. fold f.
    destruct (x - inject_Z f ?= 1 # 2) eqn:Hc.
    + right. right. split; [by apply Qeq_alt | done].
    + left. split; [by apply Qlt_alt | done].
    + right. left. split; [by apply Qgt_alt | done].
Qed.

Lemma round_half_even_Z n : round_half_even (inject_Z n) = n.
Proof.
  destruct (round_half_even_cases (inject_Z n)) as [_ H].
  rewrite Qfloor_Z in H.
  destruct H as [[_ ->]|[[H _]|[H _]]]; [done|lra..].
Qed.

Lemma round_half_even_error x :
  x - (1 # 2) <= inject_Z (round_half_even x) <= x + (1 # 2).
Proof.
  destruct (round_half_even_cases x) as [[Hf1 Hf2] H].
  destruct H as [[H ->]|[[H ->]|[H ->]]].
  - lra.
  - rewrite inject_Z_plus. change (inject_Z 1) with 1. lra.
  - destruct (Z.even (Qfloor x)); [|rewrite inject_Z_plus; change (inject_Z 1) with 1]; lra.
Qed.

Lemma round_half_even_mono x y :
  x <= y → (round_half_even x ≤ round_half_even y)%Z.
Proof.
  intros Hxy.
  destruct (round_half_even_cases x) as [[Hx1 Hx2] Hx].
  destruct (round_half_even_cases y) as [[Hy1 Hy2] Hy].
  assert (Qfloor x ≤ Qfloor y)%Z as Hf by by apply Qfloor_resp_le.
  destruct (decide (Qfloor x = Qfloor y)) as [Heq|Hne].
  - rewrite Heq in *.
    destruct Hx as [[Hx ->]|[[Hx ->]|[Hx ->]]];
      destruct Hy as [[Hy ->]|[[Hy ->]|[Hy ->]]];
      try destruct (Z.even (Qfloor y)); try lia; exfalso; lra.
  - assert (round_half_even x ≤ Qfloor x + 1)%Z.
    { destruct Hx as [[_ ->]|[[_ ->]|[_ ->]]];
        try destruct (Z.even (Qfloor x)); lia. }
    assert (Qfloor y ≤ round_half_even y)%Z.
    { destruct Hy as [[_ ->]|[[_ ->]|[_ ->]]];
        try destruct (Z.even (Qfloor y)); lia. }
    lia.
Qed.

(** round_magnitude *)

Lemma round_magnitude_comp x y : 0 < x → x == y → round_magnitude x == round_magnitude y.
Proof.
  intros Hx Hxy. unfold round_magnitude.
  rewrite <- (exponent_comp x y Hx Hxy).
  rewrite (round_half_even_comp (x / _) (y / pow2 (exponent x - 52))).
  - reflexivity.
  - apply Qdiv_comp; [exact Hxy | reflexivity].
Qed.

Lemma pow2_52 : pow2 52 == inject_Z (2 ^ 52).
Proof. by apply pow2_Z. Qed.

Lemma scaled_range x :
  0 < x →
  inject_Z (2 ^ 52) <= x / pow2 (exponent x - 52) < inject_Z (2 ^ 53).
Proof.
  intros Hx. destruct (exponent_spec x Hx) as [H1 H2].
  set (e := exponent x) in *.
  pose proof (pow2_pos (e - 52)) as Hu.
  assert (pow2 e == pow2 52 * pow2 (e - 52)) as He.
  { rewrite <- pow2_plus. by replace (52 + (e - 52))%Z with e by lia. }
  rewrite pow2_succ, He in H2. rewrite He in H1. rewrite pow2_52 in H1, H2.
  change (inject_Z (2 ^ 53)) with (2 * inject_Z (2 ^ 52)).
  split.
  - apply Qle_shift_div_l; [exact Hu | lra].
  - apply Qlt_shift_div_r; [exact Hu | lra].
Qed.

Lemma round_magnitude_bounds x :
  0 < x → pow2 (exponent x) <= round_magnitude x <= pow2 (exponent x + 1).
Proof.
  intros Hx. destruct (scaled_range x Hx) as [H1 H2].
  unfold round_magnitude. set (e := exponent x) in *.
  set (q := x / pow2 (e - 52)) in *.
  pose proof (pow2_pos (e - 52)) as Hu.
  assert (2 ^ 52 ≤ round_half_even q)%Z as Hlo.
  { rewrite <- (round_half_even_Z (2 ^ 52)). by apply round_half_even_mono. }
  assert (round_half_even q ≤ 2 ^ 53)%Z as Hhi.
  { rewrite <- (round_half_even_Z (2 ^ 53)). apply round_half_even_mono. lra. }
  assert (pow2 e == pow2 52 * pow2 (e - 52)) as He.
  { rewrite <- pow2_plus. by replace (52 + (e - 52))%Z with e by lia. }
  rewrite pow2_succ, He, pow2_52.
  rewrite Zle_Qle in Hlo, Hhi.
  change (inject_Z (2 ^ 53)) with (2 * inject_Z (2 ^ 52)) in Hhi.
  split.
  - apply Qmult_le_compat_r; lra.
  - rewrite Qmult_assoc. apply Qmult_le_compat_r; lra.
Qed.

Lemma round_magnitude_mono x y :
  0 < x → x <= y → round_magnitude x <= round_magnitude y.
Proof.
  intros Hx Hxy. assert (0 < y) as Hy by lra.
  pose proof (exponent_mono x y Hx Hxy) as He.
  destruct (decide (exponent x = exponent y)) as [Heq|Hne].
  - unfold round_magnitude. rewrite Heq.
    pose proof (pow2_pos (exponent y - 52)) as Hu.
    apply Qmult_le_compat_r; [|lra].
    rewrite <- Zle_Qle. apply round_half_even_mono.
    unfold Qdiv. apply Qmult_le_compat_r; [exact Hxy|].
    apply Qinv_le_0_compat. lra.
  - destruct (round_magnitude_bounds x Hx) as [_ H1].
    destruct (round_magnitude_bounds y Hy) as [H2 _].
    assert (pow2 (exponent x + 1) <= pow2 (exponent y)) by (apply pow2_le; lia).
    lra.
Qed.

Lemma round_magnitude_pos x : 0 < x → 0 < round_magnitude x.
Proof.
  intros Hx. destruct (round_magnitude_bounds x Hx) as [H _].
  pose proof (pow2_pos (exponent x)). lra.
Qed.

Lemma round_magnitude_error x :
  0 < x →
  x - x * pow2 (-53) <= round_magnitude x <= x + x * pow2 (-53).
Proof.
  intros Hx. destruct (exponent_spec x Hx) as [H1 _].
  unfold round_magnitude. set (e := exponent x) in *.
  pose proof (pow2_pos (e - 52)) as Hu. set (u := pow2 (e - 52)) in *.
  pose proof (round_half_even_error (x / u)) as [Hr1 Hr2].
  assert (x / u * u == x) as Hxu by (field; lra).
  assert (u * (1 # 2) <= x * pow2 (-53)) as Hulp.
  { assert (u == pow2 e * (2 * pow2 (-53))) as ->.
    { unfold u. rewrite <- pow2_succ, <- pow2_plus.
      by replace (e + (-53 + 1))%Z with (e - 52)%Z by lia. }
    pose proof (pow2_pos (-53)). nra. }
  set (r := inject_Z (round_half_even (x / u))) in *.
  assert ((x / u - (1 # 2)) * u <= r * u) by (apply Qmult_le_compat_r; lra).
  assert (r * u <= (x / u + (1 # 2)) * u) by (apply Qmult_le_compat_r; lra).
  split; nra.
Qed.

(** binary64 *)

Lemma binary64_pos x : 0 < x → binary64 x = round_magnitude x.
Proof.
  intros H. unfold binary64.
  assert ((x ?= 0) = Gt) as -> by (by apply Qgt_alt). reflexivity.
Qed.

Lemma binary64_neg x : x < 0 → binary64 x = - round_magnitude (- x).
Proof.
  intros H. unfold binary64.
  assert ((x ?= 0) = Lt) as -> by (by apply Qlt_alt). reflexivity.
Qed.

Lemma binary64_zero x : x == 0 → binary64 x = 0.
Proof.
  intros H. unfold binary64.
  assert ((x ?= 0) = Eq) as -> by (by apply Qeq_alt). reflexivity.
Qed.

#[global] Instance binary64_proper : Proper (Qeq ==> Qeq) binary64.
Proof.
  intros x y Hxy.
  destruct (Q_dec x 0) as [[Hx|Hx]|Hx].
  - rewrite (binary64_neg x Hx), (binary64_neg y) by lra.
    apply Qopp_comp, round_magnitude_comp; [lra | by rewrite Hxy].
  - rewrite (binary64_pos x Hx), (binary64_pos y) by lra.
    by apply round_magnitude_comp.
  - rewrite (binary64_zero x Hx), (binary64_zero y) by lra. reflexivity.
Qed.

Lemma binary64_sign x :
  (0 < x → 0 < binary64 x) ∧ (x < 0 → binary64 x < 0) ∧ (x == 0 → binary64 x == 0).
Proof.
  split; [|split]; intros Hx.
  - rewrite binary64_pos by done. by apply round_magnitude_pos.
  - rewrite binary64_neg by done.
    pose proof (round_magnitude_pos (- x) ltac:(lra)). lra.
  - by rewrite binary64_zero.
Qed.

Lemma binary64_mono x y : x <= y → binary64 x <= binary64 y.
Proof.
  intros Hxy.
  destruct (binary64_sign x) as (Hxp & Hxn & Hxz).
  destruct (binary64_sign y) as (Hyp & Hyn & Hyz).
  destruct (Qlt_le_dec 0 x) as [Hx|Hx].
  - rewrite (binary64_pos x Hx), (binary64_pos y) by lra.
    by apply round_magnitude_mono.
  - destruct (Qlt_le_dec y 0) as [Hy|Hy].
    + rewrite (binary64_neg x), (binary64_neg y Hy) by lra.
      apply Qopp_le_compat. apply round_magnitude_mono; lra.
    + assert (binary64 x <= 0).
      { destruct (Qlt_le_dec x 0) as [Hx'|Hx'].
        - specialize (Hxn Hx'). lra.
        - rewrite Hxz; lra. }
      assert (0 <= binary64 y).
      { destruct (Qlt_le_dec 0 y) as [Hy'|Hy'].
        - specialize (Hyp Hy'). lra.
        - rewrite Hyz; lra. }
      lra.
Qed.

Lemma binary64_error x :
  Qabs (binary64 x - x) <= Qabs x * pow2 (-53).
Proof.
  pose proof (pow2_pos (-53)) as Hp.
  destruct (Q_dec x 0) as [[Hx|Hx]|Hx].
  - rewrite (binary64_neg x Hx).
    destruct (round_magnitude_error (- x) ltac:(lra)) as [H1 H2].
    rewrite (Qabs_neg x) by lra. apply Qabs_Qle_condition. split; nra.
  - rewrite (binary64_pos x Hx).
    destruct (round_magnitude_error x Hx) as [H1 H2].
    rewrite (Qabs_pos x) by lra. apply Qabs_Qle_condition. split; nra.
  - rewrite (binary64_zero x Hx).
    assert (Qabs (0 - x) == 0) as -> by (rewrite Hx; reflexivity).
    pose proof (Qabs_nonneg x). nra.
Qed.

Lemma binary64_between a b x :
  representable a → representable b → a <= x <= b → a <= binary64 x <= b.
Proof.
  unfold representable. intros Ha Hb [H1 H2].
  pose proof (binary64_mono a x H1). pose proof (binary64_mono x b H2). lra.
Qed.


(** [binary64] against the machine's binary64 on the operations used below. *)
Example binary64_agrees_quotient :
  agrees (15 / 1000)%float (binary64 (15 # 1000)) = true.
Proof. vm_compute. reflexivity. Qed.

Example binary64_agrees_product :
  agrees (15 / 1000 * 100)%float (binary64 (binary64 (15 # 1000) * 100)) = true.
Proof. vm_compute. reflexivity. Qed.

Example binary64_agrees_sum :
  agrees (0x1.fffffffffffffp-1 + 0.5)%float
    (binary64 (1 - pow2 (-53) + (1 # 2))) = true.
Proof. vm_compute. reflexivity. Qed.

Example binary64_agrees_difference :
  agrees (555 / 100 - 11 / 10)%float
    (binary64 (binary64 (555 # 100) - binary64 (11 # 10))) = true.
Proof. vm_compute. reflexivity. Qed.

Example binary64_agrees_negative :
  agrees (-73 / 30)%float (binary64 (-73 # 30)) = true.
Proof. vm_compute. reflexivity. Qed.

Example binary64_tie_to_even :
  (binary64 (1 + pow2 (-53)) == 1)%Q
  ∧ (binary64 (1 + 3 * pow2 (-53)) == 1 + 4 * pow2 (-53))%Q
  ∧ agrees (1 + 0x1p-53)%float 1 = true
  ∧ agrees (1 + 0x1.8p-52)%float (1 + 4 * pow2 (-53)) = true.
Proof. repeat split; vm_compute; reflexivity. Qed.

End Binary64.
Import Binary64.

(** ** The memoization layer *)

Module Memoize.
Section WithFunction.

Context {Args R : Type}.

(** [MEMOIZE_CACHE_CLEAR_THRESHOLD] of [constants.js], which is not among the
    sources. *)
Variable MEMOIZE_CACHE_CLEAR_THRESHOLD : nat.

(** [class MemoizeCache]: its only field is the object [cache], from
    serialized arguments to results.  The keys are serializations (JSON
    texts), none of which names a property that a plain object inherits, so
    the object is a finite map. *)
Local Abbreviation MemoizeCache := (gmap string R).

Definition create : MemoizeCache := ∅.

Definition has (key : string) (this : MemoizeCache) : bool :=
  bool_decide (is_Some (this !! key)).

(** [None] is [undefined]. *)
Definition get (key : string) (this : MemoizeCache) : option R := this !! key.

Definition set (key : string) (value : R) (this : MemoizeCache) : MemoizeCache :=
  let cache :=
    if decide (MEMOIZE_CACHE_CLEAR_THRESHOLD < size this)%nat then ∅ else this in
  <[key := value]> cache.

(** The wrapped function and the serializer of its arguments
    ([JSON.stringify], or [config.serializer]). *)
Variable fn : Args → R.
Variable serializer : Args → string.

(** Modelled from the spec: [fastMemoize] is the dependency fast-memoize, which
    is not among the sources.  Following section 4.1, it keys the cache by the
    serialization of the arguments, answers from the cache on a hit and
    computes and stores the result on a miss.  A call takes the cache of the
    memoized function and gives it back. *)
Definition fastMemoize (args : Args) (cache : MemoizeCache) : R * MemoizeCache :=
  let cacheKey := serializer args in
  match get cacheKey cache with
  | Some computedValue => (computedValue, cache)
  | None =>
      let computedValue := fn args in
      (computedValue, set cacheKey computedValue cache)
  end.

(** [memoize(fn, config)]: [fastMemoize] over a fresh [MemoizeCache]. *)
Definition memoize : Args → MemoizeCache → R * MemoizeCache := fastMemoize.

(** The cache after a sequence of calls of the memoized function. *)
Definition cache_after (calls : list Args) : MemoizeCache :=
  foldl (λ cache args, (memoize args cache).2) create calls.

(** Every entry of the cache is the result of [fn] on the arguments that
    serialize to its key. *)
Definition cache_sound (cache : MemoizeCache) : Prop :=
  ∀ args v, cache !! serializer args = Some v → v = fn args.

(** Section 4.1 keys the cache by a canonical serialization; what is used of
    it is that arguments with one serialization have one result. *)
Hypothesis serializer_canonical :
  ∀ a b, serializer a = serializer b → fn a = fn b.

Lemma create_sound : cache_sound create.
Proof. intros args v. unfold create. by rewrite lookup_empty. Qed.

Lemma set_evicts key value (this : MemoizeCache) :
  (MEMOIZE_CACHE_CLEAR_THRESHOLD < size this)%nat →
  set key value this = {[key := value]}.
Proof. intros Hsz. unfold set. by rewrite decide_True. Qed.

Lemma set_keeps key value (this : MemoizeCache) :
  (size this ≤ MEMOIZE_CACHE_CLEAR_THRESHOLD)%nat →
  set key value this = <[key := value]> this.
Proof. intros Hsz. unfold set. by rewrite decide_False by lia. Qed.

Lemma set_sound args (this : MemoizeCache) :
  cache_sound this → cache_sound (set (serializer args) (fn args) this).
Proof.
  intros Hthis b v. unfold set.
  destruct (decide (serializer args = serializer b)) as [Heq|Hne].
  - rewrite <- Heq, lookup_insert_eq. intros [= <-]. by apply serializer_canonical.
  - rewrite lookup_insert_ne by done. case_decide.
    + by rewrite lookup_empty.
    + apply Hthis.
Qed.

Lemma memoize_sound args cache :
  cache_sound cache →
  (memoize args cache).1 = fn args ∧ cache_sound (memoize args cache).2.
Proof.
  intros Hc. unfold memoize, fastMemoize, get.
  destruct (cache !! serializer args) as [v|] eqn:Hv; simpl.
  - split; [by apply Hc | done].
  - split; [done | by apply set_sound].
Qed.

Lemma cache_after_snoc calls args :
  cache_after (calls ++ [args]) = (memoize args (cache_after calls)).2.
Proof. unfold cache_after. by rewrite foldl_app. Qed.

Lemma cache_after_sound calls : cache_sound (cache_after calls).
Proof.
  induction calls as [|args calls IH] using rev_ind.
  - apply create_sound.
  - rewrite cache_after_snoc. by apply memoize_sound.
Qed.

(** Whatever was called before, a call returns the result of [fn]. *)
Lemma memoize_result calls args :
  (memoize args (cache_after calls)).1 = fn args.
Proof. apply memoize_sound, cache_after_sound. Qed.

(** C8, amended: when arguments with one serialization have one result
    ([serializer_canonical]), the memoized function returns what the wrapped
    function returns, for every argument and every cache its calls can have
    produced, the call that evicts and the calls after it included; [set]
    evicts exactly when the cache holds more than
    [MEMOIZE_CACHE_CLEAR_THRESHOLD] keys, and then drops every earlier entry
    at once, leaving only the entry being stored. *)
Theorem memoize_transparent (calls : list Args) (args : Args) :
  let cache := cache_after calls in
  (memoize args cache).1 = fn args
  ∧ (∀ next, (memoize next (memoize args cache).2).1 = fn next)
  ∧ (∀ key value (this : MemoizeCache),
       (MEMOIZE_CACHE_CLEAR_THRESHOLD < size this)%nat →
       set key value this = <[key := value]> ∅
       ∧ ∀ other, other ≠ key → set key value this !! other = None)
  ∧ (∀ key value (this : MemoizeCache),
       (size this ≤ MEMOIZE_CACHE_CLEAR_THRESHOLD)%nat →
       set key value this = <[key := value]> this)
  ∧ ((MEMOIZE_CACHE_CLEAR_THRESHOLD < size cache)%nat →
     cache !! serializer args = None →
     memoize args cache = (fn args, {[serializer args := fn args]})).
Proof.
  intros cache.
  pose proof (cache_after_sound calls) as Hsound. fold cache in Hsound.
  destruct (memoize_sound args cache Hsound) as [Hres Hnext].
  split; [exact Hres|]. split; [|split; [|split]].
  - intros next. by apply memoize_sound.
  - intros key value this Hsz. rewrite set_evicts by done. split; [done|].
    intros other Hne. by rewrite lookup_singleton_ne.
  - apply set_keeps.
  - intros Hsz Hmiss. unfold memoize, fastMemoize, get. rewrite Hmiss.
    by rewrite set_evicts.
Qed.

End WithFunction.

(** A JavaScript value as far as [memoizationSerializer] tells values apart.
    A function has a source text ([toString]) and a behaviour; the text does
    not fix the behaviour, which for a closure also depends on the variables
    it captured. *)
Inductive value : Type :=
| VNumber (n : Q)
| VString (s : string)
| VFunction (source : string) (call : Q → Q).

(** What is left to [JSON.stringify] once the functions are replaced. *)
Inductive plain : Type :=
| PNumber (n : Q)
| PString (s : string).

(** [arg => typeof arg === 'function' ? arg.toString() : arg] *)
Definition replace_function (arg : value) : plain :=
  match arg with
  | VNumber n => PNumber n
  | VString s => PString s
  | VFunction source _ => PString source
  end.

(** [memoizationSerializer]: [JSON.stringify] of the argument list in which
    every function is replaced by its source text.  [JSON.stringify] itself
    is a parameter: nothing below depends on the text it produces. *)
Definition memoizationSerializer (JSON_stringify : list plain → string)
    (args : list value) : string :=
  JSON_stringify (replace_function <$> args).

(** C8 as it is stated, for one wrapped function and one serializer: whatever
    was called before, the memoized function returns what the wrapped
    function returns. *)
Definition never_changes_behavior {Args R}
    (MEMOIZE_CACHE_CLEAR_THRESHOLD : nat) (fn : Args → R)
    (serializer : Args → string) : Prop :=
  ∀ (calls : list Args) (args : Args),
    (memoize MEMOIZE_CACHE_CLEAR_THRESHOLD fn serializer args
       (cache_after MEMOIZE_CACHE_CLEAR_THRESHOLD fn serializer calls)).1
    = fn args.

(** A pure function of one callback, which it calls at 0, and the closures
    that [n => x => x + n] returns: one source text for every [n]. *)
Definition call_at_zero (args : list value) : Q :=
  match args with
  | [VFunction _ call] => call 0%Q
  | _ => 0%Q
  end.

Definition add_n (n : Q) : value := VFunction "x => x + n" (λ x, x + n)%Q.

(** With [memoizationSerializer] the two closures [add_n 1] and [add_n 2]
    have one key, so after a call with the first the call with the second is
    answered from the cache: 1 instead of 2.  This holds for every threshold
    and whatever text [JSON.stringify] produces. *)
Lemma memoize_closure_counterexample :
  ¬ ∃ (JSON_stringify : list plain → string) (THRESHOLD : nat),
      never_changes_behavior THRESHOLD call_at_zero
        (memoizationSerializer JSON_stringify).
Proof.
  intros (JSON_stringify & THRESHOLD & Hclaim).
  specialize (Hclaim [[add_n 1]] [add_n 2]).
  unfold memoize, fastMemoize, cache_after, memoize, fastMemoize, get, set,
    create, memoizationSerializer in Hclaim.
  simpl in Hclaim. rewrite lookup_empty in Hclaim. simpl in Hclaim.
  rewrite lookup_insert_eq in Hclaim. simpl in Hclaim.
  vm_compute in Hclaim. discriminate Hclaim.
Qed.

(** A memoized successor function with a threshold of one key: the third
    distinct argument evicts the first two. *)
Example cache_after_eviction :
  cache_after 1 Z.succ pretty [0; 1; 2] = {[ "2"%string := 3 ]}.
Proof. apply map_eq. intros k. vm_compute. reflexivity. Qed.

Lemma memoize_transparent_witness :
  (memoize 1 Z.succ pretty 0 (cache_after 1 Z.succ pretty [0; 1; 2])).1 = 1.
Proof.
  refine (proj1 (memoize_transparent 1 Z.succ pretty _ [0; 1; 2] 0)).
  intros a b Hab. f_equal. exact (pretty_Z_inj a b Hab).
Defined.

End Memoize.

(** ** Enumerations and catalog records ([enums.js], [data/items]) *)

Inductive cropLifeStage : Type := SEED | GROWING | GROWN.

Inductive itemType : Type := CROP | MILK | OTHER_TYPE (name : string).

Inductive gender : Type := MALE | FEMALE.

#[global] Instance cropLifeStage_eq_dec : EqDecision cropLifeStage.
Proof. solve_decision. Defined.

#[global] Instance gender_eq_dec : EqDecision gender.
Proof. solve_decision. Defined.

(** [cropTimetable]: the number of watered days spent in each timed stage. *)
Record cropTimetable : Type := {
  tt_SEED : nat;
  tt_GROWING : nat;
}.

(** [cropTimetable[stage]] for the two stages the code reads. *)
Definition timetable_days (tt : cropTimetable) (stage : cropLifeStage) : nat :=
  match stage with
  | SEED => tt_SEED tt
  | GROWING => tt_GROWING tt
  | GROWN => 0
  end.

Record item : Type := {
  item_id : string;
  item_type : itemType;
  item_value : Q;
  item_doesPriceFluctuate : bool;
  item_cropTimetable : option cropTimetable;
}.

(** [farmhand.crop] *)
Record crop : Type := {
  crop_itemId : string;
  daysOld : Q;
  daysWatered : Q;
  isFertilized : bool;
  wasWateredToday : bool;
}.

(** ** Crop life stages *)

Module Crop.
Section WithCatalog.

(** [itemsMap] of [data/maps], which is not among the sources. *)
Variable itemsMap : object item.

(** [getLifeStageRange]: the reduce over [[SEED, GROWING]]; [Array(n).fill(stage)]
    is [replicate n stage].  The function is wrapped by [memoize], which
    leaves the results of a pure function as they are
    ([getLifeStageRange_memoized] below), so the wrapped function stands for
    it. *)
Definition getLifeStageRange (tt : cropTimetable) : list cropLifeStage :=
  foldl (λ acc stage, acc ++ replicate (timetable_days tt stage) stage)
        [] [SEED; GROWING].

(** [getCropLifeStage].  Every stage name is truthy, so [x || GROWN] is
    [GROWN] exactly when the table has no entry at the index.  [None] is the
    [TypeError] of reading a property of [undefined] (an id outside the
    catalog, or an item without a timetable). *)
Definition getCropLifeStage (c : crop) : option cropLifeStage :=
  it ← JS.get itemsMap (crop_itemId c);
  tt ← item_cropTimetable it;
  Some (default GROWN
          (array_get (getLifeStageRange tt) (Math_floor (daysWatered c)))).

(** The stage table as the specification describes it. *)
Definition stageTable (tt : cropTimetable) : list cropLifeStage :=
  replicate (tt_SEED tt) SEED ++ replicate (tt_GROWING tt) GROWING.

Definition with_daysOld (d : Q) (c : crop) : crop :=
  {| crop_itemId := crop_itemId c; daysOld := d; daysWatered := daysWatered c;
     isFertilized := isFertilized c; wasWateredToday := wasWateredToday c |}.

Lemma getLifeStageRange_memoized (threshold : nat)
    (serializer : cropTimetable → string) (calls : list cropTimetable) tt :
  (∀ a b, serializer a = serializer b → a = b) →
  (Memoize.memoize threshold getLifeStageRange serializer tt
     (Memoize.cache_after threshold getLifeStageRange serializer calls)).1
  = getLifeStageRange tt.
Proof.
  intros Hinj. apply Memoize.memoize_result.
  intros a b Hab. f_equal. by apply Hinj.
Qed.

Lemma getLifeStageRange_stageTable tt : getLifeStageRange tt = stageTable tt.
Proof. reflexivity. Qed.

Lemma stageTable_length tt :
  length (stageTable tt) = (tt_SEED tt + tt_GROWING tt)%nat.
Proof. unfold stageTable. by rewrite length_app, !length_replicate. Qed.

Lemma stageTable_lookup_SEED tt (n : nat) :
  (n < tt_SEED tt)%nat → stageTable tt !! n = Some SEED.
Proof.
  intros Hn. unfold stageTable.
  rewrite lookup_app_l by (by rewrite length_replicate).
  by apply lookup_replicate_2.
Qed.

Lemma stageTable_lookup_GROWING tt (n : nat) :
  (tt_SEED tt ≤ n < tt_SEED tt + tt_GROWING tt)%nat →
  stageTable tt !! n = Some GROWING.
Proof.
  intros Hn. unfold stageTable.
  rewrite lookup_app_r by (rewrite length_replicate; lia).
  rewrite length_replicate. apply lookup_replicate_2. lia.
Qed.

Lemma stageTable_lookup_ge tt (n : nat) :
  (tt_SEED tt + tt_GROWING tt ≤ n)%nat → stageTable tt !! n = None.
Proof. intros Hn. apply lookup_ge_None. by rewrite stageTable_length. Qed.

(** The stage of a catalog crop, as a function of the table index. *)
Lemma getCropLifeStage_unfold c it tt :
  JS.get itemsMap (crop_itemId c) = Some it →
  item_cropTimetable it = Some tt →
  getCropLifeStage c =
    Some (default GROWN (array_get (stageTable tt) (Qfloor (daysWatered c)))).
Proof. intros Hit Htt. unfold getCropLifeStage. by rewrite Hit; simpl; rewrite Htt. Qed.

Lemma getCropLifeStage_index c it tt (n : nat) :
  JS.get itemsMap (crop_itemId c) = Some it →
  item_cropTimetable it = Some tt →
  Qfloor (daysWatered c) = Z.of_nat n →
  getCropLifeStage c = Some (default GROWN (stageTable tt !! n)).
Proof.
  intros Hit Htt Hn. rewrite (getCropLifeStage_unfold c it tt Hit Htt).
  unfold array_get. rewrite Hn, Nat2Z.id.
  by rewrite decide_True by lia.
Qed.

(** C1: for a crop of the catalog, [getCropLifeStage] is the entry at index
    [floor daysWatered] of the table made of [SEED] repeated [timetable[SEED]]
    times followed by [GROWING] repeated [timetable[GROWING]] times, and is
    [GROWN] from the table's length on.  For the timetable [{SEED: 3,
    GROWING: 4}] indices 0..2 give [SEED], 3..6 give [GROWING], 7 and more
    give [GROWN]; a crop with [daysWatered = 0] is [SEED] whatever its
    [daysOld] (for that timetable, and for any timetable with a seed day). *)
Theorem getCropLifeStage_stage_table (c : crop) (it : item) (tt : cropTimetable) :
  JS.get itemsMap (crop_itemId c) = Some it →
  item_cropTimetable it = Some tt →
  let i := Qfloor (daysWatered c) in
  getLifeStageRange tt
    = replicate (tt_SEED tt) SEED ++ replicate (tt_GROWING tt) GROWING
  ∧ (∀ s, 0 ≤ i → getLifeStageRange tt !! Z.to_nat i = Some s →
          getCropLifeStage c = Some s)
  ∧ (Z.of_nat (length (getLifeStageRange tt)) ≤ i →
     getCropLifeStage c = Some GROWN)
  ∧ (tt = {| tt_SEED := 3; tt_GROWING := 4 |} →
       (0 ≤ i < 3 → getCropLifeStage c = Some SEED)
     ∧ (3 ≤ i < 7 → getCropLifeStage c = Some GROWING)
     ∧ (7 ≤ i → getCropLifeStage c = Some GROWN)
     ∧ ((daysWatered c == 0)%Q →
        ∀ d, getCropLifeStage (with_daysOld d c) = Some SEED))
  ∧ ((0 < tt_SEED tt)%nat → (daysWatered c == 0)%Q →
     ∀ d, getCropLifeStage (with_daysOld d c) = Some SEED).
Proof.
  intros Hit Htt i.
  assert (Hidx : ∀ n : nat, i = Z.of_nat n →
            getCropLifeStage c = Some (default GROWN (stageTable tt !! n))).
  { intros n Hn. by apply (getCropLifeStage_index c it tt n). }
  assert (Hzero : (0 < tt_SEED tt)%nat → (daysWatered c == 0)%Q →
            ∀ d, getCropLifeStage (with_daysOld d c) = Some SEED).
  { intros Hseed Hz d.
    rewrite (getCropLifeStage_index (with_daysOld d c) it tt 0%nat Hit Htt).
    - by rewrite stageTable_lookup_SEED.
    - simpl. by rewrite Hz. }
  split; [reflexivity|]. split; [|split; [|split]].
  - intros s Hi Hs. rewrite (Hidx (Z.to_nat i)) by lia.
    rewrite getLifeStageRange_stageTable in Hs. by rewrite Hs.
  - intros Hlen. rewrite getLifeStageRange_stageTable, stageTable_length in Hlen.
    rewrite (Hidx (Z.to_nat i)) by lia.
    rewrite stageTable_lookup_ge by lia. done.
  - intros ->. repeat split.
    + intros Hi. rewrite (Hidx (Z.to_nat i)) by lia.
      rewrite stageTable_lookup_SEED; [done | simpl; lia].
    + intros Hi. rewrite (Hidx (Z.to_nat i)) by lia.
      rewrite stageTable_lookup_GROWING; [done | simpl; lia].
    + intros Hi. rewrite (Hidx (Z.to_nat i)) by lia.
      rewrite stageTable_lookup_ge; [done | simpl; lia].
    + apply Hzero. simpl. lia.
  - exact Hzero.
Qed.

End WithCatalog.

(** A catalog with one crop whose timetable is [{SEED: 3, GROWING: 4}]. *)
Definition sample_timetable : cropTimetable := {| tt_SEED := 3; tt_GROWING := 4 |}.

Definition sample_crop_item : item :=
  {| item_id := "sample-crop-1"; item_type := CROP; item_value := 3;
     item_doesPriceFluctuate := true;
     item_cropTimetable := Some sample_timetable |}.

Definition sample_itemsMap : object item := [("sample-crop-1"%string, sample_crop_item)].

Definition sample_crop (watered : Q) : crop :=
  {| crop_itemId := "sample-crop-1"; daysOld := 9; daysWatered := watered;
     isFertilized := false; wasWateredToday := false |}.

Example getCropLifeStage_seed :
  getCropLifeStage sample_itemsMap (sample_crop (5 # 2)) = Some SEED.
Proof. reflexivity. Qed.

Example getCropLifeStage_growing :
  getCropLifeStage sample_itemsMap (sample_crop (13 # 2)) = Some GROWING.
Proof. reflexivity. Qed.

Example getCropLifeStage_grown :
  getCropLifeStage sample_itemsMap (sample_crop 7) = Some GROWN.
Proof. reflexivity. Qed.

(** A timetable without seed days starts at [GROWING]. *)
Example getCropLifeStage_no_seed_days :
  getCropLifeStage
    [("sprout"%string,
      {| item_id := "sprout"; item_type := CROP; item_value := 1;
         item_doesPriceFluctuate := false;
         item_cropTimetable := Some {| tt_SEED := 0; tt_GROWING := 4 |} |})]
    {| crop_itemId := "sprout"; daysOld := 3; daysWatered := 0;
       isFertilized := false; wasWateredToday := false |}
  = Some GROWING.
Proof. reflexivity. Qed.

Lemma getCropLifeStage_stage_table_witness :
  getCropLifeStage sample_itemsMap (sample_crop (13 # 2)) = Some GROWING.
Proof.
  apply (getCropLifeStage_stage_table sample_itemsMap (sample_crop (13 # 2))
           sample_crop_item sample_timetable eq_refl eq_refl).
  - reflexivity.
  - vm_compute. split; [discriminate | reflexivity].
Defined.

End Crop.

(** ** Randomness *)

Module Random.

(** The samples [Math.random] will return, in order. *)
Definition entropy : Type := nat → Q.

(** [Math.random] returns a number in [[0, 1)]. *)
Definition unit_interval (e : entropy) : Prop := ∀ n, (0 <= e n < 1)%Q.

(** A computation that draws samples. *)
Definition Rand (A : Type) : Type := entropy → A * entropy.

#[global] Instance Rand_ret : MRet Rand := λ A a e, (a, e).
#[global] Instance Rand_bind : MBind Rand :=
  λ A B f m e, let '(a, e') := m e in f a e'.

Definition Math_random : Rand Q := λ e, (e 0%nat, λ n, e (S n)).

(** [list.reduce(f, acc)] for a callback that draws samples. *)
Fixpoint reduce {A B} (f : B → A → Rand B) (l : list A) (acc : B) : Rand B :=
  match l with
  | [] => mret acc
  | x :: rest => acc' ← f acc x; reduce f rest acc'
  end.

Lemma unit_interval_tail e : unit_interval e → unit_interval (λ n, e (S n)).
Proof. intros He n. apply He. Qed.

Lemma Math_random_range e :
  unit_interval e →
  (0 <= (Math_random e).1 < 1)%Q ∧ unit_interval (Math_random e).2.
Proof. intros He. split; [apply He | by apply unit_interval_tail]. Qed.

End Random.
Import Random.

(** ** Market value adjustments *)

(** [farmhand.priceEvent] *)
Record priceEvent : Type := {
  pe_itemId : string;
  pe_daysRemaining : Z;
}.

Module Market.
Section WithCatalog.

Variable itemsMap : object item.

(** The callback of the reduce in [generateValueAdjustments].  A price event
    is an object, hence truthy: [priceCrashes[key]] holds exactly when the map
    has an event under [key].  A key listed by [Object.keys] always has its
    property, the last branch is never taken.  [Math.random() + 0.5] is a sum
    of doubles, rounded to a double. *)
Definition adjust (priceCrashes priceSurges : gmap string priceEvent)
    (acc : gmap string Q) (key : string) : Rand (gmap string Q) :=
  match JS.get itemsMap key with
  | Some it =>
      if item_doesPriceFluctuate it then
        if bool_decide (is_Some (priceCrashes !! key)) then
          mret (<[key := 1 # 2]> acc)
        else if bool_decide (is_Some (priceSurges !! key)) then
          mret (<[key := 3 # 2]> acc)
        else
          r ← Math_random; mret (<[key := binary64 (r + (1 # 2))]> acc)
      else mret acc
  | None => mret acc
  end.

Definition generateValueAdjustments
    (priceCrashes priceSurges : gmap string priceEvent) : Rand (gmap string Q) :=
  reduce (adjust priceCrashes priceSurges) (Object_keys itemsMap) ∅.

(** The catalog flags the item under [key] as price-fluctuating. *)
Definition fluctuates (key : string) : Prop :=
  ∃ it, JS.get itemsMap key = Some it ∧ item_doesPriceFluctuate it = true.

(** What the adjustment of a fluctuating item must be. *)
Definition adjustment_ok (priceCrashes priceSurges : gmap string priceEvent)
    (key : string) (v : Q) : Prop :=
  (is_Some (priceCrashes !! key) → v = 1 # 2)
  ∧ (priceCrashes !! key = None → is_Some (priceSurges !! key) → v = 3 # 2)
  ∧ (priceCrashes !! key = None → priceSurges !! key = None →
     (1 # 2 <= v <= 3 # 2)%Q).

(** The keys for which the callback draws a sample, and the number of
    samples drawn before the reduce reaches [key]. *)
Definition draws (priceCrashes priceSurges : gmap string priceEvent)
    (key : string) : bool :=
  match JS.get itemsMap key with
  | Some it =>
      item_doesPriceFluctuate it
      && negb (bool_decide (is_Some (priceCrashes !! key)))
      && negb (bool_decide (is_Some (priceSurges !! key)))
  | None => false
  end.

Fixpoint draws_before (priceCrashes priceSurges : gmap string priceEvent)
    (key : string) (keys : list string) : nat :=
  match keys with
  | [] => 0
  | k :: rest =>
      if decide (k = key) then 0%nat
      else ((if draws priceCrashes priceSurges k then 1 else 0)
            + draws_before priceCrashes priceSurges key rest)%nat
  end.

Section Reduce.

Variables priceCrashes priceSurges : gmap string priceEvent.

(** Invariant of the reduce: the accumulator holds acceptable adjustments of
    fluctuating items, and misses no fluctuating key among those visited. *)
Definition adjusted (seen : list string) (acc : gmap string Q) : Prop :=
  ∀ k, match acc !! k with
       | Some v => fluctuates k ∧ adjustment_ok priceCrashes priceSurges k v
       | None => k ∉ seen ∨ ¬ fluctuates k
       end.

Lemma adjusted_insert seen acc key v :
  adjusted seen acc → fluctuates key →
  adjustment_ok priceCrashes priceSurges key v →
  adjusted (key :: seen) (<[key := v]> acc).
Proof.
  intros Hacc Hfl Hok k. destruct (decide (key = k)) as [<-|Hne].
  - by rewrite lookup_insert_eq.
  - rewrite lookup_insert_ne by done. specialize (Hacc k).
    destruct (acc !! k); [done|].
    destruct Hacc as [Hk|Hk]; [left | by right].
    rewrite elem_of_cons. intros [?|?]; congruence.
Qed.

Lemma adjusted_skip seen acc key :
  adjusted seen acc → ¬ fluctuates key → adjusted (key :: seen) acc.
Proof.
  intros Hacc Hfl k. specialize (Hacc k). destruct (acc !! k); [done|].
  destruct Hacc as [Hk|Hk]; [|by right].
  destruct (decide (k = key)) as [->|Hne]; [by right|].
  left. rewrite elem_of_cons. intros [?|?]; congruence.
Qed.

Lemma adjust_adjusted seen acc key e :
  adjusted seen acc → unit_interval e →
  adjusted (key :: seen) (adjust priceCrashes priceSurges acc key e).1
  ∧ unit_interval (adjust priceCrashes priceSurges acc key e).2.
Proof.
  intros Hacc He. unfold adjust.
  destruct (JS.get itemsMap key) as [it|] eqn:Hit.
  - destruct (item_doesPriceFluctuate it) eqn:Hflag.
    + assert (fluctuates key) as Hfl by (by exists it).
      case_bool_decide as Hcrash; [|case_bool_decide as Hsurge].
      * split; [|done]. apply adjusted_insert; [done..|].
        split; [done|]. destruct Hcrash as [? Hc].
        split; intros Hn; by rewrite Hn in Hc.
      * split; [|done]. apply adjusted_insert; [done..|].
        split; [done|]. split; [done|]. destruct Hsurge as [? Hs].
        intros _ Hn. by rewrite Hn in Hs.
      * destruct (Math_random_range e He) as [Hr He'].
        split; [|exact He']. apply adjusted_insert; [done..|].
        split; [done|]. split; [done|]. intros _ _.
        change (Math_random e).1 with (e 0%nat) in *.
        apply binary64_between; [vm_compute; reflexivity..|]. lra.
    + split; [|done]. apply adjusted_skip; [done|].
      intros (it' & Hit' & Hflag'). congruence.
  - split; [|done]. apply adjusted_skip; [done|].
    intros (it' & Hit' & _). congruence.
Qed.

Lemma reduce_adjusted keys : ∀ seen acc e,
  adjusted seen acc → unit_interval e →
  adjusted (rev keys ++ seen)
    (reduce (adjust priceCrashes priceSurges) keys acc e).1.
Proof.
  induction keys as [|key keys IH]; intros seen acc e Hacc He; [done|].
  simpl. unfold mbind, Rand_bind.
  destruct (adjust_adjusted seen acc key e Hacc He) as [Hacc' He'].
  destruct (adjust priceCrashes priceSurges acc key e) as [acc' e'].
  rewrite <- app_assoc. by apply IH.
Qed.

(** What one step does to the entry of [key] and to the stream. *)
Lemma adjust_step acc k e :
  (adjust priceCrashes priceSurges acc k e).2
  = (if draws priceCrashes priceSurges k then λ n, e (S n) else e)
  ∧ (∀ key, key ≠ k →
       (adjust priceCrashes priceSurges acc k e).1 !! key = acc !! key)
  ∧ (draws priceCrashes priceSurges k = true →
     (adjust priceCrashes priceSurges acc k e).1 !! k
     = Some (binary64 (e 0%nat + (1 # 2)))).
Proof.
  unfold adjust, draws.
  destruct (JS.get itemsMap k) as [it|]; [|done].
  destruct (item_doesPriceFluctuate it); [|done].
  destruct (bool_decide (is_Some (priceCrashes !! k))); simpl.
  { split; [done|]. split; [|done]. intros key Hne.
    by rewrite lookup_insert_ne. }
  destruct (bool_decide (is_Some (priceSurges !! k))); simpl.
  { split; [done|]. split; [|done]. intros key Hne.
    by rewrite lookup_insert_ne. }
  split; [done|]. split.
  - intros key Hne. by rewrite lookup_insert_ne.
  - intros _. by rewrite lookup_insert_eq.
Qed.

Lemma reduce_untouched keys : ∀ acc e key,
  key ∉ keys →
  (reduce (adjust priceCrashes priceSurges) keys acc e).1 !! key = acc !! key.
Proof.
  induction keys as [|k keys IH]; intros acc e key Hkey; [done|].
  apply not_elem_of_cons in Hkey as [Hne Hkey].
  simpl. unfold mbind, Rand_bind.
  destruct (adjust_step acc k e) as (_ & Hother & _).
  destruct (adjust priceCrashes priceSurges acc k e) as [acc' e'].
  rewrite IH by done. by apply Hother.
Qed.

(** The entry of a key that draws is made from the sample whose index is the
    number of draws before it. *)
Lemma reduce_sample keys : ∀ acc e key,
  NoDup keys → key ∈ keys → draws priceCrashes priceSurges key = true →
  (reduce (adjust priceCrashes priceSurges) keys acc e).1 !! key
  = Some (binary64
            (e (draws_before priceCrashes priceSurges key keys) + (1 # 2))).
Proof.
  induction keys as [|k keys IH]; intros acc e key Hdup Hkey Hdraws.
  { by apply elem_of_nil in Hkey. }
  apply NoDup_cons in Hdup as [Hk Hdup].
  simpl. unfold mbind, Rand_bind.
  destruct (adjust_step acc k e) as (Hstream & Hother & Hthis).
  destruct (adjust priceCrashes priceSurges acc k e) as [acc' e'].
  simpl in Hstream, Hother, Hthis.
  destruct (decide (k = key)) as [->|Hne].
  - rewrite reduce_untouched by done. by apply Hthis.
  - apply elem_of_cons in Hkey as [?|Hkey]; [congruence|].
    rewrite (IH acc' e' key Hdup Hkey Hdraws). subst e'.
    by destruct (draws priceCrashes priceSurges k).
Qed.

End Reduce.

Lemma get_Some_keys {V} (o : object V) key v :
  JS.get o key = Some v → key ∈ Object_keys o.
Proof.
  induction o as [|[k w] o IH]; [done|]. simpl. case_decide as Hk.
  - intros _. subst. apply elem_of_cons. by left.
  - intros Hget. apply elem_of_cons. right. by apply IH.
Qed.

(** C2, amended: the map returned by [generateValueAdjustments] has an entry
    exactly for the catalog items flagged [doesPriceFluctuate]; that entry is
    0.5 when a crash targets the item (also when a surge does too), else 1.5
    when a surge targets it, else the double nearest to the drawn sample plus
    0.5, a value [v] with 0.5 <= v <= 1.5; the sample is the one drawn after
    those of the earlier keys that draw; every other key is absent. *)
Theorem generateValueAdjustments_exact
    (priceCrashes priceSurges : gmap string priceEvent) (e : entropy)
    (key : string) :
  unit_interval e →
  let adjustments := (generateValueAdjustments priceCrashes priceSurges e).1 in
  (fluctuates key →
     ∃ v, adjustments !! key = Some v
        ∧ (is_Some (priceCrashes !! key) → v = 1 # 2)
        ∧ (priceCrashes !! key = None → is_Some (priceSurges !! key) →
           v = 3 # 2)
        ∧ (priceCrashes !! key = None → priceSurges !! key = None →
           (1 # 2 <= v <= 3 # 2)%Q
           ∧ (NoDup (Object_keys itemsMap) →
              v = binary64
                    (e (draws_before priceCrashes priceSurges key
                          (Object_keys itemsMap)) + (1 # 2)))))
  ∧ (¬ fluctuates key → adjustments !! key = None).
Proof.
  intros He adjustments.
  assert (Hinv : adjusted priceCrashes priceSurges
                   (rev (Object_keys itemsMap) ++ []) adjustments).
  { apply reduce_adjusted; [|done]. intros k. rewrite lookup_empty.
    left. apply not_elem_of_nil. }
  specialize (Hinv key). split.
  - intros Hfl.
    assert (key ∈ Object_keys itemsMap) as Hkey.
    { destruct Hfl as (it & Hit & _). by eapply get_Some_keys. }
    destruct (adjustments !! key) as [v|] eqn:Hv.
    + exists v. split; [done|].
      destruct Hinv as (_ & Hcrash & Hsurge & Hsample).
      split; [exact Hcrash|]. split; [exact Hsurge|].
      intros Hc Hs. split; [by apply Hsample|]. intros Hdup.
      assert (draws priceCrashes priceSurges key = true) as Hdraws.
      { unfold draws. destruct Hfl as (it & -> & ->).
        rewrite !bool_decide_eq_false_2; [done|..];
          rewrite <- eq_None_not_Some; done. }
      pose proof (reduce_sample priceCrashes priceSurges
                    (Object_keys itemsMap) ∅ e key Hdup Hkey Hdraws) as Hidx.
      fold (generateValueAdjustments priceCrashes priceSurges) in Hidx.
      fold adjustments in Hidx. congruence.
    + destruct Hinv as [Hseen|Hnot]; [|done]. exfalso. apply Hseen.
      by rewrite app_nil_r, list_elem_of_In, <- in_rev, <- list_elem_of_In.
  - intros Hnot. destruct (adjustments !! key) as [v|]; [|done].
    by destruct Hinv.
Qed.

End WithCatalog.

(** A catalog of two fluctuating crops and a tool whose price is fixed. *)
Definition market_item (id : string) (fluctuating : bool) : item :=
  {| item_id := id; item_type := CROP; item_value := 10;
     item_doesPriceFluctuate := fluctuating; item_cropTimetable := None |}.

Definition market_itemsMap : object item :=
  [("carrot"%string, market_item "carrot" true);
   ("scarecrow"%string, market_item "scarecrow" false);
   ("pumpkin"%string, market_item "pumpkin" true);
   ("corn"%string, market_item "corn" true)].

Definition event (id : string) : priceEvent :=
  {| pe_itemId := id; pe_daysRemaining := 3 |}.

Definition quarter : entropy := λ _, 1 # 4.

Lemma quarter_unit_interval : unit_interval quarter.
Proof. intros n. unfold quarter. lra. Qed.

(** A crash and a surge on the carrot, a surge on the pumpkin, nothing on the
    corn. *)
Example generateValueAdjustments_sample :
  (generateValueAdjustments market_itemsMap
     {[ "carrot"%string := event "carrot" ]}
     {[ "carrot"%string := event "carrot"; "pumpkin"%string := event "pumpkin" ]}
     quarter).1
  = {[ "carrot"%string := 1 # 2; "pumpkin"%string := 3 # 2;
       "corn"%string := binary64 ((1 # 4) + (1 # 2)) ]}.
Proof. apply map_eq. intros k. vm_compute. reflexivity. Qed.

(** The largest double below 1, a sample that [Math.random] may return. *)
Definition top_sample : Q := (1 - pow2 (-53))%Q.

(** A stream whose third sample is the largest one. *)
Definition top : entropy := λ n, if decide (n = 2%nat) then top_sample else 1 # 4.

Lemma top_unit_interval : unit_interval top.
Proof.
  intros n. unfold top. destruct (decide (n = 2%nat));
    split; vm_compute; (discriminate || reflexivity).
Qed.

Example top_sample_double :
  representable top_sample ∧ agrees 0x1.fffffffffffffp-1%float top_sample = true.
Proof. split; vm_compute; reflexivity. Qed.

(** C2 as it is stated, for a fluctuating key that no event targets: the
    entry is a value from 0.5 up to, but excluding, 1.5. *)
Definition sampled_below_surge (itemsMap : object item)
    (priceCrashes priceSurges : gmap string priceEvent) (e : entropy)
    (key : string) : Prop :=
  unit_interval e → fluctuates itemsMap key →
  priceCrashes !! key = None → priceSurges !! key = None →
  ∃ v, (generateValueAdjustments itemsMap priceCrashes priceSurges e).1 !! key
       = Some v
     ∧ (1 # 2 <= v < 3 # 2)%Q.

(** The corn is the third key that draws.  With the largest sample the sum
    [sample + 0.5] lies halfway between 1.5 and the double below it, and is
    rounded to 1.5, the value of a surge. *)
Lemma generateValueAdjustments_upper_bound_counterexample :
  ¬ sampled_below_surge market_itemsMap ∅ ∅ top "corn".
Proof.
  intros Hclaim.
  destruct (Hclaim top_unit_interval) as (v & Hv & _ & Hlt); [|done..|].
  { exists (market_item "corn" true). by split. }
  vm_compute in Hv. injection Hv as <-. vm_compute in Hlt. discriminate Hlt.
Qed.

Example generateValueAdjustments_top :
  ∃ v, (generateValueAdjustments market_itemsMap ∅ ∅ top).1 !! "corn"%string
       = Some v
     ∧ (v == 3 # 2)%Q.
Proof. eexists. split; [vm_compute; reflexivity | vm_compute; reflexivity]. Qed.

Lemma generateValueAdjustments_exact_witness :
  (generateValueAdjustments market_itemsMap
     {[ "carrot"%string := event "carrot" ]} ∅ quarter).1 !! "scarecrow"%string
  = None.
Proof.
  refine (proj2 (generateValueAdjustments_exact market_itemsMap
                   {[ "carrot"%string := event "carrot" ]} ∅ quarter
                   "scarecrow" quarter_unit_interval) _).
  intros (it & Hit & Hflag). vm_compute in Hit.
  injection Hit as <-. discriminate Hflag.
Defined.

End Market.

(** ** Numeric helpers of [utils.js] *)

(** [clampNumber]: [num <= min ? min : num >= max ? max : num]. *)
Definition clampNumber (num min max : Q) : Q :=
  if Qle_bool num min then min else if Qle_bool max num then max else num.

(** [scaleNumber]: [((value - min) * (baseMax - baseMin)) / (max - min) + baseMin],
    in exact arithmetic; [Rounded.scaleNumber] rounds every operation. *)
Definition scaleNumber (value min max baseMin baseMax : Q) : Q :=
  ((value - min) * (baseMax - baseMin) / (max - min) + baseMin)%Q.

Lemma clampNumber_range num min max :
  (min <= max)%Q → (min <= clampNumber num min max <= max)%Q.
Proof.
  intros Hmm. unfold clampNumber.
  destruct (Qle_bool num min) eqn:H1; [lra|].
  destruct (Qle_bool max num) eqn:H2; [lra|].
  assert (¬ (num <= min)%Q) by (rewrite <- Qle_bool_iff; congruence).
  assert (¬ (max <= num)%Q) by (rewrite <- Qle_bool_iff; congruence).
  lra.
Qed.

Lemma clampNumber_below num min max :
  (num <= min)%Q → clampNumber num min max = min.
Proof.
  intros H. unfold clampNumber.
  by rewrite (proj2 (Qle_bool_iff num min) H).
Qed.

Lemma clampNumber_above num min max :
  (min < num)%Q → (max <= num)%Q → clampNumber num min max = max.
Proof.
  intros H1 H2. unfold clampNumber.
  destruct (Qle_bool num min) eqn:E.
  - apply Qle_bool_iff in E. lra.
  - by rewrite (proj2 (Qle_bool_iff max num) H2).
Qed.

Lemma clampNumber_inside num min max :
  (min < num)%Q → (num < max)%Q → clampNumber num min max = num.
Proof.
  intros H1 H2. unfold clampNumber.
  destruct (Qle_bool num min) eqn:E1.
  { apply Qle_bool_iff in E1. lra. }
  destruct (Qle_bool max num) eqn:E2.
  { apply Qle_bool_iff in E2. lra. }
  done.
Qed.

(** [scaleNumber] is the affine map through [(min, baseMin)] and
    [(max, baseMax)]. *)
Lemma scaleNumber_affine value min max baseMin baseMax :
  (scaleNumber value min max baseMin baseMax
   == baseMin + (value - min) * ((baseMax - baseMin) / (max - min)))%Q.
Proof.
  unfold scaleNumber, Qdiv. ring.
Qed.

Lemma scaleNumber_at_min value min max baseMin baseMax :
  (value == min)%Q → (scaleNumber value min max baseMin baseMax == baseMin)%Q.
Proof. intros H. rewrite scaleNumber_affine, H. ring. Qed.

Lemma scaleNumber_at_max value min max baseMin baseMax :
  (min < max)%Q → (value == max)%Q →
  (scaleNumber value min max baseMin baseMax == baseMax)%Q.
Proof. intros Hlt H. rewrite scaleNumber_affine, H. field. lra. Qed.

(** ** Cows *)

(** [farmhand.cow].  [colorsInBloodline] is an object whose keys are colors and
    whose values are all [true]: a set of colors. *)
Record cow : Type := {
  baseWeight : Q;
  color : string;
  colorsInBloodline : gset string;
  cow_daysOld : Q;
  daysSinceMilking : Q;
  cow_gender : gender;
  happiness : Q;
  happinessBoostsToday : Q;
  cow_id : string;
  isUsingHuggingMachine : bool;
  name : string;
  weightMultiplier : Q;
}.

(** The [options] of [generateCow]: any subset of the fields of a cow. *)
Record cowOptions : Type := {
  opt_baseWeight : option Q;
  opt_color : option string;
  opt_colorsInBloodline : option (gset string);
  opt_daysOld : option Q;
  opt_daysSinceMilking : option Q;
  opt_gender : option gender;
  opt_happiness : option Q;
  opt_happinessBoostsToday : option Q;
  opt_id : option string;
  opt_isUsingHuggingMachine : option bool;
  opt_name : option string;
  opt_weightMultiplier : option Q;
}.

(** [{}] *)
Definition no_options : cowOptions :=
  {| opt_baseWeight := None; opt_color := None; opt_colorsInBloodline := None;
     opt_daysOld := None; opt_daysSinceMilking := None; opt_gender := None;
     opt_happiness := None; opt_happinessBoostsToday := None; opt_id := None;
     opt_isUsingHuggingMachine := None; opt_name := None;
     opt_weightMultiplier := None |}.

(** A list with at least one entry: the enumerations and the name list of the
    data modules. *)
Record table (A : Type) : Type := {
  first : A;
  others : list A;
}.
Arguments first {A} t.
Arguments others {A} t.

Definition entries {A} (t : table A) : list A := first t :: others t.

(** The text of a thrown [Error]: literal pieces and serialized cows. *)
Inductive message_part : Type :=
| Text (s : string)
| JSON_stringify (c : cow).

Definition Error : Type := list message_part.

Module Cow.
Section WithConstants.

(** [constants.js], [enums.js] and [data/fruit-names] are not among the
    sources; what the code reads from them is a parameter. *)
Variables COW_MAXIMUM_AGE_VALUE_DROPOFF COW_MAXIMUM_VALUE_MULTIPLIER
  COW_MINIMUM_VALUE_MULTIPLIER COW_MILK_RATE_FASTEST COW_MILK_RATE_SLOWEST
  COW_STARTING_WEIGHT_BASE COW_STARTING_WEIGHT_VARIANCE
  COW_WEIGHT_MULTIPLIER_MAXIMUM COW_WEIGHT_MULTIPLIER_MINIMUM
  MALE_COW_WEIGHT_MULTIPLIER : Q.

(** [Object.values(genders)], [Object.values(cowColors)], [fruitNames]. *)
Variable genders_values : table gender.
Variable cowColors_values : table string.
Variable fruitNames : table string.

(** [Date.now()] at the time of the call, and [btoa] of a number's text. *)
Variable Date_now : Q.
Variable btoa : Q → string.

(** [chooseRandom]: [list[Math.round(Math.random() * (list.length - 1))]]. *)
Definition chooseRandom {A} (list : table A) : Rand A :=
  r ← Math_random;
  mret (nth (Z.to_nat (Math_round (r * inject_Z (Z.of_nat (length (entries list)) - 1))))
            (entries list) (first list)).

Definition createUniqueId : Rand string :=
  r ← Math_random; mret (btoa (r + Date_now)%Q).

(** [x || y] on a string that may be missing: the empty string is falsy. *)
Definition truthy_string (s : option string) : option string :=
  match s with
  | Some EmptyString => None
  | _ => s
  end.

(** [generateCow]: the computed fields, then the spread of [options] over
    them. *)
Definition generateCow (options : cowOptions) : Rand cow :=
  gender ← match opt_gender options with
           | Some g => mret g
           | None => chooseRandom genders_values
           end;
  r ← Math_random;
  let baseWeight :=
    inject_Z (Math_round
      (COW_STARTING_WEIGHT_BASE
         * (if decide (gender = MALE) then MALE_COW_WEIGHT_MULTIPLIER else 1)
       - COW_STARTING_WEIGHT_VARIANCE
       + r * (COW_STARTING_WEIGHT_VARIANCE * 2))%Q) in
  color ← match truthy_string (opt_color options) with
          | Some c => mret c
          | None => chooseRandom cowColors_values
          end;
  id ← createUniqueId;
  name ← chooseRandom fruitNames;
  mret {| baseWeight := default baseWeight (opt_baseWeight options);
          color := default color (opt_color options);
          colorsInBloodline :=
            default {[ color ]} (opt_colorsInBloodline options);
          cow_daysOld := default 1%Q (opt_daysOld options);
          daysSinceMilking := default 0%Q (opt_daysSinceMilking options);
          cow_gender := default gender (opt_gender options);
          happiness := default 0%Q (opt_happiness options);
          happinessBoostsToday :=
            default 0%Q (opt_happinessBoostsToday options);
          cow_id := default id (opt_id options);
          isUsingHuggingMachine :=
            default false (opt_isUsingHuggingMachine options);
          name := default name (opt_name options);
          weightMultiplier := default 1%Q (opt_weightMultiplier options) |}.

(** [generateOffspringCow].  The object literal of [colorsInBloodline] lists
    the two parents' colors and then spreads the two parents' sets. *)
Definition generateOffspringCow (cow1 cow2 : cow) : Rand (result Error cow) :=
  if decide (cow_gender cow1 = cow_gender cow2) then
    mret (Throw [JSON_stringify cow1; Text " "; JSON_stringify cow2;
                 Text " cannot produce offspring because they have the same gender"])
  else
    let maleCow := if decide (cow_gender cow1 = MALE) then cow1 else cow2 in
    let femaleCow := if decide (cow_gender cow1 = MALE) then cow2 else cow1 in
    offspring ← generateCow
      {| opt_baseWeight :=
           Some ((baseWeight maleCow + baseWeight femaleCow) / 2)%Q;
         opt_color := Some (color maleCow);
         opt_colorsInBloodline :=
           Some ({[ color maleCow ]} ∪ {[ color femaleCow ]}
                 ∪ colorsInBloodline maleCow ∪ colorsInBloodline femaleCow);
         opt_daysOld := None; opt_daysSinceMilking := None; opt_gender := None;
         opt_happiness := None; opt_happinessBoostsToday := None;
         opt_id := None; opt_isUsingHuggingMachine := None; opt_name := None;
         opt_weightMultiplier := None |};
    mret (Ok offspring).

(** [getCowMilkRate] *)
Definition getCowMilkRate (c : cow) : number :=
  if decide (cow_gender c = FEMALE) then
    Finite (scaleNumber (weightMultiplier c)
              COW_WEIGHT_MULTIPLIER_MINIMUM COW_WEIGHT_MULTIPLIER_MAXIMUM
              COW_MILK_RATE_SLOWEST COW_MILK_RATE_FASTEST)
  else Infinity.

(** [getCowWeight] *)
Definition getCowWeight (c : cow) : Z :=
  Math_round (baseWeight c * weightMultiplier c)%Q.

(** [getCowValue] *)
Definition getCowValue (c : cow) : Q :=
  (inject_Z (getCowWeight c)
   * clampNumber
       (scaleNumber (cow_daysOld c) 1 COW_MAXIMUM_AGE_VALUE_DROPOFF
          COW_MAXIMUM_VALUE_MULTIPLIER COW_MINIMUM_VALUE_MULTIPLIER)
       COW_MINIMUM_VALUE_MULTIPLIER COW_MAXIMUM_VALUE_MULTIPLIER)%Q.

(** The spread of [options] wins over the computed fields. *)
Lemma generateCow_overrides (options : cowOptions) (e : entropy) w c b :
  opt_baseWeight options = Some w →
  opt_color options = Some c →
  opt_colorsInBloodline options = Some b →
  let offspring := (generateCow options e).1 in
  baseWeight offspring = w ∧ color offspring = c
  ∧ colorsInBloodline offspring = b.
Proof.
  intros Hw Hc Hb. unfold generateCow, chooseRandom, createUniqueId.
  unfold mbind, Rand_bind, mret, Rand_ret, Math_random.
  rewrite Hw, Hc, Hb.
  destruct (opt_gender options), (truthy_string (Some c)); simpl; done.
Qed.

Lemma generateOffspringCow_throws cow1 cow2 e :
  cow_gender cow1 = cow_gender cow2 →
  (generateOffspringCow cow1 cow2 e).1
  = Throw [JSON_stringify cow1; Text " "; JSON_stringify cow2;
           Text " cannot produce offspring because they have the same gender"].
Proof. intros Heq. unfold generateOffspringCow. by rewrite decide_True. Qed.

Lemma generateOffspringCow_returns cow1 cow2 e :
  cow_gender cow1 ≠ cow_gender cow2 →
  ∃ offspring, (generateOffspringCow cow1 cow2 e).1 = Ok offspring
  ∧ let maleCow := if decide (cow_gender cow1 = MALE) then cow1 else cow2 in
    let femaleCow := if decide (cow_gender cow1 = MALE) then cow2 else cow1 in
    baseWeight offspring
      = ((baseWeight maleCow + baseWeight femaleCow) / 2)%Q
    ∧ color offspring = color maleCow
    ∧ colorsInBloodline offspring
      = {[ color maleCow ]} ∪ {[ color femaleCow ]}
        ∪ colorsInBloodline maleCow ∪ colorsInBloodline femaleCow.
Proof.
  intros Hne. unfold generateOffspringCow. rewrite decide_False by done.
  unfold mbind at 1, Rand_bind at 1.
  match goal with |- context [generateCow ?o e] =>
    pose proof (generateCow_overrides o e _ _ _ eq_refl eq_refl eq_refl) as H;
    destruct (generateCow o e) as [offspring e'] end.
  exists offspring. split; [done|]. exact H.
Qed.

(** Whatever the parents, the fields that [generateOffspringCow] does not
    hand to [generateCow] are those of a cow just generated. *)
Lemma generateOffspringCow_newborn cow1 cow2 e offspring :
  (generateOffspringCow cow1 cow2 e).1 = Ok offspring →
  cow_daysOld offspring = 1%Q ∧ daysSinceMilking offspring = 0%Q
  ∧ happiness offspring = 0%Q ∧ happinessBoostsToday offspring = 0%Q
  ∧ isUsingHuggingMachine offspring = false
  ∧ weightMultiplier offspring = 1%Q.
Proof.
  unfold generateOffspringCow.
  destruct (decide (cow_gender cow1 = cow_gender cow2)); [discriminate|].
  unfold generateCow, chooseRandom, createUniqueId.
  unfold mbind, Rand_bind, mret, Rand_ret, Math_random.
  destruct (color (if decide (cow_gender cow1 = MALE) then cow1 else cow2));
    simpl; intros [= <-]; done.
Qed.

(** C3: [generateOffspringCow] throws exactly when the two cows have the same
    gender, the error it throws carries both cow records and no cow is
    returned with it; with different genders it returns a cow, and that cow
    is a newborn of the two: the color of the male parent, both parents'
    colors and bloodlines, the mean of their base weights, one day old, not
    milked, with the happiness, hugging machine and weight multiplier of a
    cow just generated (so neither parent handed back). *)
Theorem generateOffspringCow_same_gender (cow1 cow2 : cow) (e : entropy) :
  let outcome := (generateOffspringCow cow1 cow2 e).1 in
  ((∃ err, outcome = Throw err) ↔ cow_gender cow1 = cow_gender cow2)
  ∧ (∀ err, outcome = Throw err →
       JSON_stringify cow1 ∈ err ∧ JSON_stringify cow2 ∈ err)
  ∧ ((∃ offspring, outcome = Ok offspring)
     ↔ cow_gender cow1 ≠ cow_gender cow2)
  ∧ (cow_gender cow1 ≠ cow_gender cow2 →
     ∃ offspring father mother,
       outcome = Ok offspring
       ∧ ((father = cow1 ∧ mother = cow2) ∨ (father = cow2 ∧ mother = cow1))
       ∧ cow_gender father = MALE ∧ cow_gender mother = FEMALE
       ∧ color offspring = color father
       ∧ colorsInBloodline offspring
         = {[ color father ]} ∪ {[ color mother ]}
           ∪ colorsInBloodline father ∪ colorsInBloodline mother
       ∧ baseWeight offspring
         = ((baseWeight father + baseWeight mother) / 2)%Q
       ∧ cow_daysOld offspring = 1%Q ∧ daysSinceMilking offspring = 0%Q
       ∧ happiness offspring = 0%Q ∧ happinessBoostsToday offspring = 0%Q
       ∧ isUsingHuggingMachine offspring = false
       ∧ weightMultiplier offspring = 1%Q).
Proof.
  intros outcome. subst outcome.
  destruct (decide (cow_gender cow1 = cow_gender cow2)) as [Heq|Hne].
  - rewrite (generateOffspringCow_throws cow1 cow2 e Heq).
    split; [|split; [|split]].
    + split; [done | eauto].
    + intros err [= <-]. split; repeat constructor.
    + split; [intros [? ?]; discriminate | done].
    + done.
  - destruct (generateOffspringCow_returns cow1 cow2 e Hne)
      as (offspring & Hok & Hw & Hc & Hb).
    pose proof (generateOffspringCow_newborn cow1 cow2 e offspring Hok) as Hnew.
    rewrite Hok. split; [|split; [|split]].
    + split; [intros [? ?]; discriminate | done].
    + intros err ?; discriminate.
    + split; [done | eauto].
    + intros _.
      exists offspring,
        (if decide (cow_gender cow1 = MALE) then cow1 else cow2),
        (if decide (cow_gender cow1 = MALE) then cow2 else cow1).
      split; [done|]. split.
      { destruct (decide (cow_gender cow1 = MALE)); [left | right]; done. }
      split.
      { destruct (decide (cow_gender cow1 = MALE)); [done|].
        destruct (cow_gender cow1), (cow_gender cow2); congruence. }
      split.
      { destruct (decide (cow_gender cow1 = MALE)) as [Hm|Hm].
        - destruct (cow_gender cow1), (cow_gender cow2); congruence.
        - destruct (cow_gender cow1); congruence. }
      split; [exact Hc|]. split; [exact Hb|]. split; [exact Hw|]. exact Hnew.
Qed.

(** C4: for a male [m] and a female [f], in either argument order, the
    offspring has the color of [m], the union of both parents' bloodline sets
    and both parents' colors as its bloodline (so a superset of each of them),
    and the mean of the parents' base weights. *)
Theorem generateOffspringCow_inheritance (m f cow1 cow2 : cow) (e : entropy) :
  cow_gender m = MALE → cow_gender f = FEMALE →
  (cow1 = m ∧ cow2 = f) ∨ (cow1 = f ∧ cow2 = m) →
  ∃ offspring,
    (generateOffspringCow cow1 cow2 e).1 = Ok offspring
    ∧ color offspring = color m
    ∧ colorsInBloodline offspring
      = colorsInBloodline m ∪ colorsInBloodline f
        ∪ {[ color m ]} ∪ {[ color f ]}
    ∧ colorsInBloodline m ⊆ colorsInBloodline offspring
    ∧ colorsInBloodline f ⊆ colorsInBloodline offspring
    ∧ color m ∈ colorsInBloodline offspring
    ∧ color f ∈ colorsInBloodline offspring
    ∧ baseWeight offspring = ((baseWeight m + baseWeight f) / 2)%Q.
Proof.
  intros Hm Hf Horder.
  assert (Hne : cow_gender cow1 ≠ cow_gender cow2).
  { destruct Horder as [[-> ->]|[-> ->]]; congruence. }
  destruct (generateOffspringCow_returns cow1 cow2 e Hne)
    as (offspring & Hok & Hw & Hc & Hb).
  exists offspring. split; [exact Hok|].
  assert ((if decide (cow_gender cow1 = MALE) then cow1 else cow2) = m
          ∧ (if decide (cow_gender cow1 = MALE) then cow2 else cow1) = f)
    as [Hmale Hfemale].
  { destruct Horder as [[-> ->]|[-> ->]].
    - destruct (decide (cow_gender m = MALE)); [by split | congruence].
    - destruct (decide (cow_gender f = MALE)); [congruence | by split]. }
  rewrite Hmale in Hc. rewrite Hmale, Hfemale in Hw, Hb.
  split; [exact Hc|]. rewrite Hb.
  clear - Hw. set (bm := colorsInBloodline m). set (bf := colorsInBloodline f).
  split; [|split; [|split; [|split; [|split]]]]; [..|exact Hw].
  - apply set_eq. intros x. rewrite !elem_of_union. tauto.
  - intros x Hx. rewrite !elem_of_union. tauto.
  - intros x Hx. rewrite !elem_of_union. tauto.
  - rewrite !elem_of_union, !elem_of_singleton. tauto.
  - rewrite !elem_of_union, !elem_of_singleton. tauto.
Qed.

Section ValueConfiguration.

(** The configuration orders its constants: the drop-off age lies after the
    first day, and the multipliers satisfy [0 <= minimum < maximum]. *)
Hypothesis dropoff_after_first_day : (1 < COW_MAXIMUM_AGE_VALUE_DROPOFF)%Q.
Hypothesis multipliers_ordered :
  (COW_MINIMUM_VALUE_MULTIPLIER < COW_MAXIMUM_VALUE_MULTIPLIER)%Q.
Hypothesis minimum_multiplier_nonneg : (0 <= COW_MINIMUM_VALUE_MULTIPLIER)%Q.

(** What the multiplier loses per day of age. *)
Definition value_slope : Q :=
  ((COW_MAXIMUM_VALUE_MULTIPLIER - COW_MINIMUM_VALUE_MULTIPLIER)
   / (COW_MAXIMUM_AGE_VALUE_DROPOFF - 1))%Q.

Lemma value_slope_pos : (0 < value_slope)%Q.
Proof. unfold value_slope. apply Qlt_shift_div_l; lra. Qed.

Lemma value_slope_span :
  ((COW_MAXIMUM_AGE_VALUE_DROPOFF - 1) * value_slope
   == COW_MAXIMUM_VALUE_MULTIPLIER - COW_MINIMUM_VALUE_MULTIPLIER)%Q.
Proof. unfold value_slope. field. lra. Qed.

Lemma value_scale days :
  (scaleNumber days 1 COW_MAXIMUM_AGE_VALUE_DROPOFF
     COW_MAXIMUM_VALUE_MULTIPLIER COW_MINIMUM_VALUE_MULTIPLIER
   == COW_MAXIMUM_VALUE_MULTIPLIER - (days - 1) * value_slope)%Q.
Proof. rewrite scaleNumber_affine. unfold value_slope, Qdiv. ring. Qed.

Lemma clampNumber_between num min max :
  (min <= num <= max)%Q → (clampNumber num min max == num)%Q.
Proof.
  intros [H1 H2]. unfold clampNumber.
  destruct (Qle_bool num min) eqn:E1.
  { apply Qle_bool_iff in E1. lra. }
  destruct (Qle_bool max num) eqn:E2.
  { apply Qle_bool_iff in E2. lra. }
  reflexivity.
Qed.

(** C5: [getCowValue] is the weight times a factor that is the maximum
    multiplier at [daysOld = 1], the minimum multiplier from the drop-off age
    on, decreases linearly in between, and always lies between the two
    multipliers (so it is never negative). *)
Theorem getCowValue_age_factor (c : cow) :
  let factor :=
    clampNumber
      (scaleNumber (cow_daysOld c) 1 COW_MAXIMUM_AGE_VALUE_DROPOFF
         COW_MAXIMUM_VALUE_MULTIPLIER COW_MINIMUM_VALUE_MULTIPLIER)
      COW_MINIMUM_VALUE_MULTIPLIER COW_MAXIMUM_VALUE_MULTIPLIER in
  getCowValue c = (inject_Z (getCowWeight c) * factor)%Q
  ∧ ((cow_daysOld c == 1)%Q → (factor == COW_MAXIMUM_VALUE_MULTIPLIER)%Q)
  ∧ ((COW_MAXIMUM_AGE_VALUE_DROPOFF <= cow_daysOld c)%Q →
     (factor == COW_MINIMUM_VALUE_MULTIPLIER)%Q)
  ∧ ((1 <= cow_daysOld c <= COW_MAXIMUM_AGE_VALUE_DROPOFF)%Q →
     (factor == COW_MAXIMUM_VALUE_MULTIPLIER
                - (cow_daysOld c - 1)
                  * ((COW_MAXIMUM_VALUE_MULTIPLIER
                      - COW_MINIMUM_VALUE_MULTIPLIER)
                     / (COW_MAXIMUM_AGE_VALUE_DROPOFF - 1)))%Q)
  ∧ (COW_MINIMUM_VALUE_MULTIPLIER <= factor
     <= COW_MAXIMUM_VALUE_MULTIPLIER)%Q
  ∧ (0 <= factor)%Q.
Proof.
  intros factor. subst factor.
  set (days := cow_daysOld c).
  set (scaled := scaleNumber days 1 COW_MAXIMUM_AGE_VALUE_DROPOFF
                   COW_MAXIMUM_VALUE_MULTIPLIER COW_MINIMUM_VALUE_MULTIPLIER).
  pose proof (value_scale days) as Hscaled. fold scaled in Hscaled.
  pose proof value_slope_pos as Hpos. pose proof value_slope_span as Hspan.
  assert (Hrange : (COW_MINIMUM_VALUE_MULTIPLIER
                    <= clampNumber scaled COW_MINIMUM_VALUE_MULTIPLIER
                         COW_MAXIMUM_VALUE_MULTIPLIER
                    <= COW_MAXIMUM_VALUE_MULTIPLIER)%Q).
  { apply clampNumber_range. lra. }
  split; [reflexivity|]. split; [|split; [|split; [|split]]].
  - intros Hone. rewrite clampNumber_above; [reflexivity| |].
    + rewrite Hscaled, Hone. lra.
    + rewrite Hscaled, Hone. lra.
  - intros Hold. rewrite clampNumber_below; [reflexivity|].
    assert ((COW_MAXIMUM_AGE_VALUE_DROPOFF - 1) * value_slope
            <= (days - 1) * value_slope)%Q.
    { apply Qmult_le_compat_r; lra. }
    lra.
  - intros [Hlo Hhi]. fold value_slope. rewrite <- Hscaled.
    apply clampNumber_between.
    assert (0 * value_slope <= (days - 1) * value_slope)%Q.
    { apply Qmult_le_compat_r; lra. }
    assert ((days - 1) * value_slope
            <= (COW_MAXIMUM_AGE_VALUE_DROPOFF - 1) * value_slope)%Q.
    { apply Qmult_le_compat_r; lra. }
    lra.
  - exact Hrange.
  - lra.
Qed.

End ValueConfiguration.

Section MilkConfiguration.

(** The weight-multiplier band is not empty. *)
Hypothesis weight_band :
  (COW_WEIGHT_MULTIPLIER_MINIMUM < COW_WEIGHT_MULTIPLIER_MAXIMUM)%Q.

(** The statement of C6 for one cow: a male cow gets a result that is not
    the number [Infinity]. *)
Definition male_rate_not_a_number_sentinel (c : cow) : Prop :=
  cow_gender c = MALE → getCowMilkRate c ≠ Infinity.

(** C6, amended: a female cow gets the image of her [weightMultiplier] under
    the linear map that sends the weight-multiplier band onto the milk-rate
    band (minimum to slowest, maximum to fastest); a male cow gets the number
    [Infinity]. *)
Theorem getCowMilkRate_by_gender (c : cow) :
  (cow_gender c = FEMALE →
   ∃ rate, getCowMilkRate c = Finite rate
     ∧ (rate == COW_MILK_RATE_SLOWEST
                + (weightMultiplier c - COW_WEIGHT_MULTIPLIER_MINIMUM)
                  * ((COW_MILK_RATE_FASTEST - COW_MILK_RATE_SLOWEST)
                     / (COW_WEIGHT_MULTIPLIER_MAXIMUM
                        - COW_WEIGHT_MULTIPLIER_MINIMUM)))%Q
     ∧ ((weightMultiplier c == COW_WEIGHT_MULTIPLIER_MINIMUM)%Q →
        (rate == COW_MILK_RATE_SLOWEST)%Q)
     ∧ ((weightMultiplier c == COW_WEIGHT_MULTIPLIER_MAXIMUM)%Q →
        (rate == COW_MILK_RATE_FASTEST)%Q)
     ∧ ((COW_WEIGHT_MULTIPLIER_MINIMUM <= weightMultiplier c
         <= COW_WEIGHT_MULTIPLIER_MAXIMUM)%Q →
        ∃ t, (0 <= t <= 1)%Q
           ∧ (rate == (1 - t) * COW_MILK_RATE_SLOWEST
                      + t * COW_MILK_RATE_FASTEST)%Q))
  ∧ (cow_gender c = MALE → getCowMilkRate c = Infinity).
Proof.
  unfold getCowMilkRate. split.
  - intros Hf. rewrite decide_True by done. eexists. split; [reflexivity|].
    split; [apply scaleNumber_affine|]. split; [apply scaleNumber_at_min|].
    split; [by apply scaleNumber_at_max|].
    intros [Hlo Hhi].
    exists ((weightMultiplier c - COW_WEIGHT_MULTIPLIER_MINIMUM)
            / (COW_WEIGHT_MULTIPLIER_MAXIMUM - COW_WEIGHT_MULTIPLIER_MINIMUM))%Q.
    split.
    + split.
      * apply Qle_shift_div_l; lra.
      * apply Qle_shift_div_r; lra.
    + unfold scaleNumber. field. lra.
  - intros Hm. rewrite decide_False by congruence. done.
Qed.

End MilkConfiguration.

End WithConstants.

(** A sample configuration and two sample cows. *)
Definition sample_genders : table gender := {| first := FEMALE; others := [MALE] |}.

Definition sample_colors : table string :=
  {| first := "BLUE"%string; others := ["BROWN"; "GREEN"; "WHITE"]%string |}.

Definition sample_names : table string :=
  {| first := "Apple"%string; others := ["Banana"; "Cherry"]%string |}.

Definition sample_cow (g : gender) (c : string) (bloodline : gset string)
    (weight age : Q) : cow :=
  {| baseWeight := weight; color := c; colorsInBloodline := bloodline;
     cow_daysOld := age; daysSinceMilking := 0; cow_gender := g;
     happiness := 0; happinessBoostsToday := 0; cow_id := c;
     isUsingHuggingMachine := false; name := "Apple";
     weightMultiplier := 1 |}.

Definition bull : cow := sample_cow MALE "BROWN" {[ "BROWN"%string ]} 2001 1.

Definition heifer : cow :=
  sample_cow FEMALE "WHITE" {[ "WHITE"%string; "GREEN"%string ]} 1800 1825.

Definition sample_generateOffspringCow : cow → cow → Rand (result Error cow) :=
  generateOffspringCow 1800 200 (11 # 10) sample_genders sample_colors
    sample_names 1600000000000 (λ _, "id"%string).

Example generateOffspringCow_two_bulls :
  (sample_generateOffspringCow bull bull (λ _, 1 # 4)).1
  = Throw [JSON_stringify bull; Text " "; JSON_stringify bull;
           Text " cannot produce offspring because they have the same gender"].
Proof. reflexivity. Qed.

Example generateOffspringCow_weight :
  match (sample_generateOffspringCow heifer bull (λ _, 1 # 4)).1 with
  | Ok offspring =>
      Qred (baseWeight offspring) = 3801 # 2 ∧ color offspring = "BROWN"%string
  | Throw _ => False
  end.
Proof. vm_compute. split; reflexivity. Qed.

Lemma generateOffspringCow_inheritance_witness :
  ∃ offspring,
    (sample_generateOffspringCow heifer bull (λ _, 1 # 4)).1 = Ok offspring
    ∧ color offspring = color bull
    ∧ colorsInBloodline offspring
      = colorsInBloodline bull ∪ colorsInBloodline heifer
        ∪ {[ color bull ]} ∪ {[ color heifer ]}
    ∧ colorsInBloodline bull ⊆ colorsInBloodline offspring
    ∧ colorsInBloodline heifer ⊆ colorsInBloodline offspring
    ∧ color bull ∈ colorsInBloodline offspring
    ∧ color heifer ∈ colorsInBloodline offspring
    ∧ baseWeight offspring = ((baseWeight bull + baseWeight heifer) / 2)%Q.
Proof.
  apply (generateOffspringCow_inheritance 1800 200 (11 # 10) sample_genders
           sample_colors sample_names 1600000000000 (λ _, "id"%string)
           bull heifer heifer bull (λ _, 1 # 4) eq_refl eq_refl).
  right. split; reflexivity.
Defined.

(** Value multipliers 5 and 1/2, drop-off at 1825 days. *)
Definition sample_getCowValue : cow → Q := getCowValue 1825 5 (1 # 2).

Example getCowValue_first_day : (sample_getCowValue bull == 2001 * 5)%Q.
Proof. vm_compute. reflexivity. Qed.

Example getCowValue_old : (sample_getCowValue heifer == 1800 * (1 # 2))%Q.
Proof. vm_compute. reflexivity. Qed.

Lemma getCowValue_age_factor_witness :
  (clampNumber (scaleNumber (cow_daysOld heifer) 1 1825 5 (1 # 2)) (1 # 2) 5
   == 1 # 2)%Q.
Proof.
  refine (proj1 (proj2 (proj2
    (getCowValue_age_factor 1825 5 (1 # 2) _ _ _ heifer))) _).
  - reflexivity.
  - reflexivity.
  - discriminate.
  - discriminate.
Defined.

(** Weight multipliers between 1/2 and 3/2, milk every 5 to 3 days. *)
Definition sample_getCowMilkRate : cow → number :=
  getCowMilkRate 3 5 (3 # 2) (1 # 2).

Example getCowMilkRate_heifer :
  sample_getCowMilkRate heifer
  = Finite (scaleNumber 1 (1 # 2) (3 # 2) 5 3).
Proof. reflexivity. Qed.

Example getCowMilkRate_bull : sample_getCowMilkRate bull = Infinity.
Proof. reflexivity. Qed.

(** C6 as stated fails on a bull: the result is the number [Infinity]. *)
Lemma getCowMilkRate_male_counterexample :
  ¬ male_rate_not_a_number_sentinel 3 5 (3 # 2) (1 # 2) bull.
Proof. intros Hclaim. by apply Hclaim. Qed.

Lemma getCowMilkRate_by_gender_witness :
  sample_getCowMilkRate bull = Infinity.
Proof.
  refine (proj2 (getCowMilkRate_by_gender 3 5 (3 # 2) (1 # 2) _ bull) eq_refl).
  reflexivity.
Defined.

End Cow.

(** ** Folding over a range of the field *)

Module Field.
Section ForRange.

(** The state is whatever the caller keeps; [forRange] reads only its
    [field], a list of rows. *)
Context {State Plot : Type}.
Variable field : State → list (list Plot).

(** [for (let i = from; i <= to; i++) state = body(state, i)], with bounds
    fixed before the loop. *)
Definition for_loop (from to : Z) (body : State → Z → State)
    (state : State) : State :=
  foldl body state (seqZ from (to - from + 1)).

(** [forRange]; the extra arguments are part of [fieldFn].  [None] is the
    [TypeError] of [state.field[0].length] on a field without rows. *)
Definition forRange (state : State) (fieldFn : State → Z → Z → State)
    (rangeRadius plotX plotY : Z) : option State :=
  row ← field state !! 0%nat;
  let startX := Z.max (plotX - rangeRadius) 0 in
  let endX := Z.min (plotX + rangeRadius) (Z.of_nat (length row) - 1) in
  let startY := Z.max (plotY - rangeRadius) 0 in
  let endY :=
    Z.min (plotY + rangeRadius) (Z.of_nat (length (field state)) - 1) in
  Some (for_loop startY endY
          (λ state y, for_loop startX endX (λ state x, fieldFn state x y) state)
          state).

(** The coordinates [(x, y)] with [startX <= x <= endX] and
    [startY <= y <= endY], row after row. *)
Definition cells_between (startX endX startY endY : Z) : list (Z * Z) :=
  y ← seqZ startY (endY - startY + 1);
  (λ x, (x, y)) <$> seqZ startX (endX - startX + 1).

(** The cells a range of radius [r] around [(x, y)] reaches on a field of
    [w] columns and [h] rows. *)
Definition range_cells (w h : nat) (r x y : Z) : list (Z * Z) :=
  cells_between (Z.max (x - r) 0) (Z.min (x + r) (Z.of_nat w - 1))
                (Z.max (y - r) 0) (Z.min (y + r) (Z.of_nat h - 1)).

(** Row-major order: [y] ascending, and [x] ascending within a row. *)
Definition row_major (c1 c2 : Z * Z) : Prop :=
  c1.2 < c2.2 ∨ (c1.2 = c2.2 ∧ c1.1 < c2.1).

Lemma nested_loops_fold (f : State → Z → Z → State) (xs ys : list Z) state :
  foldl (λ state y, foldl (λ state x, f state x y) state xs) state ys
  = foldl (λ state c, f state c.1 c.2) state
      (ys ≫= λ y, (λ x, (x, y)) <$> xs).
Proof.
  revert state. induction ys as [|y ys IH]; intros state; [done|].
  rewrite bind_cons, foldl_app, foldl_fmap. simpl. apply IH.
Qed.

Lemma elem_of_cells_between startX endX startY endY cx cy :
  (cx, cy) ∈ cells_between startX endX startY endY
  ↔ startX ≤ cx ≤ endX ∧ startY ≤ cy ≤ endY.
Proof.
  unfold cells_between. rewrite list_elem_of_bind. split.
  - intros (y & Hc & Hy). apply list_elem_of_fmap in Hc as (x & [= -> ->] & Hx).
    apply elem_of_seqZ in Hx, Hy. lia.
  - intros [Hx Hy]. exists cy. split.
    + apply list_elem_of_fmap. exists cx. split; [done|].
      apply elem_of_seqZ. lia.
    + apply elem_of_seqZ. lia.
Qed.

Lemma seqZ_sorted m n : StronglySorted Z.lt (seqZ m n).
Proof.
  destruct (decide (0 ≤ n)) as [Hn|Hn]; [|rewrite seqZ_nil by lia; constructor].
  rewrite <- (Z2Nat.id n Hn). generalize (Z.to_nat n) as k. clear.
  induction k as [|k IH]; [rewrite seqZ_nil by lia; constructor|].
  rewrite seqZ_S. apply StronglySorted_app; split; [|split].
  - intros a b Ha Hb. apply elem_of_seqZ in Ha.
    apply list_elem_of_singleton in Hb. lia.
  - exact IH.
  - repeat constructor.
Qed.

Lemma cells_between_sorted startX endX startY endY :
  StronglySorted row_major (cells_between startX endX startY endY).
Proof.
  unfold cells_between.
  pose proof (seqZ_sorted startY (endY - startY + 1)) as Hys.
  induction Hys as [|y ys Hys IH Hy]; [constructor|].
  rewrite bind_cons. apply StronglySorted_app; split; [|split].
  - intros c1 c2 Hc1 Hc2.
    apply list_elem_of_fmap in Hc1 as (x1 & -> & _).
    apply list_elem_of_bind in Hc2 as (y2 & Hc2 & Hy2).
    apply list_elem_of_fmap in Hc2 as (x2 & -> & _).
    left. simpl. rewrite Forall_forall in Hy. by apply Hy.
  - eapply StronglySorted_fmap; [|apply seqZ_sorted].
    intros x1 x2 Hlt. right. by split.
  - exact IH.
Qed.

Lemma row_major_NoDup (cells : list (Z * Z)) :
  StronglySorted row_major cells → NoDup cells.
Proof.
  induction 1 as [|c cells _ IH Hc]; constructor; [|done].
  intros Hin. rewrite Forall_forall in Hc.
  destruct (Hc c Hin) as [?|[_ ?]]; lia.
Qed.

(** C7, amended: on a non-empty rectangular field, [forRange] folds [fieldFn]
    over the cells of the (2 r + 1)-sided square around [(x, y)] that lie in
    the field, each once, in row-major order, handing each result to the next
    application.  On a 5 by 5 field with radius 1 that is 9 cells around
    (2, 2) and 4 cells around (0, 0).  When the square misses the field (the
    center lies more than [r] cells outside it along an axis) no cell is
    visited and the state is returned as it was. *)
Theorem forRange_clipped_square (state : State)
    (fieldFn : State → Z → Z → State) (r x y : Z) (w h : nat) :
  length (field state) = h → (0 < h)%nat →
  Forall (λ row, length row = w) (field state) →
  let cells := range_cells w h r x y in
  forRange state fieldFn r x y
    = Some (foldl (λ state c, fieldFn state c.1 c.2) state cells)
  ∧ (∀ cx cy, (cx, cy) ∈ cells ↔
       (x - r ≤ cx ≤ x + r ∧ y - r ≤ cy ≤ y + r)
       ∧ (0 ≤ cx < Z.of_nat w ∧ 0 ≤ cy < Z.of_nat h))
  ∧ NoDup cells
  ∧ StronglySorted row_major cells
  ∧ (w = 5%nat → h = 5%nat → r = 1 →
       (x = 2 → y = 2 → length cells = 9%nat)
     ∧ (x = 0 → y = 0 → length cells = 4%nat))
  ∧ (x + r < 0 ∨ Z.of_nat w ≤ x - r ∨ y + r < 0 ∨ Z.of_nat h ≤ y - r →
     cells = [] ∧ forRange state fieldFn r x y = Some state).
Proof.
  intros Hh Hpos Hrect cells.
  assert (Hmem : ∀ cx cy, (cx, cy) ∈ cells ↔
            (x - r ≤ cx ≤ x + r ∧ y - r ≤ cy ≤ y + r)
            ∧ (0 ≤ cx < Z.of_nat w ∧ 0 ≤ cy < Z.of_nat h)).
  { intros cx cy. unfold cells, range_cells.
    rewrite elem_of_cells_between. lia. }
  assert (Hrun : forRange state fieldFn r x y
            = Some (foldl (λ state c, fieldFn state c.1 c.2) state cells)).
  { unfold forRange. destruct (field state) as [|row rows] eqn:Hfield.
    { simpl in Hh. lia. }
    simpl. f_equal. unfold for_loop. rewrite nested_loops_fold.
    apply Forall_cons in Hrect as [-> _]. simpl in Hh. by rewrite Hh. }
  split; [exact Hrun|]. split; [exact Hmem|].
  split; [apply row_major_NoDup, cells_between_sorted|].
  split; [apply cells_between_sorted|]. split.
  - intros -> -> ->. split; intros -> ->; reflexivity.
  - intros Hmiss.
    assert (cells = []) as Hnil.
    { destruct cells as [|[cx cy] rest] eqn:Hcells; [done|]. exfalso.
      assert ((cx, cy) ∈ (cx, cy) :: rest) as Hin by (apply elem_of_cons; by left).
      apply Hmem in Hin. lia. }
    split; [exact Hnil|]. by rewrite Hrun, Hnil.
Qed.

End ForRange.

(** A state that records the cells handed to the callback. *)
Record traced : Type := {
  grid : list (list (option crop));
  trace : list (Z * Z);
}.

Definition record_visit (state : traced) (x y : Z) : traced :=
  {| grid := grid state; trace := trace state ++ [(x, y)] |}.

Definition five_by_five : traced :=
  {| grid := replicate 5 (replicate 5 None); trace := [] |}.

Example forRange_center :
  trace <$> forRange grid five_by_five record_visit 1 2 2
  = Some [(1, 1); (2, 1); (3, 1); (1, 2); (2, 2); (3, 2); (1, 3); (2, 3); (3, 3)].
Proof. reflexivity. Qed.

Example forRange_corner :
  trace <$> forRange grid five_by_five record_visit 1 0 0
  = Some [(0, 0); (1, 0); (0, 1); (1, 1)].
Proof. reflexivity. Qed.

Example forRange_far_outside :
  forRange grid five_by_five record_visit 1 7 7 = Some five_by_five.
Proof. reflexivity. Qed.

Example forRange_beside_the_field :
  trace <$> forRange grid five_by_five record_visit 1 (-1) 2
  = Some [(0, 1); (0, 2); (0, 3)].
Proof. reflexivity. Qed.

Example forRange_just_outside :
  trace <$> forRange grid five_by_five record_visit 1 5 5 = Some [(4, 4)].
Proof. reflexivity. Qed.

Example forRange_no_rows :
  forRange grid {| grid := []; trace := [] |} record_visit 1 0 0 = None.
Proof. reflexivity. Qed.

(** A center with both coordinates outside a field of [w] columns and [h]
    rows. *)
Definition center_outside (w h : nat) (x y : Z) : Prop :=
  (x < 0 ∨ Z.of_nat w ≤ x) ∧ (y < 0 ∨ Z.of_nat h ≤ y).

(** The last sentence of C7 on the 5 by 5 field: a range whose center is
    outside the field visits no cell and returns the state unchanged. *)
Definition outside_center_is_noop (r x y : Z) : Prop :=
  center_outside 5 5 x y →
  forRange grid five_by_five record_visit r x y = Some five_by_five.

(** C7 as stated fails: the radius-1 range around (5, 5), a center outside
    the 5 by 5 field, visits the cell (4, 4). *)
Lemma forRange_outside_center_counterexample : ¬ outside_center_is_noop 1 5 5.
Proof.
  intros Hclaim.
  assert (center_outside 5 5 5 5) as Hout by (unfold center_outside; lia).
  specialize (Hclaim Hout). vm_compute in Hclaim. discriminate Hclaim.
Qed.

Lemma forRange_clipped_square_witness :
  length (range_cells 5 5 1 0 0) = 4%nat.
Proof.
  refine (proj2 (proj1 (proj2 (proj2 (proj2 (proj2
    (forRange_clipped_square grid five_by_five record_visit 1 0 0 5 5
       eq_refl _ _))))) eq_refl eq_refl eq_refl) eq_refl eq_refl).
  - lia.
  - repeat constructor.
Defined.

End Field.

(** ** Inventory space *)

(** An inventory entry: an item id with the quantity held. *)
Record inventoryItem : Type := {
  inv_id : string;
  quantity : Z;
}.

Module Inventory.

(** [inventorySpaceConsumed]: the reduce that adds up [quantity].  It is
    wrapped by [memoize], which leaves its results as they are
    ([inventorySpaceConsumed_memoized]). *)
Definition inventorySpaceConsumed (inventory : list inventoryItem) : Z :=
  foldl (λ sum entry, sum + quantity entry) 0 inventory.

Lemma inventorySpaceConsumed_memoized (threshold : nat)
    (serializer : list inventoryItem → string)
    (calls : list (list inventoryItem)) inventory :
  (∀ a b, serializer a = serializer b → a = b) →
  (Memoize.memoize threshold inventorySpaceConsumed serializer inventory
     (Memoize.cache_after threshold inventorySpaceConsumed serializer calls)).1
  = inventorySpaceConsumed inventory.
Proof.
  intros Hinj. apply Memoize.memoize_result.
  intros a b Hab. f_equal. by apply Hinj.
Qed.

(** [inventorySpaceRemaining] *)
Definition inventorySpaceRemaining (inventory : list inventoryItem)
    (inventoryLimit : Z) : number :=
  if decide (inventoryLimit = -1) then Infinity
  else Finite (inject_Z (inventoryLimit - inventorySpaceConsumed inventory)).

(** [doesInventorySpaceRemain] *)
Definition doesInventorySpaceRemain (inventory : list inventoryItem)
    (inventoryLimit : Z) : bool :=
  gt_zero (inventorySpaceRemaining inventory inventoryLimit).

(** The sum of the quantities, entry by entry. *)
Fixpoint total_quantity (inventory : list inventoryItem) : Z :=
  match inventory with
  | [] => 0
  | entry :: rest => quantity entry + total_quantity rest
  end.

Lemma foldl_quantity inventory start :
  foldl (λ sum entry, sum + quantity entry) start inventory
  = start + total_quantity inventory.
Proof.
  revert start. induction inventory as [|entry rest IH]; intros start; simpl.
  - lia.
  - rewrite IH. lia.
Qed.

Lemma inventorySpaceConsumed_total inventory :
  inventorySpaceConsumed inventory = total_quantity inventory.
Proof. unfold inventorySpaceConsumed. by rewrite foldl_quantity. Qed.

Lemma gt_zero_Finite (z : Z) : gt_zero (Finite (inject_Z z)) = true ↔ 0 < z.
Proof.
  simpl. rewrite negb_true_iff, <- not_true_iff_false, Qle_bool_iff.
  unfold Qle. simpl. lia.
Qed.

(** C9: with the limit -1 the remaining space is unlimited whatever the
    inventory holds; otherwise it is the limit minus the sum of the
    quantities; and space remains exactly when the remaining space is
    greater than zero. *)
Theorem inventorySpaceRemaining_spec (inventory : list inventoryItem)
    (inventoryLimit : Z) :
  (inventoryLimit = -1 →
   inventorySpaceRemaining inventory inventoryLimit = Infinity)
  ∧ (inventoryLimit ≠ -1 →
     inventorySpaceRemaining inventory inventoryLimit
     = Finite (inject_Z (inventoryLimit - total_quantity inventory)))
  ∧ (doesInventorySpaceRemain inventory inventoryLimit = true
     ↔ match inventorySpaceRemaining inventory inventoryLimit with
       | Infinity => True
       | Finite remaining => (0 < remaining)%Q
       end)
  ∧ (doesInventorySpaceRemain inventory inventoryLimit = true
     ↔ inventoryLimit = -1 ∨ total_quantity inventory < inventoryLimit).
Proof.
  unfold doesInventorySpaceRemain, inventorySpaceRemaining.
  rewrite inventorySpaceConsumed_total.
  destruct (decide (inventoryLimit = -1)) as [Heq|Hne].
  - repeat split; auto; done.
  - split; [done|]. split; [done|]. split.
    + rewrite gt_zero_Finite. unfold Qlt. simpl. lia.
    + rewrite gt_zero_Finite. lia.
Qed.

Example inventorySpaceRemaining_unlimited :
  inventorySpaceRemaining
    [{| inv_id := "carrot"; quantity := 1000000 |}] (-1) = Infinity.
Proof. reflexivity. Qed.

Example inventorySpaceRemaining_full :
  doesInventorySpaceRemain
    [{| inv_id := "carrot"; quantity := 2 |};
     {| inv_id := "milk-1"; quantity := 3 |}] 5 = false.
Proof. reflexivity. Qed.

End Inventory.

(** ** The purchase handler *)

(** The argument of the handler: [value] may be missing. *)
Record purchasable : Type := {
  p_id : string;
  p_value : option Q;
}.

(** The component state the handler reads and updates. *)
Record componentState : Type := {
  cs_inventory : list inventoryItem;
  cs_money : Q;
}.

Module Handlers.

(** [inventory.findIndex(({ id: itemId }) => id === itemId)]: the first
    matching position, or -1. *)
Definition findIndex (id : string) (inventory : list inventoryItem) : Z :=
  match list_find (λ entry, id = inv_id entry) inventory with
  | Some (i, _) => Z.of_nat i
  | None => -1
  end.

(** [entry.quantity++] *)
Definition increment (entry : inventoryItem) : inventoryItem :=
  {| inv_id := inv_id entry; quantity := quantity entry + 1 |}.

(** [handleItemPurchase].  The entry and the array are changed in place and
    that same array is handed to [setState] with the new [money]; the result
    is the component state once the update is applied.  The early [return]
    leaves the state as it is. *)
Definition handleItemPurchase (item : purchasable)
    (this_state : componentState) : componentState :=
  let id := p_id item in
  let value := default 0%Q (p_value item) in
  let inventory := cs_inventory this_state in
  let money := cs_money this_state in
  if negb (Qle_bool value money) then this_state
  else
    let currentItemSlot := findIndex id inventory in
    let inventory :=
      if decide (Z.lnot currentItemSlot ≠ 0)
      then alter increment (Z.to_nat currentItemSlot) inventory
      else inventory ++ [{| inv_id := id; quantity := 1 |}] in
    let money := (money - value)%Q in
    {| cs_inventory := inventory; cs_money := money |}.

(** The quantity held of an item: that of its first entry, 0 without one. *)
Definition held (id : string) (inventory : list inventoryItem) : Z :=
  match list_find (λ entry, id = inv_id entry) inventory with
  | Some (_, entry) => quantity entry
  | None => 0
  end.

Lemma findIndex_found id inventory i entry :
  list_find (λ entry, id = inv_id entry) inventory = Some (i, entry) →
  findIndex id inventory = Z.of_nat i.
Proof. intros H. unfold findIndex. by rewrite H. Qed.

Lemma findIndex_absent id inventory :
  list_find (λ entry, id = inv_id entry) inventory = None →
  findIndex id inventory = -1.
Proof. intros H. unfold findIndex. by rewrite H. Qed.

Lemma list_find_alter_increment id inventory i entry :
  list_find (λ entry, id = inv_id entry) inventory = Some (i, entry) →
  list_find (λ entry, id = inv_id entry) (alter increment i inventory)
  = Some (i, increment entry).
Proof.
  intros (Hi & Hid & Hbefore)%list_find_Some. apply list_find_Some.
  split; [|split].
  - rewrite list_lookup_alter_eq, Hi. done.
  - done.
  - intros j e Hj Hlt. rewrite list_lookup_alter_ne in Hj by lia.
    by eapply Hbefore.
Qed.

Lemma list_find_snoc_absent id inventory :
  list_find (λ entry, id = inv_id entry) inventory = None →
  list_find (λ entry, id = inv_id entry)
    (inventory ++ [{| inv_id := id; quantity := 1 |}])
  = Some (length inventory, {| inv_id := id; quantity := 1 |}).
Proof.
  intros Hnone. apply list_find_Some. split; [|split].
  - by rewrite lookup_app_r, Nat.sub_diag.
  - done.
  - intros j e Hj Hlt. rewrite lookup_app_l in Hj by done.
    apply list_find_None in Hnone. rewrite Forall_forall in Hnone.
    apply Hnone. by eapply list_elem_of_lookup_2.
Qed.

Lemma alter_increment_insert (inventory : list inventoryItem) i entry :
  inventory !! i = Some entry →
  alter increment i inventory = <[i := increment entry]> inventory.
Proof.
  intros Hi. apply list_eq. intros j. destruct (decide (i = j)) as [<-|Hne].
  - rewrite list_lookup_alter_eq, Hi.
    rewrite list_lookup_insert_eq by (by eapply lookup_lt_Some). done.
  - by rewrite list_lookup_alter_ne, list_lookup_insert_ne.
Qed.

(** C10: a purchase the player cannot afford leaves inventory and money as
    they were; an affordable one takes exactly the item's value from the
    money, which stays non-negative, and adds exactly one to the quantity of
    the item's entry, a new entry with quantity 1 being appended when the
    inventory had none. *)
Theorem handleItemPurchase_atomic (item : purchasable)
    (this_state : componentState) :
  let id := p_id item in
  let value := default 0%Q (p_value item) in
  let inventory := cs_inventory this_state in
  let money := cs_money this_state in
  let after := handleItemPurchase item this_state in
  ((money < value)%Q → after = this_state)
  ∧ ((value <= money)%Q →
     cs_money after = (money - value)%Q
     ∧ (0 <= cs_money after)%Q
     ∧ held id (cs_inventory after) = held id inventory + 1
     ∧ (∀ i entry,
          list_find (λ entry, id = inv_id entry) inventory = Some (i, entry) →
          cs_inventory after
          = <[i := {| inv_id := inv_id entry;
                      quantity := quantity entry + 1 |}]> inventory)
     ∧ (list_find (λ entry, id = inv_id entry) inventory = None →
        cs_inventory after
        = inventory ++ [{| inv_id := id; quantity := 1 |}])).
Proof.
  intros id value inventory money after. subst after.
  unfold handleItemPurchase. fold id value inventory money. split.
  - intros Hpoor.
    assert (Qle_bool value money = false) as ->; [|done].
    apply not_true_iff_false. rewrite Qle_bool_iff. lra.
  - intros Hrich. rewrite (proj2 (Qle_bool_iff value money) Hrich). simpl.
    split; [done|]. split; [lra|].
    destruct (list_find (λ entry, id = inv_id entry) inventory)
      as [[i entry]|] eqn:Hfind.
    + rewrite (findIndex_found id inventory i entry Hfind).
      rewrite decide_True by (unfold Z.lnot; lia). rewrite Nat2Z.id.
      pose proof (list_find_alter_increment id inventory i entry Hfind) as Hafter.
      split; [|split].
      * unfold held. rewrite Hafter, Hfind. done.
      * intros i' entry' [= <- <-]. apply alter_increment_insert.
        by apply list_find_Some in Hfind as (Hi & _).
      * intros [=].
    + rewrite (findIndex_absent id inventory Hfind).
      rewrite decide_False by (unfold Z.lnot; lia).
      split; [|split].
      * unfold held. rewrite (list_find_snoc_absent id inventory Hfind), Hfind.
        done.
      * intros i entry [=].
      * done.
Qed.

Definition seeds : purchasable :=
  {| p_id := "carrot-seed"; p_value := Some 15%Q |}.

Example handleItemPurchase_too_expensive :
  handleItemPurchase seeds {| cs_inventory := []; cs_money := 14 |}
  = {| cs_inventory := []; cs_money := 14 |}.
Proof. reflexivity. Qed.

Example handleItemPurchase_first :
  handleItemPurchase seeds {| cs_inventory := []; cs_money := 15 |}
  = {| cs_inventory := [{| inv_id := "carrot-seed"; quantity := 1 |}];
       cs_money := (15 - 15)%Q |}.
Proof. reflexivity. Qed.

Example handleItemPurchase_again :
  cs_inventory
    (handleItemPurchase seeds
       {| cs_inventory := [{| inv_id := "milk-1"; quantity := 2 |};
                           {| inv_id := "carrot-seed"; quantity := 4 |}];
          cs_money := 40 |})
  = [{| inv_id := "milk-1"; quantity := 2 |};
     {| inv_id := "carrot-seed"; quantity := 5 |}].
Proof. reflexivity. Qed.

End Handlers.

(** * Further properties of the code *)

(** ** The size of a memoization cache *)

Module MemoizeBound.
Section WithFunction.

Context {Args R : Type}.
Variable MEMOIZE_CACHE_CLEAR_THRESHOLD : nat.
Variable fn : Args → R.
Variable serializer : Args → string.

Lemma set_size key (value : R) (this : gmap string R) :
  (size this ≤ S MEMOIZE_CACHE_CLEAR_THRESHOLD)%nat →
  (size (Memoize.set MEMOIZE_CACHE_CLEAR_THRESHOLD key value this)
   ≤ S MEMOIZE_CACHE_CLEAR_THRESHOLD)%nat.
Proof.
  intros Hsize. unfold Memoize.set. case_decide as Hfull.
  - rewrite insert_empty, map_size_singleton. lia.
  - rewrite map_size_insert. destruct (this !! key); simpl; lia.
Qed.

(** X1: whatever the memoized function was called with, its cache never
    holds more than [MEMOIZE_CACHE_CLEAR_THRESHOLD + 1] keys, and a call
    that stores into a cache of that size leaves a single key. *)
Theorem cache_size_bounded (calls : list Args) :
  (size (Memoize.cache_after MEMOIZE_CACHE_CLEAR_THRESHOLD fn serializer calls)
   ≤ S MEMOIZE_CACHE_CLEAR_THRESHOLD)%nat
  ∧ ∀ args,
      let cache :=
        Memoize.cache_after MEMOIZE_CACHE_CLEAR_THRESHOLD fn serializer calls in
      size cache = S MEMOIZE_CACHE_CLEAR_THRESHOLD →
      cache !! serializer args = None →
      size (Memoize.cache_after MEMOIZE_CACHE_CLEAR_THRESHOLD fn serializer
              (calls ++ [args])) = 1%nat.
Proof.
  split.
  - induction calls as [|args calls IH] using rev_ind.
    + unfold Memoize.cache_after, Memoize.create. simpl.
      rewrite map_size_empty. lia.
    + rewrite Memoize.cache_after_snoc.
      unfold Memoize.memoize, Memoize.fastMemoize, Memoize.get.
      destruct (_ !! serializer args); simpl; [exact IH|].
      by apply set_size.
  - intros args cache Hfull Hmiss. rewrite Memoize.cache_after_snoc.
    fold cache. unfold Memoize.memoize, Memoize.fastMemoize, Memoize.get.
    rewrite Hmiss. simpl. unfold Memoize.set.
    rewrite decide_True by lia. by rewrite insert_empty, map_size_singleton.
Qed.

End WithFunction.

(** With a threshold of one key the cache of the successor function reaches
    two keys and falls back to one. *)
Example cache_size_two :
  size (Memoize.cache_after 1 Z.succ pretty [0; 1]) = 2%nat.
Proof. vm_compute. reflexivity. Qed.

End MemoizeBound.

(** ** Money arithmetic *)

Module Money.

(** [castToMoney]: [Math.round(num * 100) / 100], with the product and the
    quotient taken exactly; [Rounded.castToMoney] rounds them as the engine
    does. *)
Definition castToMoney (num : Q) : Q :=
  (inject_Z (Math_round (num * 100)) / 100)%Q.

(** The callback of the reduce in [moneyTotal]:
    [(sum, num) => (sum += Math.round(num * 100))]. *)
Definition add_cents (sum : Z) (num : Q) : Z := sum + Math_round (num * 100)%Q.

(** [moneyTotal]: the rounded cents of the arguments are added up, and the sum
    is divided by 100. *)
Definition moneyTotal (args : list Q) : Q :=
  (inject_Z (foldl add_cents 0%Z args) / 100)%Q.

(** The amounts of [n] cents. *)
Definition cents (n : Z) : Q := (inject_Z n / 100)%Q.

Lemma Qfloor_unique (q : Q) (n : Z) :
  (inject_Z n <= q)%Q → (q < inject_Z (n + 1))%Q → Qfloor q = n.
Proof.
  intros Hlo Hhi.
  pose proof (Qfloor_le q) as Hfl. pose proof (Qlt_floor q) as Hfu.
  assert (inject_Z n < inject_Z (Qfloor q + 1))%Q as H1 by lra.
  assert (inject_Z (Qfloor q) < inject_Z (n + 1))%Q as H2 by lra.
  rewrite <- Zlt_Qlt in H1, H2. lia.
Qed.

Lemma Math_round_bounds (x : Q) :
  (x - (1 # 2) < inject_Z (Math_round x) <= x + (1 # 2))%Q.
Proof.
  unfold Math_round.
  pose proof (Qfloor_le (x + (1 # 2))) as Hfl.
  pose proof (Qlt_floor (x + (1 # 2))) as Hfu.
  rewrite inject_Z_plus in Hfu. change (inject_Z 1) with 1%Q in Hfu. lra.
Qed.

Lemma Math_round_Z (n : Z) (x : Q) : (x == inject_Z n)%Q → Math_round x = n.
Proof.
  intros Hx. unfold Math_round. apply Qfloor_unique.
  - rewrite Hx. lra.
  - rewrite Hx, inject_Z_plus. change (inject_Z 1) with 1%Q. lra.
Qed.

Lemma Math_round_mono (x y : Q) : (x <= y)%Q → Math_round x ≤ Math_round y.
Proof. intros Hxy. unfold Math_round. apply Qfloor_resp_le. lra. Qed.

Lemma Math_round_cents (n : Z) : Math_round (cents n * 100) = n.
Proof. apply Math_round_Z. unfold cents. field. Qed.

Lemma foldl_round_cents (amounts : list Z) (start : Z) :
  foldl add_cents start (cents <$> amounts) = start + foldr Z.add 0 amounts.
Proof.
  revert start. induction amounts as [|n amounts IH]; intros start; simpl.
  - lia.
  - rewrite IH. unfold add_cents. rewrite Math_round_cents. lia.
Qed.

Lemma foldl_round_perm (l k : list Q) (start : Z) :
  l ≡ₚ k → foldl add_cents start l = foldl add_cents start k.
Proof.
  intros Hperm. revert start.
  induction Hperm as [|x l k _ IH|x y l|l k m _ IH1 _ IH2]; intros start; simpl.
  - done.
  - apply IH.
  - f_equal. unfold add_cents. lia.
  - by rewrite IH1, IH2.
Qed.

(** X3: on amounts that are whole cents [moneyTotal] is their exact sum, and
    whatever the amounts are, the total does not depend on their order. *)
Theorem moneyTotal_exact (amounts : list Z) (args args' : list Q) :
  moneyTotal (cents <$> amounts) = cents (foldr Z.add 0 amounts)
  ∧ (moneyTotal (cents <$> amounts)
     == foldr Qplus 0 (cents <$> amounts))%Q
  ∧ (args ≡ₚ args' → moneyTotal args = moneyTotal args').
Proof.
  split; [|split].
  - unfold moneyTotal. by rewrite foldl_round_cents.
  - unfold moneyTotal. rewrite foldl_round_cents, Z.add_0_l.
    induction amounts as [|n amounts IH]; simpl.
    + reflexivity.
    + rewrite <- IH, inject_Z_plus. unfold cents. field.
  - intros Hperm. unfold moneyTotal. by rewrite (foldl_round_perm args args' 0 Hperm).
Qed.

Example moneyTotal_dimes :
  moneyTotal [1 # 10; 2 # 10] = cents 30.
Proof. reflexivity. Qed.

End Money.

(** ** Item prices *)

Module Prices.
Import Money.

Section WithCatalog.

Variable itemsMap : object item.

(** [valueAdjustments[id]] as a condition: a missing entry and 0 are falsy. *)
Definition truthy_number (n : option Q) : option Q :=
  match n with
  | Some a => if Qeq_bool a 0 then None else Some a
  | None => None
  end.

(** [getItemValue].  [Dinero({ amount, precision: 2 }).toUnit()], of the
    dependency dinero.js, is [amount / 100].  [None] is the [TypeError] of
    reading [itemsMap[id].value] for an id outside the catalog. *)
Definition getItemValue (id : string) (valueAdjustments : gmap string Q)
    : option Q :=
  it ← JS.get itemsMap id;
  let amount :=
    Math_round
      ((match truthy_number (valueAdjustments !! id) with
        | Some adjustment =>
            item_value it
            * (if item_doesPriceFluctuate it then adjustment else 1)
        | None => item_value it
        end) * 100)%Q in
  Some (inject_Z amount / 100)%Q.

(** [getResaleValue].  [None] as in [getItemValue]. *)
Definition getResaleValue (id : string) : option Q :=
  it ← JS.get itemsMap id; Some (item_value it / 2)%Q.

Lemma Math_round_comp (x y : Q) : (x == y)%Q → Math_round x = Math_round y.
Proof. intros Hxy. unfold Math_round. by rewrite Hxy. Qed.





End WithCatalog.

Example getItemValue_crash :
  getItemValue Market.market_itemsMap "carrot"
    (Market.generateValueAdjustments Market.market_itemsMap
       {[ "carrot"%string := Market.event "carrot" ]} ∅ Market.quarter).1
  = Some (cents 500).
Proof. vm_compute. reflexivity. Qed.

Example getItemValue_unknown :
  getItemValue Market.market_itemsMap "plough" ∅ = None.
Proof. reflexivity. Qed.


End Prices.

(** ** The duration of a crop's life cycle *)

Module Lifecycle.
Section WithCatalog.

Variable itemsMap : object item.

(** [getPlotContentFromItemId] and [getCropFromItemId]: the plot content
    [{ itemId }], extended to a crop that has not grown yet. *)
Definition getCropFromItemId (itemId : string) : crop :=
  {| crop_itemId := itemId; daysOld := 0; daysWatered := 0;
     isFertilized := false; wasWateredToday := false |}.

(** [Object.values(cropTimetable)] *)
Definition timetable_values (tt : cropTimetable) : list nat :=
  [tt_SEED tt; tt_GROWING tt].

(** [getCropLifecycleDuration]: the sum of the timetable's values (wrapped by
    [memoize]).  [None] is the [TypeError] of [Object.values(undefined)] for
    an item without a timetable. *)
Definition getCropLifecycleDuration (it : item) : option nat :=
  tt ← item_cropTimetable it;
  Some (foldl (λ acc value, acc + value)%nat 0%nat (timetable_values tt)).

(** X5: for a crop of the catalog, [getCropLifecycleDuration] is the length
    of the stage table; the crop is [GROWN] exactly when the floor of its
    [daysWatered] has reached that duration (or is negative, where the table
    has no entry either); and a crop fresh from [getCropFromItemId] is
    [GROWN] only when the duration is 0. *)
Theorem getCropLifecycleDuration_grown (c : crop) (it : item)
    (tt : cropTimetable) :
  JS.get itemsMap (crop_itemId c) = Some it →
  item_cropTimetable it = Some tt →
  ∃ duration : nat,
    getCropLifecycleDuration it = Some duration
    ∧ duration = length (Crop.getLifeStageRange tt)
    ∧ (Crop.getCropLifeStage itemsMap c = Some GROWN
       ↔ Qfloor (daysWatered c) < 0
         ∨ Z.of_nat duration ≤ Qfloor (daysWatered c))
    ∧ (Crop.getCropLifeStage itemsMap (getCropFromItemId (crop_itemId c))
         = Some GROWN
       ↔ duration = 0%nat).
Proof.
  intros Hit Htt. exists (tt_SEED tt + tt_GROWING tt)%nat.
  assert (Hstage : ∀ c' : crop, crop_itemId c' = crop_itemId c →
    Crop.getCropLifeStage itemsMap c' = Some GROWN
    ↔ Qfloor (daysWatered c') < 0
      ∨ Z.of_nat (tt_SEED tt + tt_GROWING tt) ≤ Qfloor (daysWatered c')).
  { intros c' Hid. rewrite <- Hid in Hit.
    rewrite (Crop.getCropLifeStage_unfold itemsMap c' it tt Hit Htt).
    unfold array_get. set (i := Qfloor (daysWatered c')).
    destruct (decide (0 ≤ i)) as [Hi|Hi];
      [|simpl; split; [intros _; lia | done]].
    destruct (decide (Z.to_nat i < tt_SEED tt)%nat).
    { rewrite Crop.stageTable_lookup_SEED by done. simpl.
      split; [discriminate | intros ?; exfalso; lia]. }
    destruct (decide (Z.to_nat i < tt_SEED tt + tt_GROWING tt)%nat).
    { rewrite Crop.stageTable_lookup_GROWING by lia. simpl.
      split; [discriminate | intros ?; exfalso; lia]. }
    rewrite Crop.stageTable_lookup_ge by lia. simpl.
    split; [intros _; lia | done]. }
  split; [|split; [|split]].
  - unfold getCropLifecycleDuration. rewrite Htt. simpl. f_equal.
  - by rewrite Crop.getLifeStageRange_stageTable, Crop.stageTable_length.
  - by apply Hstage.
  - rewrite Hstage by done. simpl. change (0 `div` 1) with 0.
    split; [intros [?|?]; lia | intros ->; right; simpl; lia].
Qed.

End WithCatalog.

Example getCropLifecycleDuration_sample :
  getCropLifecycleDuration Crop.sample_crop_item = Some 7%nat.
Proof. reflexivity. Qed.

Example getCropLifecycleDuration_no_timetable :
  getCropLifecycleDuration (Market.market_item "scarecrow" false) = None.
Proof. reflexivity. Qed.

Lemma getCropLifecycleDuration_grown_witness :
  Crop.getCropLifeStage Crop.sample_itemsMap (Crop.sample_crop 7) = Some GROWN
  ↔ Qfloor (daysWatered (Crop.sample_crop 7)) < 0
    ∨ Z.of_nat 7 ≤ Qfloor (daysWatered (Crop.sample_crop 7)).
Proof.
  destruct (getCropLifecycleDuration_grown Crop.sample_itemsMap
              (Crop.sample_crop 7) Crop.sample_crop_item Crop.sample_timetable
              eq_refl eq_refl) as (duration & Hd & _ & Hgrown & _).
  injection Hd as <-. exact Hgrown.
Defined.

End Lifecycle.

(** ** The coordinates of a range *)

Module Range.

(** [getRangeCoords]: the rows of a square of side [2 * rangeSize + 1]
    around the center.  [None] is the [RangeError] of [new Array(n)] for a
    negative length. *)
Definition getRangeCoords (rangeSize centerX centerY : Z)
    : option (list (list (Z * Z))) :=
  let squareSize := 2 * rangeSize + 1 in
  let rangeStartX := centerX - rangeSize in
  let rangeStartY := centerY - rangeSize in
  if decide (0 ≤ squareSize) then
    Some ((λ y, (λ x, (rangeStartX + x, rangeStartY + y)) <$> seqZ 0 squareSize)
            <$> seqZ 0 squareSize)
  else None.

(** The coordinate names a plot of a field of [w] columns and [h] rows. *)
Definition in_field (w h : nat) (c : Z * Z) : Prop :=
  (0 ≤ c.1 < Z.of_nat w) ∧ (0 ≤ c.2 < Z.of_nat h).

#[global] Instance in_field_dec w h c : Decision (in_field w h c).
Proof. unfold in_field. apply _. Defined.

Lemma seqZ_shift (m n : Z) : seqZ m n = Z.add m <$> seqZ 0 n.
Proof. by rewrite fmap_add_seqZ, Z.add_0_r. Qed.

Lemma getRangeCoords_flat (r x y : Z) rows :
  getRangeCoords r x y = Some rows →
  mjoin rows = Field.cells_between (x - r) (x + r) (y - r) (y + r).
Proof.
  unfold getRangeCoords. case_decide; [|done]. intros [= <-].
  unfold Field.cells_between.
  replace (y + r - (y - r) + 1) with (2 * r + 1) by lia.
  replace (x + r - (x - r) + 1) with (2 * r + 1) by lia.
  rewrite list_join_bind, list_fmap_bind.
  rewrite (seqZ_shift (y - r)), list_fmap_bind.
  apply list_bind_ext; [|done]. intros j. simpl.
  by rewrite (seqZ_shift (x - r)), <- list_fmap_compose.
Qed.

Lemma filter_sorted {A} (R : relation A) (P : A → Prop)
    `{∀ a, Decision (P a)} (l : list A) :
  StronglySorted R l → StronglySorted R (filter P l).
Proof.
  induction 1 as [|a l _ IH Ha]; [constructor|].
  rewrite filter_cons. case_decide; [|exact IH].
  constructor; [exact IH|].
  rewrite Forall_forall in Ha. apply Forall_forall.
  intros b [_ Hb]%list_elem_of_filter. by apply Ha.
Qed.

(** Clipping the square to the field is keeping its coordinates that lie in
    the field. *)
Lemma filter_square (w h : nat) (r x y : Z) :
  filter (in_field w h)
    (Field.cells_between (x - r) (x + r) (y - r) (y + r))
  = Field.range_cells w h r x y.
Proof.
  apply (StronglySorted_unique_strong Field.row_major).
  - intros [a1 b1] [a2 b2] _ _. unfold Field.row_major. simpl. lia.
  - apply filter_sorted, Field.cells_between_sorted.
  - apply Field.cells_between_sorted.
  - apply NoDup_Permutation.
    + apply NoDup_filter, Field.row_major_NoDup, Field.cells_between_sorted.
    + apply Field.row_major_NoDup, Field.cells_between_sorted.
    + intros [cx cy]. rewrite list_elem_of_filter. unfold Field.range_cells.
      rewrite !Field.elem_of_cells_between. unfold in_field. simpl. lia.
Qed.

Section WithField.

Context {State Plot : Type}.
Variable field : State → list (list Plot).

(** On a field of [h > 0] rows of [w] plots, [forRange] is the fold over the
    clipped cells. *)
Lemma forRange_fold (state : State) (fieldFn : State → Z → Z → State)
    (r x y : Z) (w h : nat) :
  length (field state) = h → (0 < h)%nat →
  Forall (λ row, length row = w) (field state) →
  Field.forRange field state fieldFn r x y
  = Some (foldl (λ state c, fieldFn state c.1 c.2) state
            (Field.range_cells w h r x y)).
Proof.
  intros Hh Hpos Hrect. unfold Field.forRange.
  destruct (field state) as [|row rows] eqn:Hfield; [simpl in Hh; lia|].
  simpl. f_equal. unfold Field.for_loop. rewrite Field.nested_loops_fold.
  apply Forall_cons in Hrect as [-> _]. simpl in Hh. by rewrite Hh.
Qed.

(** X6: for a radius that is not negative, [getRangeCoords] gives
    [2 r + 1] rows of [2 r + 1] coordinates with the center in the middle,
    and on a non-empty rectangular field [forRange] folds its callback over
    exactly those of these coordinates that lie in the field, row by row in
    the order [getRangeCoords] lists them. *)
Theorem forRange_getRangeCoords (state : State)
    (fieldFn : State → Z → Z → State) (r x y : Z) (w h : nat) :
  0 ≤ r →
  length (field state) = h → (0 < h)%nat →
  Forall (λ row, length row = w) (field state) →
  ∃ rows,
    getRangeCoords r x y = Some rows
    ∧ length rows = Z.to_nat (2 * r + 1)
    ∧ Forall (λ row, length row = Z.to_nat (2 * r + 1)) rows
    ∧ (rows !! Z.to_nat r ≫= λ row, row !! Z.to_nat r) = Some (x, y)
    ∧ Field.forRange field state fieldFn r x y
      = Some (foldl (λ state c, fieldFn state c.1 c.2) state
                (filter (in_field w h) (mjoin rows))).
Proof.
  intros Hr Hh Hpos Hrect.
  destruct (getRangeCoords r x y) as [rows|] eqn:Hrows.
  2:{ unfold getRangeCoords in Hrows. rewrite decide_True in Hrows by lia.
      discriminate. }
  exists rows. split; [done|].
  rewrite (getRangeCoords_flat r x y rows Hrows), filter_square.
  unfold getRangeCoords in Hrows. rewrite decide_True in Hrows by lia.
  injection Hrows as <-.
  split; [by rewrite length_fmap, length_seqZ|].
  split; [|split].
  - apply Forall_fmap, Forall_forall. intros j _. simpl.
    by rewrite length_fmap, length_seqZ.
  - rewrite list_lookup_fmap, lookup_seqZ_lt by lia. simpl.
    rewrite list_lookup_fmap, lookup_seqZ_lt by lia. simpl.
    do 2 f_equal; lia.
  - by apply forRange_fold.
Qed.

Lemma length_cells_between (startX endX startY endY : Z) :
  length (Field.cells_between startX endX startY endY)
  = (Z.to_nat (endY - startY + 1) * Z.to_nat (endX - startX + 1))%nat.
Proof.
  unfold Field.cells_between. rewrite <- (length_seqZ startY).
  induction (seqZ startY (endY - startY + 1)) as [|j ys IH]; [done|].
  rewrite bind_cons, length_app, IH, length_fmap, length_seqZ. simpl. lia.
Qed.

(** X7: on a non-empty rectangular field [forRange] never applies its
    callback more than [(2 r + 1)^2] times, applies it exactly that often
    when the whole square lies in the field, and with radius 0 on a plot of
    the field applies it once, to that plot. *)
Theorem forRange_applications (state : State)
    (fieldFn : State → Z → Z → State) (r x y : Z) (w h : nat) :
  length (field state) = h → (0 < h)%nat →
  Forall (λ row, length row = w) (field state) →
  let cells := Field.range_cells w h r x y in
    Field.forRange field state fieldFn r x y
      = Some (foldl (λ state c, fieldFn state c.1 c.2) state cells)
    ∧ Z.of_nat (length cells) ≤ Z.max 0 ((2 * r + 1) * (2 * r + 1))
    ∧ (0 ≤ r → 0 ≤ x - r → x + r < Z.of_nat w →
       0 ≤ y - r → y + r < Z.of_nat h →
       Z.of_nat (length cells) = (2 * r + 1) * (2 * r + 1))
    ∧ (r = 0 → 0 ≤ x < Z.of_nat w → 0 ≤ y < Z.of_nat h →
       cells = [(x, y)]
       ∧ Field.forRange field state fieldFn r x y = Some (fieldFn state x y)).
Proof.
  intros Hh Hpos Hrect cells. subst cells.
  pose proof (forRange_fold state fieldFn r x y w h Hh Hpos Hrect) as Hrun.
  split; [exact Hrun|].
  assert (Hlen : length (Field.range_cells w h r x y)
            = (Z.to_nat (Z.min (y + r) (Z.of_nat h - 1) - Z.max (y - r) 0 + 1)
               * Z.to_nat (Z.min (x + r) (Z.of_nat w - 1) - Z.max (x - r) 0 + 1))%nat)
    by apply length_cells_between.
  split; [|split].
  - rewrite Hlen, Nat2Z.inj_mul.
    set (ny := Z.min (y + r) (Z.of_nat h - 1) - Z.max (y - r) 0 + 1).
    set (nx := Z.min (x + r) (Z.of_nat w - 1) - Z.max (x - r) 0 + 1).
    assert (nx ≤ 2 * r + 1) by (unfold nx; lia).
    assert (ny ≤ 2 * r + 1) by (unfold ny; lia).
    destruct (decide (0 < nx ∧ 0 < ny)) as [[? ?]|?].
    + rewrite !Z2Nat.id by lia. nia.
    + assert (Z.of_nat (Z.to_nat ny) * Z.of_nat (Z.to_nat nx) = 0) as -> by nia.
      lia.
  - intros Hr Hx1 Hx2 Hy1 Hy2. rewrite Hlen, Nat2Z.inj_mul.
    rewrite !Z2Nat.id by lia.
    replace (Z.min (y + r) (Z.of_nat h - 1)) with (y + r) by lia.
    replace (Z.min (x + r) (Z.of_nat w - 1)) with (x + r) by lia.
    replace (Z.max (y - r) 0) with (y - r) by lia.
    replace (Z.max (x - r) 0) with (x - r) by lia. lia.
  - intros -> Hx Hy.
    assert (Field.range_cells w h 0 x y = [(x, y)]) as Hone.
    { unfold Field.range_cells, Field.cells_between.
      replace (Z.min (y + 0) (Z.of_nat h - 1)) with y by lia.
      replace (Z.min (x + 0) (Z.of_nat w - 1)) with x by lia.
      replace (Z.max (y - 0) 0) with y by lia.
      replace (Z.max (x - 0) 0) with x by lia.
      replace (y - y + 1) with 1 by lia. replace (x - x + 1) with 1 by lia.
      reflexivity. }
    split; [exact Hone|]. by rewrite Hrun, Hone.
Qed.

End WithField.

Lemma forRange_applications_witness :
  Z.of_nat (length (Field.range_cells 5 5 0 3 4))
  ≤ Z.max 0 ((2 * 0 + 1) * (2 * 0 + 1)).
Proof.
  refine (proj1 (proj2 (forRange_applications Field.grid Field.five_by_five
                          Field.record_visit 0 3 4 5 5 eq_refl _ _))).
  - lia.
  - repeat constructor.
Defined.

Example getRangeCoords_sample :
  getRangeCoords 1 0 4
  = Some [[(-1, 3); (0, 3); (1, 3)];
          [(-1, 4); (0, 4); (1, 4)];
          [(-1, 5); (0, 5); (1, 5)]].
Proof. reflexivity. Qed.

Example getRangeCoords_negative : getRangeCoords (-1) 2 2 = None.
Proof. reflexivity. Qed.

Lemma forRange_getRangeCoords_witness :
  ∃ rows,
    getRangeCoords 1 0 4 = Some rows
    ∧ length rows = Z.to_nat (2 * 1 + 1)
    ∧ Forall (λ row, length row = Z.to_nat (2 * 1 + 1)) rows
    ∧ (rows !! Z.to_nat 1 ≫= λ row, row !! Z.to_nat 1) = Some (0, 4)
    ∧ Field.forRange Field.grid Field.five_by_five Field.record_visit 1 0 4
      = Some (foldl (λ state c, Field.record_visit state c.1 c.2)
                Field.five_by_five (filter (in_field 5 5) (mjoin rows))).
Proof.
  apply (forRange_getRangeCoords Field.grid Field.five_by_five
           Field.record_visit 1 0 4 5 5).
  - lia.
  - reflexivity.
  - lia.
  - repeat constructor.
Defined.

End Range.

(** ** Random choices and generated cows *)

Module Herd.
Import Money.

Lemma chooseRandom_index (len : nat) (r : Q) :
  (0 < len)%nat → (0 <= r < 1)%Q →
  (Z.to_nat (Math_round (r * inject_Z (Z.of_nat len - 1))) < len)%nat.
Proof.
  intros Hlen [Hr0 Hr1].
  assert (0 <= inject_Z (Z.of_nat len - 1))%Q as Hk.
  { change 0%Q with (inject_Z 0). rewrite <- Zle_Qle. lia. }
  assert (Math_round (r * inject_Z (Z.of_nat len - 1)) ≤ Z.of_nat len - 1).
  { rewrite <- (Math_round_Z (Z.of_nat len - 1) (inject_Z (Z.of_nat len - 1)))
      at 2 by reflexivity.
    apply Math_round_mono. nra. }
  lia.
Qed.

Lemma chooseRandom_member {A} (list : table A) (e : entropy) :
  unit_interval e →
  (Cow.chooseRandom list e).1 ∈ entries list
  ∧ unit_interval (Cow.chooseRandom list e).2.
Proof.
  intros He.
  set (i := Z.to_nat (Math_round
              (e 0%nat * inject_Z (Z.of_nat (length (entries list)) - 1)))).
  assert (i < length (entries list))%nat as Hi.
  { apply chooseRandom_index; [simpl; lia | apply He]. }
  destruct (lookup_lt_is_Some_2 (entries list) i Hi) as [a Ha].
  split; [|by apply unit_interval_tail].
  change (Cow.chooseRandom list e).1 with (nth i (entries list) (first list)).
  rewrite nth_lookup, Ha. by eapply list_elem_of_lookup_2.
Qed.

(** X8: for samples in [[0, 1)], the index [chooseRandom] computes lies
    inside the list, so the choice is the entry at that index (never
    [undefined]) and the samples left over are still in [[0, 1)]. *)
Theorem chooseRandom_in_bounds {A} (list : table A) (e : entropy) :
  unit_interval e →
  let i := Z.to_nat (Math_round
             (e 0%nat * inject_Z (Z.of_nat (length (entries list)) - 1))) in
  (i < length (entries list))%nat
  ∧ entries list !! i = Some (Cow.chooseRandom list e).1
  ∧ (Cow.chooseRandom list e).1 ∈ entries list
  ∧ unit_interval (Cow.chooseRandom list e).2.
Proof.
  intros He i.
  assert (i < length (entries list))%nat as Hi.
  { apply chooseRandom_index; [simpl; lia | apply He]. }
  destruct (lookup_lt_is_Some_2 (entries list) i Hi) as [a Ha].
  assert ((Cow.chooseRandom list e).1 = a) as ->.
  { change (Cow.chooseRandom list e).1
      with (nth i (entries list) (first list)).
    by rewrite nth_lookup, Ha. }
  split; [exact Hi|]. split; [exact Ha|]. split.
  - by eapply list_elem_of_lookup_2.
  - by apply unit_interval_tail.
Qed.

Lemma chooseRandom_in_bounds_witness :
  entries Cow.sample_colors !! 2%nat
  = Some (Cow.chooseRandom Cow.sample_colors (λ _, 1 # 2)).1.
Proof.
  refine (proj1 (proj2 (chooseRandom_in_bounds Cow.sample_colors
                          (λ _, 1 # 2) _))).
  intros n. split; [discriminate | reflexivity].
Defined.

Section WithConstants.

Variables COW_MAXIMUM_AGE_VALUE_DROPOFF COW_MAXIMUM_VALUE_MULTIPLIER
  COW_MINIMUM_VALUE_MULTIPLIER COW_STARTING_WEIGHT_BASE
  COW_STARTING_WEIGHT_VARIANCE MALE_COW_WEIGHT_MULTIPLIER : Q.
Variable genders_values : table gender.
Variable cowColors_values : table string.
Variable fruitNames : table string.
Variable Date_now : Q.
Variable btoa : Q → string.

Local Abbreviation generateCow :=
  (Cow.generateCow COW_STARTING_WEIGHT_BASE COW_STARTING_WEIGHT_VARIANCE
     MALE_COW_WEIGHT_MULTIPLIER genders_values cowColors_values fruitNames
     Date_now btoa).

Local Abbreviation generateOffspringCow :=
  (Cow.generateOffspringCow COW_STARTING_WEIGHT_BASE
     COW_STARTING_WEIGHT_VARIANCE MALE_COW_WEIGHT_MULTIPLIER genders_values
     cowColors_values fruitNames Date_now btoa).

Local Abbreviation getCowValue :=
  (Cow.getCowValue COW_MAXIMUM_AGE_VALUE_DROPOFF COW_MAXIMUM_VALUE_MULTIPLIER
     COW_MINIMUM_VALUE_MULTIPLIER).

(** The fields [generateCow] computes when [options] leaves them out. *)
Lemma generateCow_defaults (options : cowOptions) (e : entropy) :
  let c := (generateCow options e).1 in
  (opt_daysOld options = None → cow_daysOld c = 1%Q)
  ∧ (opt_weightMultiplier options = None → weightMultiplier c = 1%Q)
  ∧ (opt_happiness options = None → happiness c = 0%Q)
  ∧ (opt_daysSinceMilking options = None → daysSinceMilking c = 0%Q).
Proof.
  unfold Cow.generateCow, Cow.chooseRandom, Cow.createUniqueId.
  unfold mbind, Rand_bind, mret, Rand_ret, Math_random.
  destruct (opt_gender options), (Cow.truthy_string (opt_color options));
    simpl; repeat split; intros ->; reflexivity.
Qed.

(** X9: a cow generated without options, from samples in [[0, 1)] and a
    variance that is not negative, has its gender, color and name among the
    configured ones, its own color as its whole bloodline, age 1, weight
    multiplier 1, happiness 0, and a whole base weight within the variance
    (and the half unit of rounding) of the base weight of its gender. *)
Theorem generateCow_fresh (e : entropy) :
  unit_interval e → (0 <= COW_STARTING_WEIGHT_VARIANCE)%Q →
  let c := (generateCow no_options e).1 in
  let expected :=
    (COW_STARTING_WEIGHT_BASE
     * (if decide (cow_gender c = MALE) then MALE_COW_WEIGHT_MULTIPLIER else 1))%Q in
  cow_gender c ∈ entries genders_values
  ∧ color c ∈ entries cowColors_values
  ∧ name c ∈ entries fruitNames
  ∧ colorsInBloodline c = {[ color c ]}
  ∧ cow_daysOld c = 1%Q ∧ weightMultiplier c = 1%Q ∧ happiness c = 0%Q
  ∧ (∃ n : Z, baseWeight c = inject_Z n)
  ∧ (expected - COW_STARTING_WEIGHT_VARIANCE - (1 # 2) < baseWeight c
     <= expected + COW_STARTING_WEIGHT_VARIANCE + (1 # 2))%Q.
Proof.
  intros He Hvar c expected.
  pose proof (chooseRandom_member genders_values e He) as (Hg & He1).
  set (e1 := (Cow.chooseRandom genders_values e).2) in *.
  pose proof (He1 0%nat) as Hr.
  pose proof (unit_interval_tail e1 He1) as He2.
  pose proof (chooseRandom_member cowColors_values _ He2) as (Hc & He3).
  set (e3 := (Cow.chooseRandom cowColors_values (λ n, e1 (S n))).2) in *.
  pose proof (unit_interval_tail e3 He3) as He4.
  pose proof (chooseRandom_member fruitNames _ He4) as (Hn & _).
  subst c expected. simpl in *.
  split; [exact Hg|]. split; [exact Hc|]. split; [exact Hn|].
  split; [done|]. split; [done|]. split; [done|]. split; [done|].
  split; [by eexists|].
  match goal with
  | |- (_ < inject_Z (Math_round (?a - ?v + ?r * ?w)) <= _)%Q =>
      pose proof (Math_round_bounds (a - v + r * w)) as Hround;
      assert (0 <= r < 1)%Q as Hsample by exact Hr;
      set (base := a) in *; set (sample := r) in *
  end.
  assert (0 <= sample * (COW_STARTING_WEIGHT_VARIANCE * 2)
          <= COW_STARTING_WEIGHT_VARIANCE * 2)%Q by nra.
  lra.
Qed.

Section ValueConfiguration.

(** The drop-off age lies after the first day (the scale divides by their
    difference), and the multipliers are ordered. *)
Hypothesis dropoff_after_first_day : (1 < COW_MAXIMUM_AGE_VALUE_DROPOFF)%Q.
Hypothesis multipliers_ordered :
  (COW_MINIMUM_VALUE_MULTIPLIER < COW_MAXIMUM_VALUE_MULTIPLIER)%Q.

Lemma clampNumber_mono (a b min max : Q) :
  (min <= max)%Q → (a <= b)%Q →
  (clampNumber a min max <= clampNumber b min max)%Q.
Proof.
  intros Hmm Hab. unfold clampNumber.
  destruct (Qle_bool a min) eqn:Ha1, (Qle_bool b min) eqn:Hb1;
    destruct (Qle_bool max a) eqn:Ha2, (Qle_bool max b) eqn:Hb2;
    repeat match goal with
    | H : Qle_bool _ _ = true |- _ => apply Qle_bool_iff in H
    | H : Qle_bool _ _ = false |- _ =>
        apply not_true_iff_false in H; rewrite Qle_bool_iff in H
    end; lra.
Qed.

Lemma age_factor_mono (d1 d2 : Q) :
  (d1 <= d2)%Q →
  (scaleNumber d2 1 COW_MAXIMUM_AGE_VALUE_DROPOFF
     COW_MAXIMUM_VALUE_MULTIPLIER COW_MINIMUM_VALUE_MULTIPLIER
   <= scaleNumber d1 1 COW_MAXIMUM_AGE_VALUE_DROPOFF
        COW_MAXIMUM_VALUE_MULTIPLIER COW_MINIMUM_VALUE_MULTIPLIER)%Q.
Proof.
  intros Hd. rewrite !scaleNumber_affine.
  set (slope := ((COW_MINIMUM_VALUE_MULTIPLIER - COW_MAXIMUM_VALUE_MULTIPLIER)
                 / (COW_MAXIMUM_AGE_VALUE_DROPOFF - 1))%Q).
  assert (slope < 0)%Q as Hslope.
  { unfold slope. apply Qlt_shift_div_r; lra. }
  nra.
Qed.

Lemma value_first_day (c : cow) :
  cow_daysOld c = 1%Q →
  (getCowValue c
   == inject_Z (Cow.getCowWeight c) * COW_MAXIMUM_VALUE_MULTIPLIER)%Q.
Proof using dropoff_after_first_day multipliers_ordered.
  intros Hone. unfold Cow.getCowValue. rewrite Hone.
  rewrite clampNumber_above; [reflexivity| |];
    rewrite (scaleNumber_at_min 1 1) by reflexivity; lra.
Qed.

(** X10: a cow fresh from [generateCow] without options, or born from
    [generateOffspringCow], is worth its rounded base weight times the
    maximum value multiplier: the whole base weight of a generated cow, the
    rounded mean of the parents' base weights for an offspring. *)
Theorem newborn_value (e : entropy) (cow1 cow2 offspring : cow) :
  (getCowValue (generateCow no_options e).1
   == baseWeight (generateCow no_options e).1
      * COW_MAXIMUM_VALUE_MULTIPLIER)%Q
  ∧ ((generateOffspringCow cow1 cow2 e).1 = Ok offspring →
     (getCowValue offspring
      == inject_Z (Math_round ((baseWeight cow1 + baseWeight cow2) / 2))
         * COW_MAXIMUM_VALUE_MULTIPLIER)%Q).
Proof.
  split.
  - pose proof (generateCow_defaults no_options e) as (Hage & Hmult & _).
    specialize (Hage eq_refl). specialize (Hmult eq_refl).
    rewrite value_first_day by exact Hage.
    unfold Cow.getCowWeight. rewrite Hmult.
    set (c := (generateCow no_options e).1).
    assert (∃ n : Z, baseWeight c = inject_Z n) as [n Hn].
    { subst c. unfold Cow.generateCow, Cow.chooseRandom, Cow.createUniqueId.
      unfold mbind, Rand_bind, mret, Rand_ret, Math_random. simpl.
      by eexists. }
    rewrite Hn, (Math_round_Z n) by ring. reflexivity.
  - unfold Cow.generateOffspringCow. case_decide as Hsame; [discriminate|].
    unfold mbind at 1, Rand_bind at 1.
    match goal with |- context [Cow.generateCow _ _ _ _ _ _ _ _ ?o e] =>
      pose proof (generateCow_defaults o e) as (Hage & Hmult & _);
      pose proof (Cow.generateCow_overrides COW_STARTING_WEIGHT_BASE
                    COW_STARTING_WEIGHT_VARIANCE MALE_COW_WEIGHT_MULTIPLIER
                    genders_values cowColors_values fruitNames Date_now btoa
                    o e _ _ _ eq_refl eq_refl eq_refl) as (Hweight & _);
      destruct (Cow.generateCow _ _ _ _ _ _ _ _ o e) as [c e']
    end.
    simpl in *. intros [= <-].
    rewrite value_first_day by (by apply Hage).
    unfold Cow.getCowWeight. rewrite (Hmult eq_refl), Hweight.
    apply Qmult_comp; [|reflexivity]. apply inject_Z_injective.
    apply Prices.Math_round_comp.
    destruct (decide (cow_gender cow1 = MALE)); field.
Qed.

Hypothesis minimum_multiplier_nonneg : (0 <= COW_MINIMUM_VALUE_MULTIPLIER)%Q.

(** X11: of two cows of the same weight, which is not negative, the older is
    never worth more; and the value of a cow always lies between its weight
    times the minimum and its weight times the maximum multiplier. *)
Theorem getCowValue_never_rises (c1 c2 : cow) :
  Cow.getCowWeight c1 = Cow.getCowWeight c2 →
  0 ≤ Cow.getCowWeight c1 →
  (cow_daysOld c1 <= cow_daysOld c2)%Q →
  (getCowValue c2 <= getCowValue c1)%Q
  ∧ (inject_Z (Cow.getCowWeight c2) * COW_MINIMUM_VALUE_MULTIPLIER
     <= getCowValue c2
     <= inject_Z (Cow.getCowWeight c2) * COW_MAXIMUM_VALUE_MULTIPLIER)%Q
  ∧ (0 <= getCowValue c2)%Q.
Proof.
  intros Hweight Hpos Hage. unfold Cow.getCowValue. rewrite <- Hweight.
  assert (0 <= inject_Z (Cow.getCowWeight c1))%Q as Hw.
  { change 0%Q with (inject_Z 0). by rewrite <- Zle_Qle. }
  pose proof (clampNumber_mono _ _ COW_MINIMUM_VALUE_MULTIPLIER
                COW_MAXIMUM_VALUE_MULTIPLIER ltac:(lra)
                (age_factor_mono _ _ Hage)) as Hmono.
  pose proof (clampNumber_range
                (scaleNumber (cow_daysOld c2) 1 COW_MAXIMUM_AGE_VALUE_DROPOFF
                   COW_MAXIMUM_VALUE_MULTIPLIER COW_MINIMUM_VALUE_MULTIPLIER)
                COW_MINIMUM_VALUE_MULTIPLIER COW_MAXIMUM_VALUE_MULTIPLIER
                ltac:(lra)) as Hrange.
  repeat split; nra.
Qed.

End ValueConfiguration.

End WithConstants.

Lemma newborn_value_witness :
  (Cow.getCowValue 1825 5 (1 # 2)
     (Cow.generateCow 1800 200 (11 # 10) Cow.sample_genders Cow.sample_colors
        Cow.sample_names 1600000000000 (λ _, "id"%string) no_options
        (λ _, 1 # 4)).1
   == baseWeight
        (Cow.generateCow 1800 200 (11 # 10) Cow.sample_genders
           Cow.sample_colors Cow.sample_names 1600000000000
           (λ _, "id"%string) no_options (λ _, 1 # 4)).1 * 5)%Q.
Proof.
  refine (proj1 (newborn_value 1825 5 (1 # 2) 1800 200 (11 # 10)
                   Cow.sample_genders Cow.sample_colors Cow.sample_names
                   1600000000000 (λ _, "id"%string) _ _ (λ _, 1 # 4)
                   Cow.bull Cow.bull Cow.bull)); reflexivity.
Defined.

Lemma getCowValue_never_rises_witness :
  (Cow.getCowValue 1825 5 (1 # 2) (Cow.sample_cow FEMALE "WHITE" ∅ 1800 40)
   <= Cow.getCowValue 1825 5 (1 # 2) (Cow.sample_cow MALE "BROWN" ∅ 1800 2))%Q.
Proof.
  refine (proj1 (getCowValue_never_rises 1825 5 (1 # 2) _ _ _
                   (Cow.sample_cow MALE "BROWN" ∅ 1800 2)
                   (Cow.sample_cow FEMALE "WHITE" ∅ 1800 40) _ _ _)).
  - reflexivity.
  - reflexivity.
  - discriminate.
  - reflexivity.
  - vm_compute. discriminate.
  - vm_compute. discriminate.
Defined.

Lemma generateCow_fresh_witness :
  color (Cow.generateCow 1800 200 (11 # 10) Cow.sample_genders
           Cow.sample_colors Cow.sample_names 1600000000000
           (λ _, "id"%string) no_options (λ _, 1 # 4)).1
  ∈ entries Cow.sample_colors.
Proof.
  refine (proj1 (proj2 (generateCow_fresh 1800 200 (11 # 10)
                          Cow.sample_genders Cow.sample_colors
                          Cow.sample_names 1600000000000 (λ _, "id"%string)
                          (λ _, 1 # 4) _ _))).
  - intros n. split; [discriminate | reflexivity].
  - discriminate.
Defined.

End Herd.

(** ** Grown crops of the catalog *)

#[global] Instance itemType_eq_dec : EqDecision itemType.
Proof. solve_decision. Defined.

Module Catalog.
Section WithCatalog.

Variable itemsMap : object item.

(** [isItemAGrownCrop]: the type is [CROP] and the item has a timetable. *)
Definition isItemAGrownCrop (it : item) : bool :=
  bool_decide (item_type it = CROP)
  && bool_decide (is_Some (item_cropTimetable it)).

(** [isItemAFarmProduct] *)
Definition isItemAFarmProduct (it : item) : bool :=
  isItemAGrownCrop it || bool_decide (item_type it = MILK).

(** The callback of the reduce that builds [finalStageCropItemList]; a key
    listed by [Object.keys] always has its property. *)
Definition push_grown (acc : list item) (itemId : string) : list item :=
  match JS.get itemsMap itemId with
  | Some it => if isItemAGrownCrop it then acc ++ [it] else acc
  | None => acc
  end.

Definition finalStageCropItemList : list item :=
  foldl push_grown [] (Object_keys itemsMap).

(** [getRandomCropItem]: [None] is [undefined]. *)
Definition getRandomCropItem : Rand (option item) :=
  r ← Math_random;
  mret (array_get finalStageCropItemList
          (Math_floor
             (r * inject_Z (Z.of_nat (length finalStageCropItemList))))).

Lemma foldl_push_grown (keys : list string) (acc : list item) (it : item) :
  it ∈ foldl push_grown acc keys
  ↔ it ∈ acc
    ∨ ∃ id, id ∈ keys ∧ JS.get itemsMap id = Some it
            ∧ isItemAGrownCrop it = true.
Proof.
  revert acc. induction keys as [|key keys IH]; intros acc; simpl.
  - split; [by left|]. intros [?|(id & Hid & _)]; [done|].
    by apply not_elem_of_nil in Hid.
  - rewrite IH. unfold push_grown.
    destruct (JS.get itemsMap key) as [it'|] eqn:Hkey.
    + destruct (isItemAGrownCrop it') eqn:Hgrown.
      * rewrite elem_of_app, list_elem_of_singleton. split.
        -- intros [[? | ->] | (id & Hid & ?)]; [by left| |].
           ++ right. exists key. split; [apply elem_of_cons; by left|done].
           ++ right. exists id. split; [apply elem_of_cons; by right|done].
        -- intros [?|(id & Hid & Hget & Hg)]; [by left; left|].
           apply elem_of_cons in Hid as [->|Hid].
           ++ left. right. congruence.
           ++ right. by exists id.
      * split.
        -- intros [?|(id & Hid & ?)]; [by left|].
           right. exists id. split; [apply elem_of_cons; by right|done].
        -- intros [?|(id & Hid & Hget & Hg)]; [by left|].
           apply elem_of_cons in Hid as [->|Hid]; [congruence|].
           right. by exists id.
    + split.
      * intros [?|(id & Hid & ?)]; [by left|].
        right. exists id. split; [apply elem_of_cons; by right|done].
      * intros [?|(id & Hid & Hget & Hg)]; [by left|].
        apply elem_of_cons in Hid as [->|Hid]; [congruence|].
        right. by exists id.
Qed.

Lemma Math_floor_index (len : nat) (r : Q) :
  (0 < len)%nat → (0 <= r < 1)%Q →
  0 ≤ Math_floor (r * inject_Z (Z.of_nat len)) < Z.of_nat len.
Proof.
  intros Hlen [Hr0 Hr1]. unfold Math_floor.
  assert (0 < inject_Z (Z.of_nat len))%Q as Hk.
  { change 0%Q with (inject_Z 0). rewrite <- Zlt_Qlt. lia. }
  split.
  - change 0 with (Qfloor 0). apply Qfloor_resp_le. nra.
  - rewrite Zlt_Qlt.
    pose proof (Qfloor_le (r * inject_Z (Z.of_nat len))). nra.
Qed.

Lemma getRandomCropItem_draw (e : entropy) :
  (getRandomCropItem e).1
  = array_get finalStageCropItemList
      (Math_floor (e 0%nat
         * inject_Z (Z.of_nat (length finalStageCropItemList)))).
Proof. reflexivity. Qed.

(** X12: for samples in [[0, 1)], [getRandomCropItem] returns an item of the
    catalog that is a grown crop whenever the catalog has one (its index
    never leaves the list), and [undefined] only when the catalog has
    none. *)
Theorem getRandomCropItem_grown (e : entropy) :
  unit_interval e →
  ((∃ id it, JS.get itemsMap id = Some it ∧ isItemAGrownCrop it = true) →
   ∃ id it, (getRandomCropItem e).1 = Some it
            ∧ JS.get itemsMap id = Some it
            ∧ item_type it = CROP ∧ is_Some (item_cropTimetable it))
  ∧ ((getRandomCropItem e).1 = None
     ↔ ¬ ∃ id it, JS.get itemsMap id = Some it ∧ isItemAGrownCrop it = true).
Proof.
  intros He.
  assert (Hlist : ∀ it, it ∈ finalStageCropItemList
            ↔ ∃ id, id ∈ Object_keys itemsMap ∧ JS.get itemsMap id = Some it
                    ∧ isItemAGrownCrop it = true).
  { intros it. unfold finalStageCropItemList. rewrite foldl_push_grown.
    split; [intros [Hnil|?]; [by apply not_elem_of_nil in Hnil|done]|by right]. }
  assert (Hsome : (∃ id it, JS.get itemsMap id = Some it
                            ∧ isItemAGrownCrop it = true)
            → ∃ id it, (getRandomCropItem e).1 = Some it
                       ∧ JS.get itemsMap id = Some it
                       ∧ item_type it = CROP
                       ∧ is_Some (item_cropTimetable it)).
  { intros (id & it & Hget & Hgrown).
    assert (it ∈ finalStageCropItemList) as Hin.
    { apply Hlist. exists id. split; [by eapply Market.get_Some_keys|done]. }
    assert (0 < length finalStageCropItemList)%nat as Hlen.
    { destruct finalStageCropItemList; [by apply not_elem_of_nil in Hin|simpl; lia]. }
    pose proof (Math_floor_index _ (e 0%nat) Hlen (He 0%nat)) as [Hlo Hhi].
    rewrite getRandomCropItem_draw.
    unfold array_get. rewrite decide_True by exact Hlo.
    destruct (lookup_lt_is_Some_2 finalStageCropItemList
                (Z.to_nat (Math_floor (e 0%nat
                   * inject_Z (Z.of_nat (length finalStageCropItemList))))))
      as [chosen Hchosen]; [lia|].
    pose proof (proj1 (Hlist chosen) (list_elem_of_lookup_2 _ _ _ Hchosen))
      as (id' & _ & Hget' & Hgrown').
    exists id', chosen. split; [exact Hchosen|]. split; [exact Hget'|].
    unfold isItemAGrownCrop in Hgrown'.
    apply andb_true_iff in Hgrown' as [Ht Htt].
    by apply bool_decide_eq_true in Ht, Htt. }
  split; [exact Hsome|]. split.
  - intros Hnone Hex. destruct (Hsome Hex) as (? & ? & Hs & _). congruence.
  - intros Hno.
    assert (finalStageCropItemList = []) as Hnil.
    { destruct finalStageCropItemList as [|it l] eqn:Hl; [done|]. exfalso.
      apply Hno.
      destruct (proj1 (Hlist it)) as (id & _ & Hget & Hgrown).
      { apply elem_of_cons. by left. }
      by exists id, it. }
    rewrite getRandomCropItem_draw.
    rewrite Hnil. unfold array_get. by case_decide.
Qed.

End WithCatalog.

Example getRandomCropItem_sample :
  (getRandomCropItem Crop.sample_itemsMap (λ _, 3 # 4)).1
  = Some Crop.sample_crop_item.
Proof. reflexivity. Qed.

Example getRandomCropItem_no_crop :
  (getRandomCropItem Market.market_itemsMap (λ _, 3 # 4)).1 = None.
Proof. reflexivity. Qed.

Lemma getRandomCropItem_grown_witness :
  (getRandomCropItem Market.market_itemsMap Market.quarter).1 = None
  ↔ ¬ ∃ id it, JS.get Market.market_itemsMap id = Some it
               ∧ isItemAGrownCrop it = true.
Proof.
  exact (proj2 (getRandomCropItem_grown Market.market_itemsMap Market.quarter
                  Market.quarter_unit_interval)).
Defined.

End Catalog.

(** ** Recipes *)

(** [farmhand.recipe]: what is read of it, the required quantity of each
    ingredient. *)
Record recipe : Type := {
  ingredients : object Z;
}.

Module Recipes.

(** The object [inventoryQuantityMap] built by the first reduce of
    [canMakeRecipe]: a later entry of an id replaces an earlier one. *)
Definition inventoryQuantityMap (inventory : list inventoryItem)
    : gmap string Z :=
  foldl (λ acc entry, <[inv_id entry := quantity entry]> acc) ∅ inventory.

(** [canMakeRecipe] (wrapped by [memoize]).  A comparison with [undefined]
    is false. *)
Definition canMakeRecipe (r : recipe) (inventory : list inventoryItem) : bool :=
  forallb
    (λ itemId,
       match inventoryQuantityMap inventory !! itemId,
             JS.get (ingredients r) itemId with
       | Some held, Some required => bool_decide (required ≤ held)
       | _, _ => false
       end)
    (Object_keys (ingredients r)).

(** The quantity of the last entry of an id. *)
Definition last_quantity (itemId : string) (inventory : list inventoryItem)
    : option Z :=
  quantity <$> last (filter (λ entry, inv_id entry = itemId) inventory).

Lemma inventoryQuantityMap_lookup inventory itemId :
  inventoryQuantityMap inventory !! itemId = last_quantity itemId inventory.
Proof.
  unfold inventoryQuantityMap, last_quantity.
  induction inventory as [|entry inventory IH] using rev_ind; [done|].
  rewrite foldl_app, filter_app. simpl. rewrite filter_cons, filter_nil.
  destruct (decide (inv_id entry = itemId)) as [<-|Hne].
  - by rewrite lookup_insert_eq, last_snoc.
  - rewrite lookup_insert_ne by done. by rewrite app_nil_r.
Qed.

(** X13: [canMakeRecipe] holds exactly when, for every ingredient, the last
    inventory entry of that id holds at least the required quantity.  So a
    recipe without ingredients can always be made, and an ingredient that has
    no inventory entry blocks the recipe whatever quantity is required, 0
    included. *)
Theorem canMakeRecipe_iff (r : recipe) (inventory : list inventoryItem) :
  (canMakeRecipe r inventory = true
   ↔ ∀ itemId, itemId ∈ Object_keys (ingredients r) →
       ∃ required held,
         JS.get (ingredients r) itemId = Some required
         ∧ last_quantity itemId inventory = Some held
         ∧ required ≤ held)
  ∧ (ingredients r = [] → canMakeRecipe r inventory = true)
  ∧ (∀ itemId, itemId ∈ Object_keys (ingredients r) →
       (∀ entry, entry ∈ inventory → inv_id entry ≠ itemId) →
       canMakeRecipe r inventory = false).
Proof.
  assert (Hiff : canMakeRecipe r inventory = true
    ↔ ∀ itemId, itemId ∈ Object_keys (ingredients r) →
        ∃ required held,
          JS.get (ingredients r) itemId = Some required
          ∧ last_quantity itemId inventory = Some held
          ∧ required ≤ held).
  { unfold canMakeRecipe. rewrite forallb_forall.
    setoid_rewrite <- list_elem_of_In.
    setoid_rewrite inventoryQuantityMap_lookup.
    split; intros Hall itemId Hin; specialize (Hall itemId Hin).
    - destruct (last_quantity itemId inventory) as [held|]; [|done].
      destruct (JS.get (ingredients r) itemId) as [required|]; [|done].
      exists required, held. by apply bool_decide_eq_true in Hall.
    - destruct Hall as (required & held & -> & -> & Hle).
      by apply bool_decide_eq_true. }
  split; [exact Hiff|]. split.
  - intros Hnil. apply Hiff. rewrite Hnil. intros itemId Hin.
    by apply not_elem_of_nil in Hin.
  - intros itemId Hin Habsent. apply not_true_iff_false. intros Hcan.
    destruct (proj1 Hiff Hcan itemId Hin) as (_ & held & _ & Hlast & _).
    unfold last_quantity in Hlast.
    destruct (last _) as [entry|] eqn:Hentry; [|done].
    apply last_Some in Hentry as [l Hl].
    assert (entry ∈ filter (λ entry, inv_id entry = itemId) inventory) as Hfilter.
    { rewrite Hl. apply elem_of_app. right. by apply list_elem_of_singleton. }
    apply list_elem_of_filter in Hfilter as [Hid Hmem].
    by apply (Habsent entry).
Qed.

Definition bread : recipe :=
  {| ingredients := [("wheat"%string, 2); ("salt"%string, 0)] |}.

Example canMakeRecipe_missing_zero :
  canMakeRecipe bread [{| inv_id := "wheat"; quantity := 5 |}] = false.
Proof. reflexivity. Qed.

Example canMakeRecipe_last_entry :
  canMakeRecipe bread
    [{| inv_id := "wheat"; quantity := 5 |};
     {| inv_id := "salt"; quantity := 1 |};
     {| inv_id := "wheat"; quantity := 1 |}] = false.
Proof. reflexivity. Qed.

Example canMakeRecipe_enough :
  canMakeRecipe bread
    [{| inv_id := "salt"; quantity := 0 |};
     {| inv_id := "wheat"; quantity := 2 |}] = true.
Proof. reflexivity. Qed.

End Recipes.

(** ** Selling, and the inventory across purchases and sales *)

Module Trade.

(** [decrementItemFromInventory]: works on a copy of the inventory.  [None]
    is the [TypeError] of reading [quantity] from [inventory[-1]] when the
    item has no entry. *)
Definition decrementItemFromInventory (itemId : string)
    (inventory : list inventoryItem) : option (list inventoryItem) :=
  let itemInventoryIndex := Handlers.findIndex itemId inventory in
  entry ← array_get inventory itemInventoryIndex;
  if decide (1 < quantity entry) then
    Some (<[Z.to_nat itemInventoryIndex :=
              {| inv_id := inv_id entry; quantity := quantity entry - 1 |}]>
            inventory)
  else Some (delete (Z.to_nat itemInventoryIndex) inventory).

(** [handleItemSell]: the argument of [setState] is built first, so a throw
    of [decrementItemFromInventory] leaves the state as it is. *)
Definition handleItemSell (item : purchasable) (this_state : componentState)
    : option componentState :=
  let id := p_id item in
  let value := default 0%Q (p_value item) in
  inventory ← decrementItemFromInventory id (cs_inventory this_state);
  Some {| cs_inventory := inventory;
          cs_money := (cs_money this_state + value)%Q |}.

(** An inventory with one entry per item, each of a positive quantity. *)
Definition well_formed (inventory : list inventoryItem) : Prop :=
  NoDup (inv_id <$> inventory) ∧ Forall (λ entry, 1 ≤ quantity entry) inventory.

Lemma total_quantity_app l k :
  Inventory.total_quantity (l ++ k)
  = Inventory.total_quantity l + Inventory.total_quantity k.
Proof. induction l as [|e l IH]; simpl; lia. Qed.

Lemma total_quantity_insert l i e e' :
  l !! i = Some e →
  Inventory.total_quantity (<[i := e']> l)
  = Inventory.total_quantity l - quantity e + quantity e'.
Proof.
  revert i. induction l as [|a l IH]; intros [|i] Hi; simplify_eq/=.
  - lia.
  - rewrite (IH i) by done. lia.
Qed.

Lemma total_quantity_delete l i e :
  l !! i = Some e →
  Inventory.total_quantity (delete i l)
  = Inventory.total_quantity l - quantity e.
Proof.
  revert i. induction l as [|a l IH]; intros [|i] Hi; simplify_eq/=.
  - lia.
  - rewrite (IH i) by done. lia.
Qed.

Lemma ids_insert (l : list inventoryItem) i e e' :
  l !! i = Some e → inv_id e' = inv_id e →
  inv_id <$> <[i := e']> l = inv_id <$> l.
Proof.
  intros Hi Hid. rewrite list_fmap_insert, Hid.
  apply list_insert_id. by rewrite list_lookup_fmap, Hi.
Qed.

(** The inventory after an affordable purchase. *)
Lemma purchase_inventory (item : purchasable) (st : componentState) :
  (default 0%Q (p_value item) <= cs_money st)%Q →
  cs_inventory (Handlers.handleItemPurchase item st)
  = match list_find (λ entry, p_id item = inv_id entry) (cs_inventory st) with
    | Some (i, entry) => <[i := Handlers.increment entry]> (cs_inventory st)
    | None => cs_inventory st ++ [{| inv_id := p_id item; quantity := 1 |}]
    end
  ∧ cs_money (Handlers.handleItemPurchase item st)
    = (cs_money st - default 0%Q (p_value item))%Q.
Proof.
  intros Hrich. unfold Handlers.handleItemPurchase.
  rewrite (proj2 (Qle_bool_iff _ _) Hrich). simpl. split; [|done].
  destruct (list_find _ (cs_inventory st)) as [[i entry]|] eqn:Hfind.
  - rewrite (Handlers.findIndex_found _ _ i entry Hfind).
    rewrite decide_True by (unfold Z.lnot; lia). rewrite Nat2Z.id.
    apply Handlers.alter_increment_insert.
    by apply list_find_Some in Hfind as (Hi & _).
  - rewrite (Handlers.findIndex_absent _ _ Hfind).
    by rewrite decide_False by (unfold Z.lnot; lia).
Qed.

Lemma purchase_unaffordable (item : purchasable) (st : componentState) :
  (cs_money st < default 0%Q (p_value item))%Q →
  Handlers.handleItemPurchase item st = st.
Proof.
  intros Hpoor. unfold Handlers.handleItemPurchase.
  assert (Qle_bool (default 0%Q (p_value item)) (cs_money st) = false) as ->;
    [|done].
  apply not_true_iff_false. rewrite Qle_bool_iff. lra.
Qed.

Lemma purchase_well_formed (item : purchasable) (st : componentState) :
  well_formed (cs_inventory st) →
  well_formed (cs_inventory (Handlers.handleItemPurchase item st)).
Proof.
  intros [Hdup Hpos].
  destruct (Qlt_le_dec (cs_money st) (default 0%Q (p_value item)))
    as [Hpoor|Hrich].
  { by rewrite purchase_unaffordable. }
  destruct (purchase_inventory item st Hrich) as [-> _].
  destruct (list_find _ (cs_inventory st)) as [[i entry]|] eqn:Hfind.
  - apply list_find_Some in Hfind as (Hi & Hid & _). split.
    + by rewrite (ids_insert _ i entry).
    + apply Forall_insert; [done|]. simpl.
      rewrite Forall_forall in Hpos.
      specialize (Hpos entry (list_elem_of_lookup_2 _ _ _ Hi)). lia.
  - apply list_find_None in Hfind. split.
    + rewrite fmap_app. apply NoDup_app. split; [done|]. split.
      * intros id Hin Hnew. simpl in Hnew.
        apply list_elem_of_singleton in Hnew as ->.
        apply list_elem_of_fmap in Hin as (entry & Hid & Hentry).
        rewrite Forall_forall in Hfind. by apply (Hfind entry).
      * simpl. apply NoDup_singleton.
    + apply Forall_app. split; [done|]. by repeat constructor.
Qed.

(** X14: [handleItemPurchase] keeps an inventory well formed (one entry per
    item, positive quantities), and an affordable purchase raises
    [inventorySpaceConsumed] by exactly 1, whatever the inventory limit. *)
Theorem handleItemPurchase_inventory (item : purchasable)
    (st : componentState) :
  (well_formed (cs_inventory st) →
   well_formed (cs_inventory (Handlers.handleItemPurchase item st)))
  ∧ ((default 0%Q (p_value item) <= cs_money st)%Q →
     Inventory.inventorySpaceConsumed
       (cs_inventory (Handlers.handleItemPurchase item st))
     = Inventory.inventorySpaceConsumed (cs_inventory st) + 1).
Proof.
  split; [apply purchase_well_formed|]. intros Hrich.
  destruct (purchase_inventory item st Hrich) as [-> _].
  rewrite !Inventory.inventorySpaceConsumed_total.
  destruct (list_find _ (cs_inventory st)) as [[i entry]|] eqn:Hfind.
  - apply list_find_Some in Hfind as (Hi & Hid & _).
    rewrite (total_quantity_insert _ i entry) by done. simpl. lia.
  - rewrite total_quantity_app. simpl. lia.
Qed.

(** What [decrementItemFromInventory] does with the first entry of the
    item. *)
Lemma decrement_found itemId inventory i entry :
  list_find (λ entry, itemId = inv_id entry) inventory = Some (i, entry) →
  decrementItemFromInventory itemId inventory
  = Some (if decide (1 < quantity entry)
          then <[i := {| inv_id := inv_id entry;
                         quantity := quantity entry - 1 |}]> inventory
          else delete i inventory).
Proof.
  intros Hfind. unfold decrementItemFromInventory.
  rewrite (Handlers.findIndex_found _ _ i entry Hfind).
  unfold array_get. rewrite decide_True by lia. rewrite Nat2Z.id.
  apply list_find_Some in Hfind as (-> & _). simpl. by case_decide.
Qed.

Lemma decrement_absent itemId inventory :
  list_find (λ entry, itemId = inv_id entry) inventory = None →
  decrementItemFromInventory itemId inventory = None.
Proof.
  intros Hfind. unfold decrementItemFromInventory.
  rewrite (Handlers.findIndex_absent _ _ Hfind). done.
Qed.

Lemma delete_no_entry (inventory : list inventoryItem) i entry :
  NoDup (inv_id <$> inventory) → inventory !! i = Some entry →
  list_find (λ e, inv_id entry = inv_id e) (delete i inventory) = None.
Proof.
  intros Hdup Hi. apply list_find_None, Forall_forall. intros e He Hid.
  apply list_elem_of_lookup in He as [j Hj].
  assert (∃ k, k ≠ i ∧ inventory !! k = Some e) as (k & Hk & Hke).
  { destruct (decide (j < i)%nat).
    - exists j. split; [lia|]. by rewrite list_lookup_delete_lt in Hj.
    - exists (S j). split; [lia|]. by rewrite list_lookup_delete_ge in Hj by lia. }
  apply Hk. eapply (NoDup_lookup (inv_id <$> inventory)); [done| |].
  - by rewrite list_lookup_fmap, Hke.
  - rewrite list_lookup_fmap, Hi. simpl. by rewrite Hid.
Qed.

Lemma decrement_well_formed itemId inventory inventory' :
  well_formed inventory →
  decrementItemFromInventory itemId inventory = Some inventory' →
  well_formed inventory'.
Proof.
  intros [Hdup Hpos].
  destruct (list_find (λ entry, itemId = inv_id entry) inventory)
    as [[i entry]|] eqn:Hfind.
  2:{ by rewrite (decrement_absent _ _ Hfind). }
  rewrite (decrement_found _ _ i entry Hfind). intros [= <-].
  apply list_find_Some in Hfind as (Hi & _). case_decide.
  - split; [by rewrite (ids_insert _ i entry)|].
    apply Forall_insert; [done|]. simpl. lia.
  - split; [|by apply Forall_delete].
    rewrite list_fmap_delete.
    exact (sublist_NoDup _ _ Hdup (sublist_delete _ i)).
Qed.

(** X15: [decrementItemFromInventory] throws exactly when the item has no
    entry.  On a well-formed inventory that has the item, the result is well
    formed, holds one unit less of the item and one unit less in all, and
    loses the item's entry exactly when a single unit was held. *)
Theorem decrementItemFromInventory_unit (itemId : string)
    (inventory : list inventoryItem) :
  (decrementItemFromInventory itemId inventory = None
   ↔ ∀ entry, entry ∈ inventory → inv_id entry ≠ itemId)
  ∧ (well_formed inventory →
     ∀ inventory',
       decrementItemFromInventory itemId inventory = Some inventory' →
       well_formed inventory'
       ∧ Handlers.held itemId inventory' = Handlers.held itemId inventory - 1
       ∧ Inventory.inventorySpaceConsumed inventory'
         = Inventory.inventorySpaceConsumed inventory - 1
       ∧ ((∃ entry, entry ∈ inventory' ∧ inv_id entry = itemId)
          ↔ 1 < Handlers.held itemId inventory)).
Proof.
  destruct (list_find (λ entry, itemId = inv_id entry) inventory)
    as [[i entry]|] eqn:Hfind.
  - rewrite (decrement_found _ _ i entry Hfind).
    pose proof Hfind as (Hi & Hid & _)%list_find_Some. split.
    + split; [done|]. intros Habsent. exfalso.
      apply (Habsent entry); [by eapply list_elem_of_lookup_2 | done].
    + intros [Hdup Hpos] inventory' [= <-].
      assert (1 ≤ quantity entry) as Hq.
      { rewrite Forall_forall in Hpos. apply Hpos.
        by eapply list_elem_of_lookup_2. }
      assert (Handlers.held itemId inventory = quantity entry) as Hheld
        by (unfold Handlers.held; by rewrite Hfind).
      rewrite Hheld, !Inventory.inventorySpaceConsumed_total.
      case_decide as Hmany.
      * set (entry' := {| inv_id := inv_id entry;
                          quantity := quantity entry - 1 |}).
        assert (list_find (λ e, itemId = inv_id e) (<[i := entry']> inventory)
                = Some (i, entry')) as Hfind'.
        { apply list_find_Some. split; [|split].
          - apply list_lookup_insert_eq. by eapply lookup_lt_Some.
          - done.
          - intros j e Hj Hlt. rewrite list_lookup_insert_ne in Hj by lia.
            apply list_find_Some in Hfind as (_ & _ & Hbefore).
            by eapply Hbefore. }
        split; [|split; [|split]].
        -- apply (decrement_well_formed itemId inventory); [done|].
           rewrite (decrement_found _ _ i entry Hfind).
           by rewrite decide_True.
        -- unfold Handlers.held. rewrite Hfind'. done.
        -- rewrite (total_quantity_insert _ i entry) by done. simpl. lia.
        -- split; [done|]. intros _. exists entry'. split; [|done].
           apply list_elem_of_lookup. exists i.
           apply list_lookup_insert_eq. by eapply lookup_lt_Some.
      * pose proof (delete_no_entry inventory i entry Hdup Hi) as Hgone.
        rewrite <- Hid in Hgone.
        split; [|split; [|split]].
        -- apply (decrement_well_formed itemId inventory); [done|].
           rewrite (decrement_found _ _ i entry Hfind).
           by rewrite decide_False.
        -- unfold Handlers.held. rewrite Hgone. lia.
        -- rewrite (total_quantity_delete _ i entry) by done. lia.
        -- split; [|lia]. intros (e & He & Heid).
           apply list_find_None in Hgone. rewrite Forall_forall in Hgone.
           exfalso. by apply (Hgone e He).
  - rewrite (decrement_absent _ _ Hfind). split; [|done].
    split; [|done]. intros _ entry Hentry Hid.
    apply list_find_None in Hfind. rewrite Forall_forall in Hfind.
    by apply (Hfind entry).
Qed.

Lemma delete_snoc {A} (l : list A) (x : A) : delete (length l) (l ++ [x]) = l.
Proof. induction l as [|a l IH]; [done|]. simpl. by rewrite IH. Qed.

(** X16: selling back what was just bought succeeds and restores the
    inventory, entry for entry, provided the purchase was affordable and the
    item's entry, if there was one, held at least one unit.  (The money
    becomes [(money - value) + value], which the rounding of the two
    operations need not bring back to [money],
    [Rounded.money_not_restored].) *)
Theorem sell_after_purchase (item : purchasable) (st : componentState) :
  (default 0%Q (p_value item) <= cs_money st)%Q →
  (∀ i entry,
     list_find (λ entry, p_id item = inv_id entry) (cs_inventory st)
       = Some (i, entry) → 1 ≤ quantity entry) →
  ∃ st',
    handleItemSell item (Handlers.handleItemPurchase item st) = Some st'
    ∧ cs_inventory st' = cs_inventory st.
Proof.
  intros Hrich Hheld. unfold handleItemSell.
  destruct (purchase_inventory item st Hrich) as [-> ->].
  destruct (list_find _ (cs_inventory st)) as [[i entry]|] eqn:Hfind.
  - specialize (Hheld i entry eq_refl).
    pose proof Hfind as (Hi & Hid & Hbefore)%list_find_Some.
    rewrite (decrement_found _ _ i (Handlers.increment entry)).
    2:{ apply list_find_Some. split; [|split].
        - apply list_lookup_insert_eq. by eapply lookup_lt_Some.
        - done.
        - intros j e Hj Hlt. rewrite list_lookup_insert_ne in Hj by lia.
          by eapply Hbefore. }
    simpl. rewrite decide_True by lia. eexists. split; [done|]. simpl.
    rewrite list_insert_insert_eq. apply list_insert_id. rewrite Hi.
    f_equal. destruct entry as [id q]. simpl. f_equal. lia.
  - rewrite (decrement_found _ _ (length (cs_inventory st))
               {| inv_id := p_id item; quantity := 1 |})
      by (by apply Handlers.list_find_snoc_absent).
    simpl. eexists. split; [done|]. simpl.
    apply delete_snoc.
Qed.

Definition stock : list inventoryItem :=
  [{| inv_id := "milk-1"; quantity := 2 |};
   {| inv_id := "carrot-seed"; quantity := 1 |}].

Example decrementItemFromInventory_last_unit :
  decrementItemFromInventory "carrot-seed" stock
  = Some [{| inv_id := "milk-1"; quantity := 2 |}].
Proof. reflexivity. Qed.

Example decrementItemFromInventory_one_of_two :
  decrementItemFromInventory "milk-1" stock
  = Some [{| inv_id := "milk-1"; quantity := 1 |};
          {| inv_id := "carrot-seed"; quantity := 1 |}].
Proof. reflexivity. Qed.

Example handleItemSell_not_held :
  handleItemSell {| p_id := "pumpkin"; p_value := Some 4%Q |}
    {| cs_inventory := stock; cs_money := 0 |} = None.
Proof. reflexivity. Qed.

Lemma sell_after_purchase_witness :
  ∃ st',
    handleItemSell Handlers.seeds
      (Handlers.handleItemPurchase Handlers.seeds
         {| cs_inventory := stock; cs_money := 20 |}) = Some st'
    ∧ cs_inventory st' = stock.
Proof.
  apply (sell_after_purchase Handlers.seeds
           {| cs_inventory := stock; cs_money := 20 |}).
  - discriminate.
  - intros i entry Hfind. vm_compute in Hfind. injection Hfind as <- <-.
    simpl. lia.
Defined.

End Trade.

(** ** Planting and selections *)

(** [toolType] of [enums.js]: [NONE] and the tools proper. *)
Inductive toolType : Type := NONE | TOOL (name : string).

#[global] Instance toolType_eq_dec : EqDecision toolType.
Proof. solve_decision. Defined.

(** The state of the component that the handlers read and update. *)
Record farmState : Type := {
  fs_field : list (list (option crop));
  fs_inventory : list inventoryItem;
  fs_money : Q;
  selectedPlantableItemId : string;
  selectedTool : toolType;
  stageFocus : string;
}.

Module Planting.

(** [createNewField]: [height] rows of [width] empty plots. *)
Definition createNewField (INITIAL_FIELD_HEIGHT INITIAL_FIELD_WIDTH : nat)
    : list (list (option crop)) :=
  replicate INITIAL_FIELD_HEIGHT (replicate INITIAL_FIELD_WIDTH None).

(** [copy.splice(i, 1, x)] on a copy of [l]: the element at [i] is replaced;
    past the end nothing is removed and [x] is appended. *)
Definition splice_one {A} (i : nat) (x : A) (l : list A) : list A :=
  if decide (i < length l)%nat then <[i := x]> l else l ++ [x].

(** [field[y][x]]: the outer [None] is [undefined]. *)
Definition plot_at (field : list (list (option crop))) (x y : nat)
    : option (option crop) :=
  field !! y ≫= λ row, row !! x.

(** [handlePlotClick].  [None] is a [TypeError]: of [row[x]] when the field
    has no row [y], or of [decrementItemFromInventory]; nothing is updated
    then. *)
Definition handlePlotClick (x y : nat) (this_state : farmState)
    : option farmState :=
  let field := fs_field this_state in
  let inventory := fs_inventory this_state in
  let selected := selectedPlantableItemId this_state in
  if decide (selected = EmptyString) then Some this_state
  else
    row ← field !! y;
    match row !! x with
    | Some (Some _) => Some this_state
    | _ =>
        let newRow := splice_one x (Some (Lifecycle.getCropFromItemId selected)) row in
        let newField := splice_one y newRow field in
        updatedInventory ← Trade.decrementItemFromInventory selected inventory;
        let selected' :=
          match list_find (λ entry, selected = inv_id entry) updatedInventory with
          | Some _ => selected
          | None => EmptyString
          end in
        Some {| fs_field := newField; fs_inventory := updatedInventory;
                fs_money := fs_money this_state;
                selectedPlantableItemId := selected';
                selectedTool := selectedTool this_state;
                stageFocus := stageFocus this_state |}
    end.

(** [handlePlantableItemSelect] *)
Definition handlePlantableItemSelect (id : string) (this_state : farmState)
    : farmState :=
  {| fs_field := fs_field this_state; fs_inventory := fs_inventory this_state;
     fs_money := fs_money this_state; selectedPlantableItemId := id;
     selectedTool := NONE; stageFocus := stageFocus this_state |}.

(** [handleToolSelect] *)
Definition handleToolSelect (tool : toolType) (this_state : farmState)
    : farmState :=
  {| fs_field := fs_field this_state; fs_inventory := fs_inventory this_state;
     fs_money := fs_money this_state; selectedPlantableItemId := EmptyString;
     selectedTool := tool; stageFocus := stageFocus this_state |}.

(** [handleViewChange] *)
Definition handleViewChange (value : string) (this_state : farmState)
    : farmState :=
  {| fs_field := fs_field this_state; fs_inventory := fs_inventory this_state;
     fs_money := fs_money this_state;
     selectedPlantableItemId := selectedPlantableItemId this_state;
     selectedTool := selectedTool this_state; stageFocus := value |}.

(** [setState({ inventory, money })] *)
Definition set_trade (trade : componentState) (this_state : farmState)
    : farmState :=
  {| fs_field := fs_field this_state; fs_inventory := cs_inventory trade;
     fs_money := cs_money trade;
     selectedPlantableItemId := selectedPlantableItemId this_state;
     selectedTool := selectedTool this_state;
     stageFocus := stageFocus this_state |}.

Definition trade_state (this_state : farmState) : componentState :=
  {| cs_inventory := fs_inventory this_state; cs_money := fs_money this_state |}.

(** The calls a user interface can make. *)
Inductive call : Type :=
| ItemPurchase (item : purchasable)
| ItemSell (item : purchasable)
| ViewChange (value : string)
| PlantableItemSelect (id : string)
| ToolSelect (tool : toolType)
| PlotClick (x y : nat).

(** One call on the component; [None] when it throws. *)
Definition handle (c : call) (this_state : farmState) : option farmState :=
  match c with
  | ItemPurchase item =>
      Some (set_trade (Handlers.handleItemPurchase item (trade_state this_state))
              this_state)
  | ItemSell item =>
      trade ← Trade.handleItemSell item (trade_state this_state);
      Some (set_trade trade this_state)
  | ViewChange value => Some (handleViewChange value this_state)
  | PlantableItemSelect id => Some (handlePlantableItemSelect id this_state)
  | ToolSelect tool => Some (handleToolSelect tool this_state)
  | PlotClick x y => handlePlotClick x y this_state
  end.

(** A sequence of calls, none of which throws. *)
Fixpoint handle_all (calls : list call) (this_state : farmState)
    : option farmState :=
  match calls with
  | [] => Some this_state
  | c :: rest => this_state' ← handle c this_state; handle_all rest this_state'
  end.

Lemma plot_at_insert field row (x y x' y' : nat) (plot : option crop) :
  field !! y = Some row → (x < length row)%nat →
  plot_at (<[y := <[x := plot]> row]> field) x' y'
  = if decide (x' = x ∧ y' = y) then Some plot else plot_at field x' y'.
Proof.
  intros Hrow Hx. unfold plot_at.
  destruct (decide (y' = y)) as [->|Hy].
  - rewrite list_lookup_insert_eq by (by eapply lookup_lt_Some).
    rewrite Hrow. simpl. destruct (decide (x' = x)) as [->|Hx'].
    + rewrite list_lookup_insert_eq by done. by rewrite decide_True.
    + rewrite list_lookup_insert_ne by done.
      rewrite decide_False; [done|]. intros [? _]. done.
  - rewrite list_lookup_insert_ne by done.
    rewrite decide_False; [done|]. intros [_ ?]. done.
Qed.

(** X17: with an item selected that the inventory holds, a click on an empty
    plot of the field puts a crop of that item, not grown at all, on that
    plot and changes no other plot nor the shape of the field; the inventory
    is the decremented one, money and tool are untouched, and the selection
    is kept exactly when an entry of the item is left. *)
Theorem handlePlotClick_plants (x y : nat) (this_state : farmState)
    (row : list (option crop)) (updatedInventory : list inventoryItem) :
  selectedPlantableItemId this_state ≠ EmptyString →
  fs_field this_state !! y = Some row →
  row !! x = Some None →
  Trade.decrementItemFromInventory (selectedPlantableItemId this_state)
    (fs_inventory this_state) = Some updatedInventory →
  ∃ after,
    handlePlotClick x y this_state = Some after
    ∧ plot_at (fs_field after) x y
      = Some (Some {| crop_itemId := selectedPlantableItemId this_state;
                      daysOld := 0; daysWatered := 0; isFertilized := false;
                      wasWateredToday := false |})
    ∧ (∀ x' y', ¬ (x' = x ∧ y' = y) →
         plot_at (fs_field after) x' y' = plot_at (fs_field this_state) x' y')
    ∧ length <$> fs_field after = length <$> fs_field this_state
    ∧ fs_inventory after = updatedInventory
    ∧ fs_money after = fs_money this_state
    ∧ selectedTool after = selectedTool this_state
    ∧ (selectedPlantableItemId after = selectedPlantableItemId this_state
       ∨ selectedPlantableItemId after = EmptyString)
    ∧ (selectedPlantableItemId after = selectedPlantableItemId this_state
       ↔ ∃ entry, entry ∈ updatedInventory
                  ∧ inv_id entry = selectedPlantableItemId this_state).
Proof.
  intros Hsel Hrow Hplot Hdec. unfold handlePlotClick.
  rewrite decide_False by done. rewrite Hrow. simpl. rewrite Hplot, Hdec. simpl.
  eexists. split; [reflexivity|]. simpl.
  assert (x < length row)%nat as Hx by (by eapply lookup_lt_Some).
  assert (y < length (fs_field this_state))%nat as Hy by (by eapply lookup_lt_Some).
  unfold splice_one. rewrite !decide_True by done.
  split; [|split; [|split; [|split; [done|split; [done|split; [done|]]]]]].
  - rewrite (plot_at_insert _ row) by done. by rewrite decide_True.
  - intros x' y' Hother. rewrite (plot_at_insert _ row) by done.
    by rewrite decide_False.
  - rewrite list_fmap_insert, length_insert.
    apply list_insert_id. by rewrite list_lookup_fmap, Hrow.
  - destruct (list_find _ updatedInventory) as [[i entry]|] eqn:Hfind.
    + split; [by left|]. split; [|done]. intros _.
      apply list_find_Some in Hfind as (Hi & Hid & _).
      exists entry. split; [by eapply list_elem_of_lookup_2 | done].
    + split; [by right|]. split.
      * intros Heq. by destruct Hsel.
      * intros (entry & Hentry & Hid). exfalso.
        apply list_find_None in Hfind. rewrite Forall_forall in Hfind.
        by apply (Hfind entry).
Qed.

(** X18: [handlePlotClick] does nothing when no item is selected or the plot
    is occupied; with an item selected it throws, updating nothing, when the
    field has no row [y], or when the plot is free and the inventory has no
    entry of the item. *)
Theorem handlePlotClick_refuses (x y : nat) (this_state : farmState) :
  (selectedPlantableItemId this_state = EmptyString →
   handlePlotClick x y this_state = Some this_state)
  ∧ ((∃ planted, plot_at (fs_field this_state) x y = Some (Some planted)) →
     handlePlotClick x y this_state = Some this_state)
  ∧ (selectedPlantableItemId this_state ≠ EmptyString →
     (length (fs_field this_state) ≤ y)%nat →
     handlePlotClick x y this_state = None)
  ∧ (selectedPlantableItemId this_state ≠ EmptyString →
     plot_at (fs_field this_state) x y = Some None →
     (∀ entry, entry ∈ fs_inventory this_state →
        inv_id entry ≠ selectedPlantableItemId this_state) →
     handlePlotClick x y this_state = None).
Proof.
  unfold handlePlotClick, plot_at.
  split; [|split; [|split]].
  - intros ->. done.
  - intros [planted Hplanted]. case_decide; [done|].
    destruct (fs_field this_state !! y) as [row|]; [|done]. simpl in *.
    by rewrite Hplanted.
  - intros Hsel Hy. rewrite decide_False by done.
    by rewrite (lookup_ge_None_2 _ _ Hy).
  - intros Hsel Hplot Habsent. rewrite decide_False by done.
    destruct (fs_field this_state !! y) as [row|]; [|done]. simpl in *.
    rewrite Hplot. rewrite Trade.decrement_absent; [done|].
    apply list_find_None, Forall_forall. intros entry Hentry Hid.
    by apply (Habsent entry).
Qed.

(** Not both a plantable item and a tool are selected. *)
Definition one_selection (this_state : farmState) : Prop :=
  selectedPlantableItemId this_state = EmptyString
  ∨ selectedTool this_state = NONE.

Definition consistent (this_state : farmState) : Prop :=
  one_selection this_state ∧ Trade.well_formed (fs_inventory this_state).

Lemma handle_consistent (c : call) (this_state after : farmState) :
  consistent this_state → handle c this_state = Some after → consistent after.
Proof.
  intros [Hone Hwf]. destruct c as [item|item|value|id|tool|x y]; simpl.
  - intros [= <-]. split; [exact Hone|]. simpl.
    by apply (Trade.purchase_well_formed item (trade_state this_state)).
  - unfold Trade.handleItemSell. simpl.
    destruct (Trade.decrementItemFromInventory _ _) as [inventory|] eqn:Hdec;
      [|done].
    simpl. intros [= <-]. split; [exact Hone|]. simpl.
    by eapply Trade.decrement_well_formed.
  - intros [= <-]. by split.
  - intros [= <-]. split; [by right | done].
  - intros [= <-]. split; [by left | done].
  - unfold handlePlotClick. case_decide as Hsel; [by intros [= <-]|].
    destruct (fs_field this_state !! y) as [row|]; [|done]. simpl.
    assert (Hplant : ∀ st',
      (updatedInventory ←
         Trade.decrementItemFromInventory
           (selectedPlantableItemId this_state) (fs_inventory this_state);
       Some {| fs_field :=
                 splice_one y
                   (splice_one x
                      (Some (Lifecycle.getCropFromItemId
                               (selectedPlantableItemId this_state))) row)
                   (fs_field this_state);
               fs_inventory := updatedInventory;
               fs_money := fs_money this_state;
               selectedPlantableItemId :=
                 match list_find
                         (λ entry, selectedPlantableItemId this_state
                                   = inv_id entry) updatedInventory with
                 | Some _ => selectedPlantableItemId this_state
                 | None => EmptyString
                 end;
               selectedTool := selectedTool this_state;
               stageFocus := stageFocus this_state |}) = Some st' →
      consistent st').
    { intros st'.
      destruct (Trade.decrementItemFromInventory _ _) as [inventory|] eqn:Hdec;
        [|done].
      simpl. intros [= <-]. split; simpl.
      - destruct Hone as [Hnone|Htool]; [done|]. by right.
      - by eapply Trade.decrement_well_formed. }
    destruct (row !! x) as [[planted|]|]; [by intros [= <-] | apply Hplant..].
Qed.

(** X19: along any sequence of calls of the handlers that does not throw,
    the inventory keeps one entry per item with a positive quantity, and a
    plantable item and a tool are never selected together. *)
Theorem handlers_keep_consistent (calls : list call)
    (this_state after : farmState) :
  one_selection this_state →
  Trade.well_formed (fs_inventory this_state) →
  handle_all calls this_state = Some after →
  one_selection after ∧ Trade.well_formed (fs_inventory after).
Proof.
  intros Hone Hwf. assert (consistent this_state) as Hstart by done.
  clear Hone Hwf. revert this_state Hstart.
  induction calls as [|c calls IH]; intros this_state Hstart; simpl.
  - by intros [= <-].
  - destruct (handle c this_state) as [next|] eqn:Hnext; [|done]. simpl.
    apply IH. by eapply handle_consistent.
Qed.

Definition garden : farmState :=
  {| fs_field := createNewField 2 3; fs_inventory := Trade.stock;
     fs_money := 20; selectedPlantableItemId := "carrot-seed";
     selectedTool := NONE; stageFocus := "FIELD" |}.

Example handlePlotClick_last_seed :
  (λ after, (plot_at (fs_field after) 1 0, fs_inventory after,
             selectedPlantableItemId after))
    <$> handlePlotClick 1 0 garden
  = Some (Some (Some (Lifecycle.getCropFromItemId "carrot-seed")),
          [{| inv_id := "milk-1"; quantity := 2 |}], EmptyString).
Proof. reflexivity. Qed.

Example handlePlotClick_beyond_row :
  (λ after, length <$> fs_field after) <$> handlePlotClick 5 1 garden
  = Some [3%nat; 4%nat].
Proof. reflexivity. Qed.

Example handlePlotClick_no_row : handlePlotClick 0 2 garden = None.
Proof. reflexivity. Qed.

Lemma handlePlotClick_plants_witness :
  ∃ after,
    handlePlotClick 1 0 garden = Some after
    ∧ fs_inventory after = [{| inv_id := "milk-1"; quantity := 2 |}].
Proof.
  destruct (handlePlotClick_plants 1 0 garden [None; None; None]
              [{| inv_id := "milk-1"; quantity := 2 |}])
    as (after & Hafter & _ & _ & _ & Hinv & _).
  - discriminate.
  - reflexivity.
  - reflexivity.
  - reflexivity.
  - by exists after.
Defined.

Lemma handlers_keep_consistent_witness :
  ∃ after,
    handle_all [PlotClick 1 0; ItemPurchase Handlers.seeds; ToolSelect (TOOL "hoe")]
      garden = Some after
    ∧ one_selection after ∧ Trade.well_formed (fs_inventory after).
Proof.
  eexists. split; [reflexivity|].
  apply (handlers_keep_consistent
           [PlotClick 1 0; ItemPurchase Handlers.seeds; ToolSelect (TOOL "hoe")]
           garden).
  - by right.
  - split; [|by repeat constructor]. simpl.
    apply NoDup_cons. split; [|apply NoDup_singleton].
    rewrite list_elem_of_singleton. discriminate.
  - reflexivity.
Defined.

End Planting.

(** ** Clamping and scaling *)

Module Scaling.

(** X20: with [min <= max], [clampNumber] lands in [[min, max]], leaves the
    numbers of that interval as they are, is idempotent and preserves order;
    with [max < min] it returns one of the two bounds: [min] for a number up
    to [min], [max] for the others. *)
Theorem clampNumber_clamps (num other min max : Q) :
  ((min <= max)%Q →
   (min <= clampNumber num min max <= max)%Q
   ∧ ((min <= num <= max)%Q → (clampNumber num min max == num)%Q)
   ∧ (clampNumber (clampNumber num min max) min max
      == clampNumber num min max)%Q
   ∧ ((num <= other)%Q →
      (clampNumber num min max <= clampNumber other min max)%Q))
  ∧ ((max < min)%Q →
     clampNumber num min max = (if Qle_bool num min then min else max)).
Proof.
  split.
  - intros Hmm. split; [by apply clampNumber_range|]. split; [|split].
    + intros [Hlo Hhi]. unfold clampNumber.
      destruct (Qle_bool num min) eqn:H1.
      { apply Qle_bool_iff in H1. lra. }
      destruct (Qle_bool max num) eqn:H2; [|reflexivity].
      apply Qle_bool_iff in H2. lra.
    + unfold clampNumber.
      destruct (Qle_bool num min) eqn:H1.
      { rewrite (proj2 (Qle_bool_iff min min) (Qle_refl min)). reflexivity. }
      destruct (Qle_bool max num) eqn:H2.
      * destruct (Qle_bool max min) eqn:H3.
        -- apply Qle_bool_iff in H3. lra.
        -- rewrite (proj2 (Qle_bool_iff max max) (Qle_refl max)). reflexivity.
      * rewrite H1, H2. reflexivity.
    + by apply Herd.clampNumber_mono.
  - intros Hmm. unfold clampNumber.
    destruct (Qle_bool num min) eqn:H1; [done|].
    apply not_true_iff_false in H1. rewrite Qle_bool_iff in H1.
    assert (max <= num)%Q as H2 by lra.
    by rewrite (proj2 (Qle_bool_iff max num) H2).
Qed.

Example clampNumber_crossed : clampNumber 4 5 3 = 5%Q.
Proof. reflexivity. Qed.

Lemma clampNumber_clamps_witness :
  (clampNumber (clampNumber 7 0 5) 0 5 == clampNumber 7 0 5)%Q.
Proof.
  refine (proj1 (proj2 (proj2 (proj1 (clampNumber_clamps 7 7 0 5) _)))).
  discriminate.
Defined.

End Scaling.

(** ** Money and scaling with every operation rounded *)

Module Rounded.
Import Money.

(** [castToMoney]: [Math.round(num * 100) / 100], the product and the
    quotient rounded to doubles.  [Math.round] of a double is exact. *)
Definition castToMoney (num : Q) : Q :=
  binary64 (inject_Z (Math_round (binary64 (num * 100))) / 100).

(** [scaleNumber]:
    [((value - min) * (baseMax - baseMin)) / (max - min) + baseMin], each of
    the six operations rounded to a double. *)
Definition scaleNumber (value min max baseMin baseMax : Q) : Q :=
  binary64
    (binary64
       (binary64 (binary64 (value - min) * binary64 (baseMax - baseMin))
        / binary64 (max - min))
     + baseMin).

Local Open Scope Q_scope.

Lemma pow2_minus_53 : pow2 (-53) = 1 # 9007199254740992.
Proof. reflexivity. Qed.

Lemma binary64_nonneg x : 0 <= x → 0 <= binary64 x.
Proof.
  intros Hx. pose proof (binary64_mono 0 x Hx) as H.
  by rewrite (binary64_zero 0) in H.
Qed.

Lemma binary64_nonpos x : x <= 0 → binary64 x <= 0.
Proof.
  intros Hx. pose proof (binary64_mono x 0 Hx) as H.
  by rewrite (binary64_zero 0) in H.
Qed.

Lemma castToMoney_monotone x y : x <= y → castToMoney x <= castToMoney y.
Proof.
  intros Hxy. unfold castToMoney. apply binary64_mono.
  assert (Math_round (binary64 (x * 100)) ≤ Math_round (binary64 (y * 100)))%Z
    as Hr by (apply Math_round_mono, binary64_mono; lra).
  rewrite Zle_Qle in Hr. unfold Qdiv.
  apply Qmult_le_compat_r; [exact Hr | discriminate].
Qed.

(** A whole number of cents up to 2^50 survives the way to a double of
    dollars and back. *)
Lemma round_trip_cents (n : Z) :
  (Z.abs n ≤ 2 ^ 50)%Z → Math_round (binary64 (binary64 (cents n) * 100)) = n.
Proof.
  intros Hn.
  assert (- inject_Z (2 ^ 50) <= inject_Z n <= inject_Z (2 ^ 50)) as [Hn1 Hn2].
  { rewrite <- inject_Z_opp, <- !Zle_Qle. lia. }
  change (inject_Z (2 ^ 50)) with 1125899906842624 in *.
  assert (cents n * 100 == inject_Z n) as Ha by (unfold cents; field).
  pose proof (binary64_error (cents n)) as E1.
  pose proof (binary64_error (binary64 (cents n) * 100)) as E2.
  rewrite pow2_minus_53 in E1, E2.
  pose proof (Qabs_nonneg (cents n)) as HA0.
  assert (Qabs (cents n) <= 1125899906842624 # 100) as HA
    by (apply Qabs_Qle_condition; lra).
  apply Qabs_Qle_condition in E1.
  assert (Qabs (binary64 (cents n) * 100) <= 1125899906842625) as HZ
    by (apply Qabs_Qle_condition; lra).
  apply Qabs_Qle_condition in E2.
  unfold Math_round. apply Qfloor_unique.
  - lra.
  - rewrite inject_Z_plus. change (inject_Z 1) with 1. lra.
Qed.

(** X2: computed in binary64, on amounts of up to 2^43, [castToMoney] returns
    the double nearest to a whole number [n] of cents, where [n] is
    [Math.round] of the rounded product and lies within a half plus the
    rounding error of the product from [num * 100]; it preserves order; it
    gives back the double of a whole number of cents unchanged, and so is
    idempotent.  The result can be more than half a cent away from the
    argument, [castToMoney_beyond_half_cent]. *)
Theorem castToMoney_cents (num : Q) :
  Qabs num <= inject_Z (2 ^ 43) →
  let n := Math_round (binary64 (num * 100)) in
  castToMoney num = binary64 (cents n)
  ∧ (Z.abs n ≤ 2 ^ 50)%Z
  ∧ Qabs (inject_Z n - num * 100) <= (1 # 2) + Qabs (num * 100) * pow2 (-53)
  ∧ (∀ other, num <= other → castToMoney num <= castToMoney other)
  ∧ (∀ k : Z, (Z.abs k ≤ 2 ^ 50)%Z → num == binary64 (cents k) →
       castToMoney num == num)
  ∧ castToMoney (castToMoney num) == castToMoney num.
Proof.
  intros Hnum n.
  assert (Hwhole : ∀ (x : Q) (k : Z), (Z.abs k ≤ 2 ^ 50)%Z →
            x == binary64 (cents k) → castToMoney x == x).
  { intros x k Hk Hx. unfold castToMoney.
    rewrite (Prices.Math_round_comp _ (binary64 (binary64 (cents k) * 100))).
    - rewrite round_trip_cents by done. by rewrite Hx.
    - apply binary64_proper. by rewrite Hx. }
  assert (Z.abs n ≤ 2 ^ 50)%Z as Hn.
  { apply Qabs_Qle_condition in Hnum.
    change (inject_Z (2 ^ 43)) with 8796093022208 in Hnum.
    assert (- inject_Z (2 ^ 50) <= binary64 (num * 100) <= inject_Z (2 ^ 50))
      as [Hlo Hhi].
    { apply binary64_between; [vm_compute; reflexivity..|].
      change (inject_Z (2 ^ 50)) with 1125899906842624. lra. }
    assert (- 2 ^ 50 ≤ n ≤ 2 ^ 50)%Z; [|lia].
    rewrite <- (Math_round_Z (- 2 ^ 50) (- inject_Z (2 ^ 50))) at 1
      by (by rewrite inject_Z_opp).
    rewrite <- (Math_round_Z (2 ^ 50) (inject_Z (2 ^ 50))) at 2 by reflexivity.
    split; by apply Math_round_mono. }
  split; [reflexivity|]. split; [exact Hn|]. split; [|split; [|split]].
  - pose proof (Math_round_bounds (binary64 (num * 100))) as [Hr1 Hr2].
    fold n in Hr1, Hr2.
    pose proof (binary64_error (num * 100)) as E.
    set (P := Qabs (num * 100) * pow2 (-53)) in *.
    apply Qabs_Qle_condition in E. apply Qabs_Qle_condition. lra.
  - intros other. apply castToMoney_monotone.
  - apply Hwhole.
  - by apply (Hwhole _ n).
Qed.

Lemma castToMoney_cents_witness :
  castToMoney (castToMoney (15 # 1000)) == castToMoney (15 # 1000).
Proof.
  refine (proj2 (proj2 (proj2 (proj2 (proj2
            (castToMoney_cents (15 # 1000) _)))))).
  vm_compute. discriminate.
Defined.

Example castToMoney_beyond_half_cent :
  let num := binary64 (15 # 1000) in
  castToMoney num == binary64 (2 # 100)
  ∧ (1 # 200) < castToMoney num - num
  ∧ agrees (15 / 1000 * 100)%float (3 # 2) = true.
Proof. repeat split; vm_compute; reflexivity. Qed.

Example castToMoney_short_of_half_cent :
  let num := binary64 (1005 # 1000) in
  castToMoney num == 1
  ∧ binary64 (num * 100) < (201 # 2)
  ∧ agrees (1005 / 1000 * 100)%float (binary64 (num * 100)) = true.
Proof. repeat split; vm_compute; reflexivity. Qed.

(** X21: computed in binary64, [scaleNumber] over a band with [min < max]
    sends [min] to [baseMin] when that is a double, preserves the order of
    values when the target band ascends and reverses it when the target band
    descends.  Scaling there and back need not return the value,
    [scaleNumber_round_trip_off]. *)
Theorem scaleNumber_order (min max baseMin baseMax : Q) :
  min < max →
  (representable baseMin → scaleNumber min min max baseMin baseMax == baseMin)
  ∧ (baseMin <= baseMax → ∀ value other, value <= other →
       scaleNumber value min max baseMin baseMax
       <= scaleNumber other min max baseMin baseMax)
  ∧ (baseMax <= baseMin → ∀ value other, value <= other →
       scaleNumber other min max baseMin baseMax
       <= scaleNumber value min max baseMin baseMax).
Proof.
  intros Hband.
  assert (0 < binary64 (max - min)) as Hd by (apply binary64_sign; lra).
  assert (0 <= / binary64 (max - min)) as Hinv
    by (apply Qinv_le_0_compat; lra).
  split; [|split].
  - intros Hbase. unfold scaleNumber, representable in *.
    assert (binary64 (min - min) == 0) as -> by (apply binary64_sign; ring).
    assert (binary64 (0 * binary64 (baseMax - baseMin)) == 0) as ->
      by (apply binary64_sign; ring).
    assert (binary64 (0 / binary64 (max - min)) == 0) as ->
      by (apply binary64_sign; unfold Qdiv; ring).
    rewrite <- Hbase at 2. apply binary64_proper. ring.
  - intros Hbase value other Hle. unfold scaleNumber.
    assert (0 <= binary64 (baseMax - baseMin)) as Hc
      by (apply binary64_nonneg; lra).
    apply binary64_mono, Qplus_le_l, binary64_mono.
    unfold Qdiv. apply Qmult_le_compat_r; [|exact Hinv].
    apply binary64_mono, Qmult_le_compat_r; [|exact Hc].
    apply binary64_mono. lra.
  - intros Hbase value other Hle. unfold scaleNumber.
    assert (binary64 (baseMax - baseMin) <= 0) as Hc
      by (apply binary64_nonpos; lra).
    apply binary64_mono, Qplus_le_l, binary64_mono.
    unfold Qdiv. apply Qmult_le_compat_r; [|exact Hinv].
    apply binary64_mono.
    assert (binary64 (value - min) <= binary64 (other - min))
      by (apply binary64_mono; lra).
    nra.
Qed.

Lemma scaleNumber_order_witness :
  scaleNumber (1 # 2) (1 # 2) (3 # 2) 5 3 == 5.
Proof.
  refine (proj1 (scaleNumber_order (1 # 2) (3 # 2) 5 3 _) _).
  - reflexivity.
  - vm_compute. reflexivity.
Defined.

Example scaleNumber_round_trip_off :
  let value := binary64 (7 # 10) in
  scaleNumber (scaleNumber value (1 # 2) (3 # 2) 5 3) 5 3 (1 # 2) (3 # 2)
  == value + pow2 (-52)
  ∧ agrees
      (let scaled := ((7 / 10 - 0.5) * (3 - 5) / (1.5 - 0.5) + 5)%float in
       ((scaled - 5) * (1.5 - 0.5) / (3 - 5) + 0.5)%float)
      (value + pow2 (-52)) = true.
Proof. split; vm_compute; reflexivity. Qed.

Example money_not_restored :
  let money := binary64 (555 # 100) in
  let value := binary64 (11 # 10) in
  binary64 (binary64 (money - value) + value) == money - pow2 (-50)
  ∧ agrees (555 / 100 - 11 / 10 + 11 / 10)%float (money - pow2 (-50)) = true.
Proof. split; vm_compute; reflexivity. Qed.

End Rounded.
